(** * Independence checking of optimized functions (src/serializer/functions.js)

    A shallow embedding of the [Functions] class of the serializer: the
    capture of write effects of every optimized function (with nested
    discovery) and the pairwise write-conflict check, followed by the
    properties established about them.

    The abstract interpreter (the realm's evaluator, validity of values,
    shape information, the error handler) is outside the file; the record
    [Interpreter] stands for it. *)

From Stdlib Require Import List ZArith String Bool Lia.
Import ListNotations.
Local Open Scope string_scope.
Local Open Scope list_scope.

(** ** Values *)

(** A [BabelNodeSourceLocation] is an AST object; JS maps compare it by
    identity, which the model renders as the equality of its address. *)
Definition BabelNodeSourceLocation := nat.

(** [ArgModel], [ShapeInformation] and the abstract type tag of an argument are
    opaque to this file. *)
Definition ArgModel := nat.
Definition ShapeInformation := nat.
Inductive AbstractType := TypeValue | TypeObjectValue | TypeOfShape (tag : nat).

(** Formal parameters ([BabelNodeLVal]); [t.isIdentifier] holds of the first
    form only. *)
Inductive BabelNodeLVal :=
| Identifier (name : string)
| AssignmentPattern
| ObjectPattern
| ArrayPattern
| RestElement
| MemberExpression.

Definition isIdentifier (p : BabelNodeLVal) : bool :=
  match p with Identifier _ => true | _ => false end.

(** The fields of an [ECMAScriptSourceFunctionValue] the file reads.  [address]
    stands for the identity of the object. *)
Record ECMAScriptSourceFunctionValue := {
  address : nat;
  hasCall : bool;                                   (* $Call is defined *)
  getLength : option Z;                             (* getLength() *)
  FormalParameters : option (list BabelNodeLVal);   (* $FormalParameters *)
  expressionLocation : option BabelNodeSourceLocation;
  intrinsicName : option string
}.
Abbreviation FunctionValue := ECMAScriptSourceFunctionValue.

Inductive ObjectValue :=
| OrdinaryObject (addr : nat)
| FunctionObject (f : FunctionValue).

(** [ObjectValue | AbstractObjectValue] *)
Inductive ObjectRef :=
| ConcreteObject (o : ObjectValue)
| AbstractObject (id : nat).

Inductive ConcreteValue :=
| EmptyValue
| UndefinedValue
| PrimitiveValue (n : nat)
| ObjectV (o : ObjectValue).

(** [elements] is the element set of the values domain of an abstract value,
    when the domain has one. *)
Inductive Value :=
| Concrete (c : ConcreteValue)
| AbstractValue (id : nat) (elements : option (list ConcreteValue)).

Record PropertyBinding := {
  pbObject : ObjectRef;
  pbKey : string
}.

(** Modelled from the spec: the completion classes of completions.js are not
    among the sources; section 3 gives the result of a capture as Normal,
    Abrupt or PossiblyAbrupt.  The last two are instances of [Completion], the
    last one of [PossiblyNormalCompletion]. *)
Inductive EvaluationResult :=
| NormalResult (v : Value)
| AbruptCompletion (location : option BabelNodeSourceLocation)
| PossiblyNormalCompletion (location : option BabelNodeSourceLocation).

Definition resultLocation (r : EvaluationResult) : option BabelNodeSourceLocation :=
  match r with
  | NormalResult _ => None
  | AbruptCompletion l | PossiblyNormalCompletion l => l
  end.

(** [PropertyBindings] is a JS [Map] keyed by binding; only its keys are read
    here.  [createdObjects] is a JS [Set]. *)
Definition PropertyBindings := list PropertyBinding.

Record Effects := {
  result : EvaluationResult;
  modifiedProperties : PropertyBindings;
  createdObjects : list ObjectValue
}.

Record AdditionalFunctionEffects := {
  parentAdditionalFunction : option FunctionValue;
  effects : Effects
}.

Record AdditionalFunctionEntry := {
  value : FunctionValue;
  argModel : option ArgModel
}.

(** ** Diagnostics and errors *)

Inductive Severity := FatalSeverity | RecoverableError | Warning | Information.
Inductive ErrorHandlerResult := Fail | Recover.

Record CompilerDiagnostic := {
  message : string;
  location : option BabelNodeSourceLocation;
  errorCode : string;
  severity : Severity
}.

(** The errors that the two files throw or let through: [FatalError] of
    errors.js, the error of a failed [invariant], and the [TypeError] of a
    babel-types builder that is given an operand it does not accept. *)
Inductive Error :=
| FatalError (msg : option string)
| InvariantViolation
| TypeError.

(** ** Calls and what an evaluation does *)

Record AbstractArgument := {
  argName : string;
  argLocation : option BabelNodeSourceLocation;
  argType : AbstractType;
  argShape : option ShapeInformation
}.

(** [call.bind(this, thisArg, args)] *)
Record Call := {
  callee : FunctionValue;
  thisArg : AbstractArgument;
  args : list AbstractArgument
}.

(** What the interpreter does, in order, while it evaluates a call: property
    reads and own-property enumerations (each at the realm's current
    location), registrations through [__optimize], and side effects reported
    to the callback of a pure evaluation (as the message that
    [handleReportedSideEffect] hands to its logger). *)
Inductive EvalStep :=
| PropertyAccess (pb : PropertyBinding)
                 (currentLocation : option BabelNodeSourceLocation)
| GetOwnProperties (ob : ObjectValue) (currentLocation : option BabelNodeSourceLocation)
| Register (v : Value) (m : option ArgModel)
| SideEffect (msg : string).

Record Evaluation := {
  steps : list EvalStep;
  final : Effects + Error
}.

(** ** Decidable identity *)

Definition BabelNodeLVal_eq_dec (a b : BabelNodeLVal) : {a = b} + {a <> b}.
Proof. decide equality; apply string_dec. Defined.

Definition FunctionValue_eq_dec (a b : FunctionValue) : {a = b} + {a <> b}.
Proof.
  decide equality;
    repeat first [ apply Nat.eq_dec | apply string_dec | apply Z.eq_dec
                 | apply bool_dec | apply BabelNodeLVal_eq_dec
                 | apply list_eq_dec | decide equality ].
Defined.

Definition ObjectValue_eq_dec (a b : ObjectValue) : {a = b} + {a <> b}.
Proof. decide equality; [apply Nat.eq_dec | apply FunctionValue_eq_dec]. Defined.

Definition ObjectRef_eq_dec (a b : ObjectRef) : {a = b} + {a <> b}.
Proof. decide equality; [apply ObjectValue_eq_dec | apply Nat.eq_dec]. Defined.

Definition ConcreteValue_eq_dec (a b : ConcreteValue) : {a = b} + {a <> b}.
Proof. decide equality; [apply Nat.eq_dec | apply ObjectValue_eq_dec]. Defined.

Definition Value_eq_dec (a b : Value) : {a = b} + {a <> b}.
Proof.
  decide equality;
    repeat first [ apply Nat.eq_dec | apply ConcreteValue_eq_dec
                 | apply list_eq_dec | decide equality ].
Defined.

Definition PropertyBinding_eq_dec (a b : PropertyBinding) : {a = b} + {a <> b}.
Proof. decide equality; [apply string_dec | apply ObjectRef_eq_dec]. Defined.

(** ** JS maps and sets, in insertion order *)

Module JSMap.
Section JSMap.
Context {K V : Type} (eq_dec : forall a b : K, {a = b} + {a <> b}).

Fixpoint get (m : list (K * V)) (k : K) : option V :=
  match m with
  | [] => None
  | (k', v) :: m' => if eq_dec k' k then Some v else get m' k
  end.

Definition has (m : list (K * V)) (k : K) : bool :=
  match get m k with Some _ => true | None => false end.

(** [set] keeps the position of a key that is already there. *)
Fixpoint set (m : list (K * V)) (k : K) (v : V) : list (K * V) :=
  match m with
  | [] => [(k, v)]
  | (k', v') :: m' =>
      if eq_dec k' k then (k, v) :: m' else (k', v') :: set m' k v
  end.

Definition keys (m : list (K * V)) : list K := map fst m.
Definition values (m : list (K * V)) : list V := map snd m.
End JSMap.
End JSMap.

Module JSSet.
Section JSSet.
Context {K : Type} (eq_dec : forall a b : K, {a = b} + {a <> b}).

Definition has (s : list K) (k : K) : bool :=
  if in_dec eq_dec k s then true else false.

Definition add (s : list K) (k : K) : list K :=
  if in_dec eq_dec k s then s else s ++ [k].

(** [new Set(array)] *)
Definition ofList (l : list K) : list K := fold_left add l [].
End JSSet.
End JSSet.

(** ** The mutable state *)

(** The closures that [reportWriteConflicts] installs in the realm capture
    [fname], the write set and the written objects; the conflict map they
    share is [conflicts] below.  A hook installed by other code is opaque. *)
Inductive PropertyAccessHook :=
| NoPropertyAccessHook
| ForeignPropertyAccessHook (id : nat)
| ConflictOnPropertyAccess (fname : string) (pbs : PropertyBindings).

Inductive GetOwnPropertiesHook :=
| NoGetOwnPropertiesHook
| ForeignGetOwnPropertiesHook (id : nat)
| ConflictOnGetOwnProperties (fname : string) (writtenObjects : list ObjectRef).

(** What the error handler and the interpreter are asked to do, in order. *)
Inductive Event :=
| EvHandleError (d : CompilerDiagnostic)
| EvEvaluate (pure : bool) (c : Call) (baseline : list Effects)
| EvBeginOptimizingFunction (tracer id : nat) (f : FunctionValue)
| EvEndOptimizingFunction (tracer id : nat).

(** The fields of the realm and of [this] that the file touches, the locals of
    [checkThatFunctionsAreIndependent] that its closures share, and the trace
    of events. *)
Record State := {
  (* realm *)
  optimizedFunctions : list (Value * option ArgModel);
  reportPropertyAccess : PropertyAccessHook;
  reportObjectGetOwnProperties : GetOwnPropertiesHook;
  tracers : list nat;
  appliedEffects : list Effects;
  (* this *)
  writeEffects : list (FunctionValue * AdditionalFunctionEffects);
  functionExpressions : list (FunctionValue * string);
  optimizedFunctionId : nat;
  (* locals of checkThatFunctionsAreIndependent *)
  additionalFunctionStack : list FunctionValue;
  additionalFunctions : list FunctionValue;
  conflicts : list (BabelNodeSourceLocation * CompilerDiagnostic);
  (* observation *)
  trace : list Event
}.

Definition set_optimizedFunctions v (s : State) : State :=
  {| optimizedFunctions := v;
     reportPropertyAccess := reportPropertyAccess s;
     reportObjectGetOwnProperties := reportObjectGetOwnProperties s;
     tracers := tracers s; appliedEffects := appliedEffects s;
     writeEffects := writeEffects s; functionExpressions := functionExpressions s;
     optimizedFunctionId := optimizedFunctionId s;
     additionalFunctionStack := additionalFunctionStack s;
     additionalFunctions := additionalFunctions s;
     conflicts := conflicts s; trace := trace s |}.

Definition set_reportPropertyAccess v (s : State) : State :=
  {| optimizedFunctions := optimizedFunctions s;
     reportPropertyAccess := v;
     reportObjectGetOwnProperties := reportObjectGetOwnProperties s;
     tracers := tracers s; appliedEffects := appliedEffects s;
     writeEffects := writeEffects s; functionExpressions := functionExpressions s;
     optimizedFunctionId := optimizedFunctionId s;
     additionalFunctionStack := additionalFunctionStack s;
     additionalFunctions := additionalFunctions s;
     conflicts := conflicts s; trace := trace s |}.

Definition set_reportObjectGetOwnProperties v (s : State) : State :=
  {| optimizedFunctions := optimizedFunctions s;
     reportPropertyAccess := reportPropertyAccess s;
     reportObjectGetOwnProperties := v;
     tracers := tracers s; appliedEffects := appliedEffects s;
     writeEffects := writeEffects s; functionExpressions := functionExpressions s;
     optimizedFunctionId := optimizedFunctionId s;
     additionalFunctionStack := additionalFunctionStack s;
     additionalFunctions := additionalFunctions s;
     conflicts := conflicts s; trace := trace s |}.

Definition set_appliedEffects v (s : State) : State :=
  {| optimizedFunctions := optimizedFunctions s;
     reportPropertyAccess := reportPropertyAccess s;
     reportObjectGetOwnProperties := reportObjectGetOwnProperties s;
     tracers := tracers s; appliedEffects := v;
     writeEffects := writeEffects s; functionExpressions := functionExpressions s;
     optimizedFunctionId := optimizedFunctionId s;
     additionalFunctionStack := additionalFunctionStack s;
     additionalFunctions := additionalFunctions s;
     conflicts := conflicts s; trace := trace s |}.

Definition set_writeEffects v (s : State) : State :=
  {| optimizedFunctions := optimizedFunctions s;
     reportPropertyAccess := reportPropertyAccess s;
     reportObjectGetOwnProperties := reportObjectGetOwnProperties s;
     tracers := tracers s; appliedEffects := appliedEffects s;
     writeEffects := v; functionExpressions := functionExpressions s;
     optimizedFunctionId := optimizedFunctionId s;
     additionalFunctionStack := additionalFunctionStack s;
     additionalFunctions := additionalFunctions s;
     conflicts := conflicts s; trace := trace s |}.

Definition set_optimizedFunctionId v (s : State) : State :=
  {| optimizedFunctions := optimizedFunctions s;
     reportPropertyAccess := reportPropertyAccess s;
     reportObjectGetOwnProperties := reportObjectGetOwnProperties s;
     tracers := tracers s; appliedEffects := appliedEffects s;
     writeEffects := writeEffects s; functionExpressions := functionExpressions s;
     optimizedFunctionId := v;
     additionalFunctionStack := additionalFunctionStack s;
     additionalFunctions := additionalFunctions s;
     conflicts := conflicts s; trace := trace s |}.

Definition set_additionalFunctionStack v (s : State) : State :=
  {| optimizedFunctions := optimizedFunctions s;
     reportPropertyAccess := reportPropertyAccess s;
     reportObjectGetOwnProperties := reportObjectGetOwnProperties s;
     tracers := tracers s; appliedEffects := appliedEffects s;
     writeEffects := writeEffects s; functionExpressions := functionExpressions s;
     optimizedFunctionId := optimizedFunctionId s;
     additionalFunctionStack := v;
     additionalFunctions := additionalFunctions s;
     conflicts := conflicts s; trace := trace s |}.

Definition set_additionalFunctions v (s : State) : State :=
  {| optimizedFunctions := optimizedFunctions s;
     reportPropertyAccess := reportPropertyAccess s;
     reportObjectGetOwnProperties := reportObjectGetOwnProperties s;
     tracers := tracers s; appliedEffects := appliedEffects s;
     writeEffects := writeEffects s; functionExpressions := functionExpressions s;
     optimizedFunctionId := optimizedFunctionId s;
     additionalFunctionStack := additionalFunctionStack s;
     additionalFunctions := v;
     conflicts := conflicts s; trace := trace s |}.

Definition set_conflicts v (s : State) : State :=
  {| optimizedFunctions := optimizedFunctions s;
     reportPropertyAccess := reportPropertyAccess s;
     reportObjectGetOwnProperties := reportObjectGetOwnProperties s;
     tracers := tracers s; appliedEffects := appliedEffects s;
     writeEffects := writeEffects s; functionExpressions := functionExpressions s;
     optimizedFunctionId := optimizedFunctionId s;
     additionalFunctionStack := additionalFunctionStack s;
     additionalFunctions := additionalFunctions s;
     conflicts := v; trace := trace s |}.

Definition set_trace v (s : State) : State :=
  {| optimizedFunctions := optimizedFunctions s;
     reportPropertyAccess := reportPropertyAccess s;
     reportObjectGetOwnProperties := reportObjectGetOwnProperties s;
     tracers := tracers s; appliedEffects := appliedEffects s;
     writeEffects := writeEffects s; functionExpressions := functionExpressions s;
     optimizedFunctionId := optimizedFunctionId s;
     additionalFunctionStack := additionalFunctionStack s;
     additionalFunctions := additionalFunctions s;
     conflicts := conflicts s; trace := v |}.

(** ** A state and exception monad *)

(** [OutOfFuel] is not a JS outcome: it marks a run of the model whose nested
    discovery was cut by the recursion bound. *)
Inductive Outcome (A : Type) :=
| Returned (a : A)
| Threw (e : Error)
| OutOfFuel.
Arguments Returned {A} a.
Arguments Threw {A} e.
Arguments OutOfFuel {A}.

Definition M (A : Type) := State -> Outcome A * State.

Definition ret {A} (a : A) : M A := fun s => (Returned a, s).

Definition bind {A B} (m : M A) (k : A -> M B) : M B :=
  fun s =>
    match m s with
    | (Returned a, s') => k a s'
    | (Threw e, s') => (Threw e, s')
    | (OutOfFuel, s') => (OutOfFuel, s')
    end.

Declare Scope js_scope.
Delimit Scope js_scope with js.
Notation "x <- m ;; k" := (bind m (fun x => k))
  (at level 61, m at next level, right associativity) : js_scope.
Notation "m ;; k" := (bind m (fun _ => k))
  (at level 61, right associativity) : js_scope.
Local Open Scope js_scope.

Definition throw {A} (e : Error) : M A := fun s => (Threw e, s).
Definition outOfFuel {A} : M A := fun s => (OutOfFuel, s).
Definition gets {A} (f : State -> A) : M A := fun s => (Returned (f s), s).
Definition modify (f : State -> State) : M unit := fun s => (Returned tt, f s).

Definition invariant (b : bool) : M unit :=
  if b then ret tt else throw InvariantViolation.

Definition emit (e : Event) : M unit :=
  modify (fun s => set_trace (trace s ++ [e]) s).

(** [try { body } finally { fin }]; [fin] does not throw in this file. *)
Definition try_finally {A} (body : M A) (fin : State -> State) : M A :=
  fun s => let (o, s') := body s in (o, fin s').

(** [for (let x of l) body(x)] *)
Fixpoint forEach {A} (l : list A) (body : A -> M unit) : M unit :=
  match l with
  | [] => ret tt
  | x :: l' => body x ;; forEach l' body
  end.

(** ** The abstract interpreter *)

(** What the file asks of the realm and of the helpers around it: the error
    handler behind [realm.handleError], the evaluation of a call under the
    effects that are applied, [isValid] of a function value under them, the
    shape information of arguments,
    [ObjectValue.refuseSerializationOnPropertyBinding], and the errors that
    the helper [ignoreErrorsIn] of utils/errors.js ignores. *)
Record Interpreter := {
  errorHandler : CompilerDiagnostic -> ErrorHandlerResult;
  evaluate : Call -> list Effects -> Evaluation;
  isValid : list Effects -> FunctionValue -> bool;
  createForArgument : option ArgModel -> string -> option ShapeInformation;
  getAbstractType : ShapeInformation -> AbstractType;
  refuseSerializationOnPropertyBinding : PropertyBinding -> bool;
  ignoresError : Error -> bool
}.

(** ** The class [Functions] *)

Module Functions.
Section Serializer.

Variable rt : Interpreter.

(** [realm.handleError]: the diagnostic reaches the handler, whose answer is
    returned. *)
Definition handleError (d : CompilerDiagnostic) : M ErrorHandlerResult :=
  emit (EvHandleError d) ;; ret (errorHandler rt d).

Definition isEmptyOrUndefined (c : ConcreteValue) : bool :=
  match c with EmptyValue | UndefinedValue => true | _ => false end.

(** [value.values.getElements()]: the values domain is outside the file.  On
    a domain that has no element set the call does not return: it fails an
    invariant. *)
Definition getElements (values : option (list ConcreteValue))
  : M (list ConcreteValue) :=
  match values with
  | Some elements => ret elements
  | None => throw InvariantViolation
  end.

(** The argument is an [AbstractValue], given by its fields.  The set that
    [getElements] returns is an object, so that the test [if (elements)]
    holds whenever the call returns. *)
Definition _unwrapAbstract (id : nat) (values : option (list ConcreteValue)) : M Value :=
  elements <- getElements values ;;
  match filter (fun element => negb (isEmptyOrUndefined element)) elements with
  | [possibleValue] => ret (Concrete possibleValue)
  | _ => ret (AbstractValue id values)
  end.

(** [value instanceof ECMAScriptSourceFunctionValue] *)
Definition asSourceFunction (v : Value) : option FunctionValue :=
  match v with
  | Concrete (ObjectV (FunctionObject f)) => Some f
  | _ => None
  end.

(** [valueToOptimize instanceof AbstractValue ? this._unwrapAbstract(valueToOptimize) : valueToOptimize] *)
Definition unwrapIfAbstract (valueToOptimize : Value) : M Value :=
  match valueToOptimize with
  | AbstractValue id values => _unwrapAbstract id values
  | _ => ret valueToOptimize
  end.

Definition PP1008 (f : FunctionValue) : CompilerDiagnostic :=
  {| message := "Called __optimize on function in failed speculative context";
     location := expressionLocation f;
     errorCode := "PP1008";
     severity := RecoverableError |}.

(** The loop of [_generateOptimizedFunctionsFromRealm] over the entries of
    [realm.optimizedFunctions]. *)
Fixpoint generateLoop (entries : list (Value * option ArgModel))
    (recordedAdditionalFunctions : list AdditionalFunctionEntry)
  : M (list AdditionalFunctionEntry) :=
  match entries with
  | [] => ret recordedAdditionalFunctions
  | (valueToOptimize, argModel) :: rest =>
      value <- unwrapIfAbstract valueToOptimize ;;
      match asSourceFunction value with
      | None => throw InvariantViolation
      | Some f =>
          valid <- gets (fun s => isValid rt (appliedEffects s) f) ;;
          if negb valid then
            r <- handleError (PP1008 f) ;;
            match r with
            | Recover => generateLoop rest recordedAdditionalFunctions
            | Fail => throw (FatalError None)
            end
          else
            generateLoop rest
              (recordedAdditionalFunctions ++ [{| value := f; argModel := argModel |}])
      end
  end.

Definition _generateOptimizedFunctionsFromRealm : M (list AdditionalFunctionEntry) :=
  entries <- gets optimizedFunctions ;;
  generateLoop entries [].

Definition createAbstractArgument (name : string)
    (loc : option BabelNodeSourceLocation) (type : AbstractType)
    (shape : option ShapeInformation) : AbstractArgument :=
  {| argName := name; argLocation := loc; argType := type; argShape := shape |}.

Definition nonIdentifierMessage : string :=
  "Non-identifier args to additional functions unsupported".

Definition PP1005 (funcValue : FunctionValue) : CompilerDiagnostic :=
  {| message := nonIdentifierMessage;
     location := expressionLocation funcValue;
     errorCode := "PP1005";
     severity := FatalSeverity |}.

(** The loop of [_callOfFunction] over the formal parameters. *)
Fixpoint argumentsLoop (funcValue : FunctionValue) (argModel : option ArgModel)
    (params : list BabelNodeLVal) (args : list AbstractArgument)
  : M (list AbstractArgument) :=
  match params with
  | [] => ret args
  | Identifier paramName :: rest =>
      let shape := createForArgument rt argModel paramName in
      argumentsLoop funcValue argModel rest
        (args ++ [createAbstractArgument paramName (expressionLocation funcValue)
                    (match shape with
                     | Some sh => getAbstractType rt sh
                     | None => TypeValue
                     end)
                    shape])
  | _ :: _ =>
      handleError (PP1005 funcValue) ;;
      throw (FatalError (Some nonIdentifierMessage))
  end.

(** [numArgs && numArgs > 0 && params] *)
Definition hasParametersToModel (funcValue : FunctionValue) : option (list BabelNodeLVal) :=
  match getLength funcValue, FormalParameters funcValue with
  | Some numArgs, Some params =>
      if (negb (numArgs =? 0) && (numArgs >? 0))%Z then Some params else None
  | _, _ => None
  end.

Definition _callOfFunction (funcValue : FunctionValue) (argModel : option ArgModel)
  : M Call :=
  invariant (hasCall funcValue) ;;
  args <- match hasParametersToModel funcValue with
          | Some params => argumentsLoop funcValue argModel params []
          | None => ret []
          end ;;
  let thisArg :=
    createAbstractArgument "this" (expressionLocation funcValue) TypeObjectValue None in
  ret {| callee := funcValue; thisArg := thisArg; args := args |}.

Definition setOptimizedFunction (v : Value) (m : option ArgModel) : M unit :=
  modify (fun s => set_optimizedFunctions
                     (JSMap.set Value_eq_dec (optimizedFunctions s) v m) s).

Definition _withEmptyOptimizedFunctionList (entry : AdditionalFunctionEntry)
    (func : FunctionValue -> option ArgModel -> M unit) : M unit :=
  oldRealmOptimizedFunctions <- gets optimizedFunctions ;;
  modify (set_optimizedFunctions []) ;;
  currentOptimizedFunctionId <- gets optimizedFunctionId ;;
  modify (set_optimizedFunctionId (S currentOptimizedFunctionId)) ;;
  ts1 <- gets tracers ;;
  forEach ts1 (fun t1 =>
    emit (EvBeginOptimizingFunction t1 currentOptimizedFunctionId (value entry))) ;;
  func (value entry) (argModel entry) ;;
  ts2 <- gets tracers ;;
  forEach ts2 (fun t2 => emit (EvEndOptimizingFunction t2 currentOptimizedFunctionId)) ;;
  forEach oldRealmOptimizedFunctions (fun om => setOptimizedFunction (fst om) (snd om)).

(** *** The realm's evaluation entry points *)

Definition PP1003 (fname : string) (loc : BabelNodeSourceLocation) : CompilerDiagnostic :=
  {| message := "Property access conflicts with write in optimized function " ++ fname;
     location := Some loc;
     errorCode := "PP1003";
     severity := FatalSeverity |}.

(** The closure [reportConflict] of [reportWriteConflicts]. *)
Definition reportConflict (fname : string) (loc : BabelNodeSourceLocation) : M unit :=
  modify (fun s => set_conflicts
                     (JSMap.set Nat.eq_dec (conflicts s) loc (PP1003 fname loc)) s).

(** A property read reaches [realm.reportPropertyAccess]; the closure that
    [reportWriteConflicts] assigns to it is the third case. *)
Definition callReportPropertyAccess (pb : PropertyBinding)
    (currentLocation : option BabelNodeSourceLocation) : M unit :=
  hook <- gets reportPropertyAccess ;;
  match hook with
  | ConflictOnPropertyAccess fname pbs =>
      if refuseSerializationOnPropertyBinding rt pb then ret tt
      else match currentLocation with
           | None => ret tt
           | Some loc =>
               c <- gets conflicts ;;
               if JSSet.has PropertyBinding_eq_dec pbs pb
                  && negb (JSMap.has Nat.eq_dec c loc)
               then reportConflict fname loc
               else ret tt
           end
  | _ => ret tt
  end.

(** Likewise for [realm.reportObjectGetOwnProperties]. *)
Definition callReportObjectGetOwnProperties (ob : ObjectValue)
    (currentLocation : option BabelNodeSourceLocation) : M unit :=
  hook <- gets reportObjectGetOwnProperties ;;
  match hook with
  | ConflictOnGetOwnProperties fname writtenObjects =>
      match currentLocation with
      | None => throw InvariantViolation
      | Some loc =>
          c <- gets conflicts ;;
          if JSSet.has ObjectRef_eq_dec writtenObjects (ConcreteObject ob)
             && negb (JSMap.has Nat.eq_dec c loc)
          then reportConflict fname loc
          else ret tt
      end
  | _ => ret tt
  end.

Definition PP1007 (msg : string) : CompilerDiagnostic :=
  {| message := msg; location := None; errorCode := "PP1007"; severity := Warning |}.

(** The closure [logCompilerDiagnostic] of the capture. *)
Definition logCompilerDiagnostic (msg : string) : M unit :=
  handleError (PP1007 msg) ;; ret tt.

Definition runStep (pure : bool) (st : EvalStep) : M unit :=
  match st with
  | PropertyAccess pb loc => callReportPropertyAccess pb loc
  | GetOwnProperties ob loc => callReportObjectGetOwnProperties ob loc
  | Register v m => setOptimizedFunction v m
  | SideEffect msg => if pure then logCompilerDiagnostic msg else ret tt
  end.

(** Modelled from the spec: realm.js is not among the sources.  Section 6 has
    the interpreter evaluate a call speculatively into its [Effects], under
    the effects currently applied, with the interception hooks of the realm
    consulted at every property read and enumeration; with [pure] set this is
    [evaluatePure] around [evaluateForEffectsInGlobalEnv], whose callback
    receives the reported side effects. *)
Definition evaluateForEffectsInGlobalEnv (pure : bool) (call : Call) : M Effects :=
  baseline <- gets appliedEffects ;;
  emit (EvEvaluate pure call baseline) ;;
  let ev := evaluate rt call baseline in
  forEach (steps ev) (runStep pure) ;;
  match final ev with
  | inl e => ret e
  | inr err => throw err
  end.

(** Modelled from the spec: realm.js is not among the sources.  Section 6:
    [withEffectsApplied(effects, body)] is a scoped commit of [effects] for the
    duration of [body]. *)
Definition withEffectsAppliedInGlobalEnv {A} (body : M A) (e : Effects) : M A :=
  saved <- gets appliedEffects ;;
  try_finally (modify (set_appliedEffects (e :: saved)) ;; body)
              (set_appliedEffects saved).

(** utils/errors.js is not among the sources, and the spec does not describe
    the helper.  It runs its thunk; the errors of the thunk that it ignores
    ([ignoresError] of the interpreter record) become [undefined] for the
    caller, and every other error goes on to the caller. *)
Definition ignoreErrorsIn {A} (f : M A) : M (option A) :=
  fun s =>
    match f s with
    | (Returned a, s') => (Returned (Some a), s')
    | (Threw e, s') =>
        if ignoresError rt e then (Returned None, s') else (Threw e, s')
    | (OutOfFuel, s') => (OutOfFuel, s')
    end.

(** Modelled from the spec: serializer/utils.js is not among the sources.
    Section 4.2: the raw effects are wrapped into a record tagged with the
    parent that is handed in. *)
Definition createAdditionalEffects (e : Effects)
    (environmentRecordIdAfterGlobalCode : nat)
    (parent : option FunctionValue) : option AdditionalFunctionEffects :=
  Some {| parentAdditionalFunction := parent; effects := e |}.

(** *** [reportWriteConflicts] *)

Definition writtenObjectsOf (pbs : PropertyBindings) : list ObjectRef :=
  fold_left (fun acc key => JSSet.add ObjectRef_eq_dec acc (pbObject key)) pbs [].

(** The map [conflicts] that the caller passes is the cell [conflicts] of the
    state, which the installed closures share. *)
Definition reportWriteConflicts (fname : string) (pbs : PropertyBindings)
    (call2 : Call) : M unit :=
  let writtenObjects := writtenObjectsOf pbs in
  oldReportObjectGetOwnProperties <- gets reportObjectGetOwnProperties ;;
  modify (set_reportObjectGetOwnProperties
            (ConflictOnGetOwnProperties fname writtenObjects)) ;;
  oldReportPropertyAccess <- gets reportPropertyAccess ;;
  modify (set_reportPropertyAccess (ConflictOnPropertyAccess fname pbs)) ;;
  try_finally
    (ignoreErrorsIn (evaluateForEffectsInGlobalEnv false call2) ;; ret tt)
    (fun s => set_reportObjectGetOwnProperties oldReportObjectGetOwnProperties
                (set_reportPropertyAccess oldReportPropertyAccess s)).

(** *** [checkThatFunctionsAreIndependent]: capture *)

Fixpoint findDeclaring (we : list (FunctionValue * AdditionalFunctionEffects))
    (functionValue : FunctionValue) : option FunctionValue :=
  match we with
  | [] => None
  | (additionalFunctionValue, additionalEffects) :: rest =>
      if JSSet.has ObjectValue_eq_dec
           (createdObjects (effects additionalEffects)) (FunctionObject functionValue)
      then Some additionalFunctionValue
      else findDeclaring rest functionValue
  end.

Definition getDeclaringAdditionalFunction (functionValue : FunctionValue)
  : M (option FunctionValue) :=
  we <- gets writeEffects ;;
  ret (findDeclaring we functionValue).

Definition PP1009 (functionValue : FunctionValue) : CompilerDiagnostic :=
  {| message := "Trying to optimize a function with two parent optimized functions, which is not currently allowed.";
     location := expressionLocation functionValue;
     errorCode := "PP1009";
     severity := FatalSeverity |}.

(** Lines 258-291 of [recordWriteEffectsForOptimizedFunctionAndNestedFunctions]:
    from the push on the stack to the entry in [writeEffects]. *)
Definition captureWriteEffects (environmentRecordIdAfterGlobalCode : nat)
    (functionValue : FunctionValue) (argModel : option ArgModel)
  : M AdditionalFunctionEffects :=
  modify (fun s => set_additionalFunctionStack
                     (additionalFunctionStack s ++ [functionValue]) s) ;;
  call <- _callOfFunction functionValue argModel ;;
  e <- evaluateForEffectsInGlobalEnv true call ;;
  parent <- getDeclaringAdditionalFunction functionValue ;;
  match createAdditionalEffects e environmentRecordIdAfterGlobalCode parent with
  | None => throw InvariantViolation
  | Some additionalFunctionEffects =>
      known <- gets (fun s => JSMap.has FunctionValue_eq_dec (writeEffects s) functionValue) ;;
      (if known then
         r <- handleError (PP1009 functionValue) ;;
         match r with
         | Recover => ret tt
         | Fail => throw (FatalError None)
         end
       else ret tt) ;;
      modify (fun s => set_writeEffects
                (JSMap.set FunctionValue_eq_dec (writeEffects s) functionValue
                   additionalFunctionEffects) s) ;;
      ret additionalFunctionEffects
  end.

Definition popStack : M (option FunctionValue) :=
  st <- gets additionalFunctionStack ;;
  modify (set_additionalFunctionStack (removelast st)) ;;
  ret (last (map Some st) None).

Definition sameFunction (a : option FunctionValue) (b : FunctionValue) : bool :=
  match a with
  | Some f => if FunctionValue_eq_dec f b then true else false
  | None => false
  end.

(** The recursion through nested optimized functions is bounded by [fuel]. *)
Fixpoint recordWriteEffectsForOptimizedFunctionAndNestedFunctions (fuel : nat)
    (environmentRecordIdAfterGlobalCode : nat)
    (functionValue : FunctionValue) (argModel : option ArgModel) : M unit :=
  match fuel with
  | O => outOfFuel
  | S fuel' =>
      additionalFunctionEffects <-
        captureWriteEffects environmentRecordIdAfterGlobalCode functionValue argModel ;;
      withEffectsAppliedInGlobalEnv
        (newOptFuncs <- _generateOptimizedFunctionsFromRealm ;;
         forEach newOptFuncs (fun newEntry =>
           modify (fun s => set_additionalFunctions
                     (JSSet.add FunctionValue_eq_dec (additionalFunctions s)
                        (value newEntry)) s) ;;
           _withEmptyOptimizedFunctionList newEntry
             (recordWriteEffectsForOptimizedFunctionAndNestedFunctions fuel'
                environmentRecordIdAfterGlobalCode)))
        (effects additionalFunctionEffects) ;;
      top <- popStack ;;
      invariant (sameFunction top functionValue)
  end.

(** Lines 236-312: the capture of every optimized function. *)
Definition captureAll (fuel : nat) (environmentRecordIdAfterGlobalCode : nat) : M unit :=
  additionalFunctionsToProcess <- _generateOptimizedFunctionsFromRealm ;;
  modify (set_additionalFunctionStack []) ;;
  modify (set_additionalFunctions
            (JSSet.ofList FunctionValue_eq_dec (map value additionalFunctionsToProcess))) ;;
  forEach additionalFunctionsToProcess (fun funcObject =>
    _withEmptyOptimizedFunctionList funcObject
      (recordWriteEffectsForOptimizedFunctionAndNestedFunctions fuel
         environmentRecordIdAfterGlobalCode)) ;;
  st <- gets additionalFunctionStack ;;
  invariant (Nat.eqb (List.length st) 0).

(** *** [checkThatFunctionsAreIndependent]: verification *)

(** [a || b] on strings that may be undefined. *)
Definition orElse (a : option string) (b : string) : string :=
  match a with
  | Some s => if (s =? "")%string then b else s
  | None => b
  end.

Definition nameOfFunction (fe : list (FunctionValue * string)) (fun1 : FunctionValue)
  : string :=
  orElse (JSMap.get FunctionValue_eq_dec fe fun1)
         (orElse (intrinsicName fun1) "(unknown function)").

(** The operands and classes of the test of line 324.  [!] yields a boolean,
    and a boolean is an instance of no class. *)
Inductive JSClass := ClassCompletion | ClassPossiblyNormalCompletion.

Inductive Operand :=
| OperandResult (r : EvaluationResult)
| OperandBoolean (b : bool).

Definition instanceof (x : Operand) (c : JSClass) : bool :=
  match x with
  | OperandBoolean _ => false
  | OperandResult (NormalResult _) => false
  | OperandResult (AbruptCompletion _) =>
      match c with ClassCompletion => true | ClassPossiblyNormalCompletion => false end
  | OperandResult (PossiblyNormalCompletion _) => true
  end.

(** Every evaluation result is an object, hence truthy. *)
Definition logicalNot (x : Operand) : Operand :=
  match x with
  | OperandResult _ => OperandBoolean false
  | OperandBoolean b => OperandBoolean (negb b)
  end.

(** [e1.result instanceof Completion && !e1.result instanceof PossiblyNormalCompletion],
    in which [!] binds tighter than [instanceof]. *)
Definition mayTerminateAbruptly (r : EvaluationResult) : bool :=
  instanceof (OperandResult r) ClassCompletion
  && instanceof (logicalNot (OperandResult r)) ClassPossiblyNormalCompletion.

Definition PP1002 (fun1Name : string) (r : EvaluationResult) : CompilerDiagnostic :=
  {| message := "Additional function " ++ fun1Name ++ " may terminate abruptly";
     location := resultLocation r;
     errorCode := "PP1002";
     severity := FatalSeverity |}.

(** The closure [reportFn] of lines 337-340. *)
Definition reportFn (fun1Name : string) (e1 : Effects) (fun2 : FunctionValue) : M unit :=
  call2 <- _callOfFunction fun2 None ;;
  reportWriteConflicts fun1Name (modifiedProperties e1) call2.

(** The body of the inner loop, lines 335-349. *)
Definition checkPair (fun1Name : string) (e1 : Effects) (fun1 fun2 : FunctionValue)
  : M unit :=
  if FunctionValue_eq_dec fun1 fun2 then ret tt
  else
    we <- gets writeEffects ;;
    match JSMap.get FunctionValue_eq_dec we fun2 with
    | None => throw InvariantViolation
    | Some fun2Effects =>
        match parentAdditionalFunction fun2Effects with
        | Some parent =>
            match JSMap.get FunctionValue_eq_dec we parent with
            | None => throw InvariantViolation
            | Some parentEffects =>
                withEffectsAppliedInGlobalEnv (reportFn fun1Name e1 fun2)
                  (effects parentEffects)
            end
        | None => reportFn fun1Name e1 fun2
        end
    end.

Section Verification.

(** The loops are stated for any test of a result in the place of the one of
    line 324, so that where the test sits can be told apart from what it
    computes; [checkThatFunctionsAreIndependent] runs them with
    [mayTerminateAbruptly]. *)
Variable abruptTest : EvaluationResult -> bool.

(** The body of the outer loop, lines 317-350. *)
Definition checkFunction (fun1 : FunctionValue) : M unit :=
  fe <- gets functionExpressions ;;
  let fun1Name := nameOfFunction fe fun1 in
  we <- gets writeEffects ;;
  match JSMap.get FunctionValue_eq_dec we fun1 with
  | None => throw InvariantViolation
  | Some additionalFunctionEffects =>
      let e1 := effects additionalFunctionEffects in
      (if abruptTest (result e1) then
         handleError (PP1002 fun1Name (result e1)) ;;
         throw (FatalError None)
       else ret tt) ;;
      fs <- gets additionalFunctions ;;
      forEach fs (checkPair fun1Name e1 fun1)
  end.

(** Lines 315-351. *)
Definition independenceLoop : M unit :=
  modify (set_conflicts []) ;;
  fs <- gets additionalFunctions ;;
  forEach fs checkFunction.

(** Lines 352-355. *)
Definition reportConflicts : M unit :=
  c <- gets conflicts ;;
  if Nat.ltb 0 (List.length c) then
    forEach (JSMap.values c) (fun diagnostic => handleError diagnostic ;; ret tt) ;;
    throw (FatalError None)
  else ret tt.

Definition verifyIndependence : M unit :=
  independenceLoop ;; reportConflicts.

End Verification.

Definition checkThatFunctionsAreIndependent (fuel : nat)
    (environmentRecordIdAfterGlobalCode : nat) : M unit :=
  captureAll fuel environmentRecordIdAfterGlobalCode ;;
  verifyIndependence mayTerminateAbruptly.

End Serializer.
End Functions.

(** * Vocabulary of the statements *)

(** The function a registered value stands for, when there is one. *)
Definition registeredFunction (v : Value) : option FunctionValue :=
  match v with
  | Concrete (ObjectV (FunctionObject f)) => Some f
  | AbstractValue _ (Some elements) =>
      match filter (fun element => negb (Functions.isEmptyOrUndefined element))
              elements with
      | [ObjectV (FunctionObject f)] => Some f
      | _ => None
      end
  | _ => None
  end.

Definition entriesOf (l : list (Value * option ArgModel)) : list AdditionalFunctionEntry :=
  flat_map (fun vm => match registeredFunction (fst vm) with
                      | Some f => [{| value := f; argModel := snd vm |}]
                      | None => []
                      end) l.

Definition validEntry (rt : Interpreter) (applied : list Effects)
    (e : AdditionalFunctionEntry) : bool :=
  isValid rt applied (value e).

Definition invalidEntry (rt : Interpreter) (applied : list Effects)
    (e : AdditionalFunctionEntry) : bool :=
  negb (isValid rt applied (value e)).

(** The reports of PP1008 for the invalid entries of a list, in order. *)
Definition invalidReports (rt : Interpreter) (applied : list Effects)
    (l : list (Value * option ArgModel)) : list Event :=
  map (fun e => EvHandleError (Functions.PP1008 (value e)))
      (filter (invalidEntry rt applied) (entriesOf l)).

Definition addTrace (evs : list Event) (s : State) : State :=
  set_trace (trace s ++ evs) s.

(** The state a callback of [_withEmptyOptimizedFunctionList] starts from, the
    merge of the saved registrations into the current ones, and the state the
    caller gets back when the callback has returned. *)
Definition beforeCallback (entry : AdditionalFunctionEntry) (s : State) : State :=
  addTrace
    (map (fun t1 => EvBeginOptimizingFunction t1 (optimizedFunctionId s) (value entry))
         (tracers s))
    (set_optimizedFunctionId (S (optimizedFunctionId s)) (set_optimizedFunctions [] s)).

Definition mergeBack (old current : list (Value * option ArgModel))
  : list (Value * option ArgModel) :=
  fold_left (fun m om => JSMap.set Value_eq_dec m (fst om) (snd om)) old current.

Definition afterCallback (old : list (Value * option ArgModel)) (id : nat) (s2 : State)
  : State :=
  set_optimizedFunctions (mergeBack old (optimizedFunctions s2))
    (addTrace (map (fun t2 => EvEndOptimizingFunction t2 id) (tracers s2)) s2).

(** A relation that holds between the state before and the state after a
    computation, whatever its outcome. *)
Definition stepwise {A} (R : State -> State -> Prop) (m : M A) : Prop :=
  forall s, R s (snd (m s)).

(** A computation that never stops on the recursion bound of the model. *)
Definition fueled {A} (m : M A) : Prop :=
  forall s, fst (m s) <> OutOfFuel.

(** The state in which [reportWriteConflicts] has installed its two closures. *)
Definition withConflictHooks (fname : string) (pbs : PropertyBindings) (s : State)
  : State :=
  set_reportPropertyAccess (ConflictOnPropertyAccess fname pbs)
    (set_reportObjectGetOwnProperties
       (ConflictOnGetOwnProperties fname (Functions.writtenObjectsOf pbs)) s).

(** A component of the state that a computation leaves as it was. *)
Definition keeps {B} (proj : State -> B) : State -> State -> Prop :=
  fun s s' => proj s' = proj s.

(** The trace grows by events that all satisfy [P]. *)
Definition extendsTrace (P : Event -> Prop) : State -> State -> Prop :=
  fun s s' => exists evs, trace s' = trace s ++ evs /\ Forall P evs.

(** The state of a capture once the function is on the stack. *)
Definition pushed (f : FunctionValue) (s : State) : State :=
  set_additionalFunctionStack (additionalFunctionStack s ++ [f]) s.

(** The tables that the verification reads. *)
Definition tables (s : State) :=
  (writeEffects s, functionExpressions s, additionalFunctions s).

(** The call synthesized for a function, when the synthesis returns one; it
    does not depend on the state. *)
Definition synthesizedCall (rt : Interpreter) (f : FunctionValue)
    (am : option ArgModel) : option Call :=
  match hasCall f, Functions.hasParametersToModel f with
  | false, _ => None
  | true, None =>
      Some {| callee := f;
              thisArg := Functions.createAbstractArgument "this"
                           (expressionLocation f) TypeObjectValue None;
              args := [] |}
  | true, Some params =>
      if forallb isIdentifier params then
        Some {| callee := f;
                thisArg := Functions.createAbstractArgument "this"
                             (expressionLocation f) TypeObjectValue None;
                args := map (fun p =>
                          match p with
                          | Identifier paramName =>
                              let shape := createForArgument rt am paramName in
                              Functions.createAbstractArgument paramName
                                (expressionLocation f)
                                (match shape with
                                 | Some sh => getAbstractType rt sh
                                 | None => TypeValue
                                 end) shape
                          | _ => Functions.createAbstractArgument "" None TypeValue None
                          end) params |}
      else None
  end.

(** The effects under which a function is replayed: those of its parent, when
    its record names one, on top of the ones that are applied. *)
Definition replayBaseline (we : list (FunctionValue * AdditionalFunctionEffects))
    (applied : list Effects) (fun2 : FunctionValue) : list Effects :=
  match JSMap.get FunctionValue_eq_dec we fun2 with
  | Some fun2Effects =>
      match parentAdditionalFunction fun2Effects with
      | Some parent =>
          match JSMap.get FunctionValue_eq_dec we parent with
          | Some parentEffects => effects parentEffects :: applied
          | None => applied
          end
      | None => applied
      end
  | None => applied
  end.

(** The events of a verification whose loops run to their end: one replay
    per ordered pair of distinct functions, in the order of the loops. *)
Definition pairEvents (rt : Interpreter)
    (we : list (FunctionValue * AdditionalFunctionEffects)) (applied : list Effects)
    (fun1 fun2 : FunctionValue) : list Event :=
  if FunctionValue_eq_dec fun1 fun2 then []
  else match synthesizedCall rt fun2 None with
       | Some call2 => [EvEvaluate false call2 (replayBaseline we applied fun2)]
       | None => []
       end.

Definition functionEvents (rt : Interpreter)
    (we : list (FunctionValue * AdditionalFunctionEffects)) (applied : list Effects)
    (fs : list FunctionValue) (fun1 : FunctionValue) : list Event :=
  flat_map (pairEvents rt we applied fun1) fs.

Definition loopEvents (rt : Interpreter)
    (we : list (FunctionValue * AdditionalFunctionEffects)) (applied : list Effects)
    (fs : list FunctionValue) (done : list FunctionValue) : list Event :=
  flat_map (functionEvents rt we applied fs) done.

(** No report of a write conflict. *)
Definition noConflictReport (ev : Event) : Prop :=
  match ev with
  | EvHandleError d => errorCode d <> "PP1003"
  | _ => True
  end.

(** The tables and the applied effects are the given ones. *)
Definition inContext (T : list (FunctionValue * AdditionalFunctionEffects)
                          * list (FunctionValue * string) * list FunctionValue)
    (applied : list Effects) (s : State) : Prop :=
  tables s = T /\ appliedEffects s = applied.

(** The conflict map grows: no key is entered twice, an entry stays as it was
    entered, and a new entry satisfies [Q]. *)
Definition conflictsGrow (Q : BabelNodeSourceLocation -> CompilerDiagnostic -> Prop)
    (s s' : State) : Prop :=
  (NoDup (JSMap.keys (conflicts s)) -> NoDup (JSMap.keys (conflicts s')))
  /\ (forall L d, JSMap.get Nat.eq_dec (conflicts s) L = Some d ->
                  JSMap.get Nat.eq_dec (conflicts s') L = Some d)
  /\ (forall L d, JSMap.get Nat.eq_dec (conflicts s') L = Some d ->
                  JSMap.get Nat.eq_dec (conflicts s) L = Some d \/ Q L d).

(** The closures of a replay against the write set [pbs] of the function
    named [n] are the installed hooks. *)
Definition hooksAre (n : string) (pbs : PropertyBindings) (s : State) : Prop :=
  reportPropertyAccess s = ConflictOnPropertyAccess n pbs
  /\ reportObjectGetOwnProperties s
     = ConflictOnGetOwnProperties n (Functions.writtenObjectsOf pbs).

(** What section 9 of the specification takes the test of line 324 to mean:
    the result is a completion and not a possibly normal one.  The code does
    not run this test; it is the reading of "definite abrupt completion" that
    the code is compared with. *)
Definition definiteAbrupt (r : EvaluationResult) : bool :=
  Functions.instanceof (Functions.OperandResult r) Functions.ClassCompletion
  && negb (Functions.instanceof (Functions.OperandResult r)
             Functions.ClassPossiblyNormalCompletion).

(** An enumeration at which the realm has no current location. *)
Definition enumerationWithoutLocation (st : EvalStep) : Prop :=
  match st with
  | GetOwnProperties _ None => True
  | _ => False
  end.

Definition locationless (st : EvalStep) : bool :=
  match st with
  | GetOwnProperties _ None => true
  | _ => false
  end.

(** The error by which the replay of an evaluation ends, the closures of
    [reportWriteConflicts] being the hooks: the violated invariant of the
    first enumeration without a location, and else the error of the
    evaluation itself, when it has one. *)
Definition replayError (ev : Evaluation) : option Error :=
  if existsb locationless (steps ev) then Some InvariantViolation
  else match final ev with
       | inl _ => None
       | inr e => Some e
       end.

(** What [ignoreErrorsIn] makes of the end of its thunk, the value apart. *)
Definition afterIgnoring (rt : Interpreter) {A} (o : Outcome A) : Outcome unit :=
  match o with
  | Returned _ => Returned tt
  | Threw e => if ignoresError rt e then Returned tt else Threw e
  | OutOfFuel => OutOfFuel
  end.

(** What the caller of [reportWriteConflicts] gets at the end of that replay. *)
Definition replayOutcome (rt : Interpreter) (ev : Evaluation) : Outcome unit :=
  match replayError ev with
  | None => Returned tt
  | Some e => if ignoresError rt e then Returned tt else Threw e
  end.

(** The diagnostics that reached the error handler and the functions that
    were replayed, as a trace has them, in order. *)
Definition reports (tr : list Event) : list CompilerDiagnostic :=
  flat_map (fun ev => match ev with EvHandleError d => [d] | _ => [] end) tr.

Definition replayed (tr : list Event) : list FunctionValue :=
  flat_map (fun ev => match ev with
                      | EvEvaluate false c _ => [callee c]
                      | _ => []
                      end) tr.

Definition captures (tr : list Event) : list (FunctionValue * list Effects) :=
  flat_map (fun ev => match ev with
                      | EvEvaluate true c baseline => [(callee c, baseline)]
                      | _ => []
                      end) tr.

(** * Scenarios *)

Module Scenario.

Definition sourceFunction (addr : nat) (len : Z) (params : list BabelNodeLVal)
  : FunctionValue :=
  {| address := addr; hasCall := true; getLength := Some len;
     FormalParameters := Some params; expressionLocation := Some addr;
     intrinsicName := None |}.

Definition asValue (f : FunctionValue) : Value := Concrete (ObjectV (FunctionObject f)).

Definition emptyState : State :=
  {| optimizedFunctions := []; reportPropertyAccess := NoPropertyAccessHook;
     reportObjectGetOwnProperties := NoGetOwnPropertiesHook;
     tracers := []; appliedEffects := [];
     writeEffects := []; functionExpressions := []; optimizedFunctionId := 0;
     additionalFunctionStack := []; additionalFunctions := [];
     conflicts := []; trace := [] |}.

(** The state in which the functions of [l] have been passed to [__optimize]. *)
Definition registered (l : list FunctionValue) : State :=
  set_optimizedFunctions (map (fun f => (asValue f, None)) l) emptyState.

Definition noEffects : Effects :=
  {| result := NormalResult (Concrete UndefinedValue);
     modifiedProperties := []; createdObjects := [] |}.

(** [ignoreErrorsIn] as it is in the repository: it ignores the fatal errors
    and lets every other error through. *)
Definition fatalErrorsOnly (e : Error) : bool :=
  match e with
  | FatalError _ => true
  | _ => false
  end.

(** An interpreter given by its handler, by the functions that are valid and
    by what the evaluation of the function at each address does. *)
Definition interpreterOf (handler : CompilerDiagnostic -> ErrorHandlerResult)
    (valid : list Effects -> FunctionValue -> bool)
    (eval : nat -> list Effects -> Evaluation) : Interpreter :=
  {| errorHandler := handler;
     evaluate := fun c baseline => eval (address (callee c)) baseline;
     isValid := valid;
     createForArgument := fun _ _ => None;
     getAbstractType := fun _ => TypeValue;
     refuseSerializationOnPropertyBinding := fun _ => false;
     ignoresError := fatalErrorsOnly |}.

Definition quiet : Evaluation := {| steps := []; final := inl noEffects |}.

(** [function f() {}] and [function g() {}]; [g] is no longer valid. *)
Definition f : FunctionValue := sourceFunction 1 0 [].
Definition g : FunctionValue := sourceFunction 2 0 [].
Definition onlyF (_ : list Effects) (h : FunctionValue) : bool := Nat.eqb (address h) 1.

Definition recovering : Interpreter :=
  interpreterOf (fun _ => Recover) onlyF (fun _ _ => quiet).
Definition failing : Interpreter :=
  interpreterOf (fun _ => Fail) onlyF (fun _ _ => quiet).

(** A function written [function (...rest) {}] whose [length] has been
    redefined to 0 (the interpreter gives the function as written the length
    1), and [function ({a}) {}], of length 1. *)
Definition restOnly : FunctionValue := sourceFunction 4 0 [RestElement].
Definition destructuring : FunctionValue := sourceFunction 5 1 [ObjectPattern].

Definition plain : Interpreter :=
  interpreterOf (fun _ => Fail) (fun _ _ => true) (fun _ _ => quiet).

End Scenario.

Module Nested.
Import Scenario.

(** [F] writes [obj.y], creates [H] and passes both the global function [G]
    and [H] to [__optimize]; [H] reads [obj.y] at location 30; [G] does
    nothing.  [H] exists only where the effects of [F] are applied. *)
Definition F : FunctionValue := sourceFunction 1 0 [].
Definition G : FunctionValue := sourceFunction 2 0 [].
Definition H : FunctionValue := sourceFunction 3 0 [].

Definition objY : PropertyBinding :=
  {| pbObject := ConcreteObject (OrdinaryObject 10); pbKey := "y" |}.

Definition effectsOfF : Effects :=
  {| result := NormalResult (Concrete UndefinedValue);
     modifiedProperties := [objY];
     createdObjects := [FunctionObject H] |}.

Definition eval (addr : nat) (baseline : list Effects) : Evaluation :=
  match addr with
  | 1 => {| steps := [Register (asValue G) None; Register (asValue H) None];
            final := inl effectsOfF |}
  | 3 => {| steps := [PropertyAccess objY (Some 30)]; final := inl noEffects |}
  | _ => quiet
  end.

Definition valid (baseline : list Effects) (h : FunctionValue) : bool :=
  match address h with
  | 3 => match baseline with [] => false | _ :: _ => true end
  | _ => true
  end.

Definition interpreter : Interpreter := interpreterOf (fun _ => Fail) valid eval.

Definition named (s : State) : State :=
  {| optimizedFunctions := optimizedFunctions s;
     reportPropertyAccess := reportPropertyAccess s;
     reportObjectGetOwnProperties := reportObjectGetOwnProperties s;
     tracers := tracers s; appliedEffects := appliedEffects s;
     writeEffects := writeEffects s;
     functionExpressions := [(F, "F"); (G, "G"); (H, "H")];
     optimizedFunctionId := optimizedFunctionId s;
     additionalFunctionStack := additionalFunctionStack s;
     additionalFunctions := additionalFunctions s;
     conflicts := conflicts s; trace := trace s |}.

Definition callOf (h : FunctionValue) : Call :=
  {| callee := h;
     thisArg := Functions.createAbstractArgument "this" (expressionLocation h)
                  TypeObjectValue None;
     args := [] |}.

Definition captured (roots : list FunctionValue) : State :=
  snd (Functions.captureAll interpreter 5 0 (named (registered roots))).

End Nested.

Module Writers.
Import Scenario.

(** [A1] and [A2] both write [obj.x]; [A1] ends by an unconditional throw;
    [B] reads [obj.x] twice at location 40. *)
Definition A1 : FunctionValue := sourceFunction 1 0 [].
Definition A2 : FunctionValue := sourceFunction 2 0 [].
Definition B : FunctionValue := sourceFunction 3 0 [].

Definition objX : PropertyBinding :=
  {| pbObject := ConcreteObject (OrdinaryObject 10); pbKey := "x" |}.

Definition throwing : Effects :=
  {| result := AbruptCompletion (Some 11);
     modifiedProperties := [objX]; createdObjects := [] |}.

Definition writing : Effects :=
  {| result := NormalResult (Concrete UndefinedValue);
     modifiedProperties := [objX]; createdObjects := [] |}.

Definition eval (addr : nat) (baseline : list Effects) : Evaluation :=
  match addr with
  | 1 => {| steps := []; final := inl throwing |}
  | 2 => {| steps := []; final := inl writing |}
  | 3 => {| steps := [PropertyAccess objX (Some 40); PropertyAccess objX (Some 40)];
            final := inl noEffects |}
  | _ => quiet
  end.

Definition interpreter : Interpreter :=
  interpreterOf (fun _ => Fail) (fun _ _ => true) eval.

Definition named (s : State) : State :=
  {| optimizedFunctions := optimizedFunctions s;
     reportPropertyAccess := reportPropertyAccess s;
     reportObjectGetOwnProperties := reportObjectGetOwnProperties s;
     tracers := tracers s; appliedEffects := appliedEffects s;
     writeEffects := writeEffects s;
     functionExpressions := [(A1, "A1"); (A2, "A2"); (B, "B")];
     optimizedFunctionId := optimizedFunctionId s;
     additionalFunctionStack := additionalFunctionStack s;
     additionalFunctions := additionalFunctions s;
     conflicts := conflicts s; trace := trace s |}.

Definition callOf (h : FunctionValue) : Call := Nested.callOf h.

(** The state once the functions of [roots], registered in that order, have
    been captured. *)
Definition captured (roots : list FunctionValue) : State :=
  snd (Functions.captureAll interpreter 5 0 (named (registered roots))).

End Writers.


(** A computation that leaves the stack of functions being processed as it
    found it when it returns, and that has only added to it otherwise. *)
Definition balanced {A} (m : M A) : Prop :=
  forall s,
    match fst (m s) with
    | Returned _ => additionalFunctionStack (snd (m s)) = additionalFunctionStack s
    | _ => exists rest,
             additionalFunctionStack (snd (m s)) = additionalFunctionStack s ++ rest
    end.

(** A relation between the state before and the state after the runs of a
    computation that return. *)
Definition onReturn {A} (R : State -> State -> Prop) (m : M A) : Prop :=
  forall s a s', m s = (Returned a, s') -> R s s'.


(** A table of write effects in which every function synthesizes a call and
    every parent that a record names has a record of its own. *)
Definition wellFormedTable (rt : Interpreter)
    (we : list (FunctionValue * AdditionalFunctionEffects)) : Prop :=
  forall f r, In (f, r) we ->
    synthesizedCall rt f None <> None
    /\ forall p, parentAdditionalFunction r = Some p ->
                 JSMap.has FunctionValue_eq_dec we p = true.

(** Every function of the candidate set has a record. *)
Definition covered (s : State) : Prop :=
  forall g, In g (additionalFunctions s) ->
            JSMap.has FunctionValue_eq_dec (writeEffects s) g = true.

(** The table keeps its keys and stays well formed. *)
Definition tableGrows (rt : Interpreter) (s s' : State) : Prop :=
  (wellFormedTable rt (writeEffects s) -> wellFormedTable rt (writeEffects s'))
  /\ (forall g, JSMap.has FunctionValue_eq_dec (writeEffects s) g = true ->
                JSMap.has FunctionValue_eq_dec (writeEffects s') g = true).

(** The table keeps its keys, and the functions that have joined the candidate
    set have a record. *)
Definition candidatesCaptured (s s' : State) : Prop :=
  (forall g, JSMap.has FunctionValue_eq_dec (writeEffects s) g = true ->
             JSMap.has FunctionValue_eq_dec (writeEffects s') g = true)
  /\ (forall g, In g (additionalFunctions s') ->
                In g (additionalFunctions s)
                \/ JSMap.has FunctionValue_eq_dec (writeEffects s') g = true).


(** The candidate set stays free of repetitions. *)
Definition candidatesDistinct (s s' : State) : Prop :=
  NoDup (additionalFunctions s) -> NoDup (additionalFunctions s').


(** A step of a replay that the closures of [reportWriteConflicts] take for a
    conflict with the write set [pbs]: a read, at a location, of a binding of
    the write set that is not refused, or an enumeration, at a location, of an
    object of which the write set has a binding. *)
Definition hits (rt : Interpreter) (pbs : PropertyBindings) (st : EvalStep) : bool :=
  match st with
  | PropertyAccess pb (Some _) =>
      negb (refuseSerializationOnPropertyBinding rt pb)
      && JSSet.has PropertyBinding_eq_dec pbs pb
  | GetOwnProperties ob (Some _) =>
      JSSet.has ObjectRef_eq_dec (Functions.writtenObjectsOf pbs) (ConcreteObject ob)
  | _ => false
  end.




(** The two interception hooks of the realm. *)
Definition hooks (s : State) :=
  (reportPropertyAccess s, reportObjectGetOwnProperties s).



Module Enumerating.
Import Scenario.

(** [W] writes [obj.x]; [E] enumerates the own properties of [obj] at
    location 50; [N] reads [other.z] at location 60 and enumerates the own
    properties of [other] at location 61. *)
Definition W : FunctionValue := sourceFunction 1 0 [].
Definition E : FunctionValue := sourceFunction 2 0 [].
Definition N : FunctionValue := sourceFunction 3 0 [].

Definition objX : PropertyBinding :=
  {| pbObject := ConcreteObject (OrdinaryObject 10); pbKey := "x" |}.

Definition otherZ : PropertyBinding :=
  {| pbObject := ConcreteObject (OrdinaryObject 11); pbKey := "z" |}.

Definition writing : Effects :=
  {| result := NormalResult (Concrete UndefinedValue);
     modifiedProperties := [objX]; createdObjects := [] |}.

Definition eval (addr : nat) (baseline : list Effects) : Evaluation :=
  match addr with
  | 1 => {| steps := []; final := inl writing |}
  | 2 => {| steps := [GetOwnProperties (OrdinaryObject 10) (Some 50)];
            final := inl noEffects |}
  | 3 => {| steps := [PropertyAccess otherZ (Some 60);
                      GetOwnProperties (OrdinaryObject 11) (Some 61)];
            final := inl noEffects |}
  | _ => quiet
  end.

Definition interpreter : Interpreter :=
  interpreterOf (fun _ => Fail) (fun _ _ => true) eval.

(** The state once the functions of [roots], registered in that order, have
    been captured. *)
Definition captured (roots : list FunctionValue) : State :=
  snd (Functions.captureAll interpreter 5 0 (registered roots)).

(** [function (a, b) {}] *)
Definition twoParameters : FunctionValue :=
  sourceFunction 6 2 [Identifier "a"; Identifier "b"].

(** The value of [cond ? W : E] where [cond] is not known. *)
Definition either : Value :=
  AbstractValue 7 (Some [ObjectV (FunctionObject W); ObjectV (FunctionObject E)]).

End Enumerating.

Module Unlocated.
Import Scenario.

(** [W] writes [obj.x]; [U] enumerates the own properties of [obj] at a point
    of its evaluation where the realm has no current location. *)
Definition W : FunctionValue := sourceFunction 1 0 [].
Definition U : FunctionValue := sourceFunction 2 0 [].

Definition objX : PropertyBinding :=
  {| pbObject := ConcreteObject (OrdinaryObject 10); pbKey := "x" |}.

Definition writing : Effects :=
  {| result := NormalResult (Concrete UndefinedValue);
     modifiedProperties := [objX]; createdObjects := [] |}.

Definition eval (addr : nat) (baseline : list Effects) : Evaluation :=
  match addr with
  | 1 => {| steps := []; final := inl writing |}
  | 2 => {| steps := [GetOwnProperties (OrdinaryObject 10) None];
            final := inl noEffects |}
  | _ => quiet
  end.

Definition interpreter : Interpreter :=
  interpreterOf (fun _ => Fail) (fun _ _ => true) eval.

Definition callOf (h : FunctionValue) : Call := Nested.callOf h.

(** The state once the functions of [roots], registered in that order, have
    been captured. *)
Definition captured (roots : list FunctionValue) : State :=
  snd (Functions.captureAll interpreter 5 0 (registered roots)).

End Unlocated.



(** * Serialization of React elements (src/serializer/ResidualReactElementSerializer.js)

    The parts of the class that build Babel nodes from a [ReactElement] whose
    expressions have been serialized, and the hoisting of elements into a
    lazily called factory function.  The residual heap serializer, its
    emitter and its name generators are outside the file: the statements
    handed to [emitter.emit] are recorded in order, and the names that
    [functionNameGenerator.generate] returns are given by a function of the
    number of names generated before. *)

Module ResidualReactElementSerializer.

(** The Babel nodes that the file builds, under the names of the builders of
    babel-types.  [serialized] stands for an expression that comes from the
    residual heap serializer, and [commented] for a node whose
    [leadingComments] have been set to block comments. *)
#[warnings="-register-all"] Inductive BabelNode :=
| serialized (n : nat)
| identifier (name : string)
| stringLiteral (value : string)
| numericLiteral (value : Z)
| nullLiteral
| spreadProperty (argument : BabelNode)
| objectProperty (key value : BabelNode)
| objectExpression (properties : list BabelNode)
| callExpression (callee : BabelNode) (arguments : list BabelNode)
| unaryExpression (operator : string) (argument : BabelNode) (prefix : bool)
| binaryExpression (operator : string) (left right : BabelNode)
| logicalExpression (operator : string) (left right : BabelNode)
| assignmentExpression (operator : string) (left right : BabelNode)
| expressionStatement (expression : BabelNode)
| blockStatement (body : list BabelNode)
| functionExpression (id : option BabelNode) (params : list BabelNode) (body : BabelNode)
| variableDeclarator (id : BabelNode) (init : option BabelNode)
| variableDeclaration (kind : string) (declarations : list BabelNode)
| commented (leadingComments : list string) (node : BabelNode).

Inductive ReactElementAttributeType := SPREAD | PROPERTY | PENDING.
Inductive ReactElementChildType := NORMAL | PENDING_CHILD.

(** The fields [expr] and [type] of a child are [child_expr] and
    [child_type], the field [type] of an element is [element_type]. *)
Record ReactElementChild := {
  child_expr : option BabelNode;
  child_type : ReactElementChildType
}.

Record ReactElementAttribute := {
  expr : option BabelNode;
  key : option string;
  type : ReactElementAttributeType
}.

Record ReactElement := {
  attributes : list ReactElementAttribute;
  children : list ReactElementChild;
  declared : bool;
  element_type : option BabelNode;
  value : ObjectValue
}.

(** [LazilyHoistedNodes] of serializer/types.js, as the file fills it. *)
Record HoistedNode := {
  node_id : BabelNode;
  astNode : BabelNode
}.

Record LazilyHoistedNodes := {
  id : BabelNode;
  createElementIdentifier : option BabelNode;
  nodes : list HoistedNode
}.

(** The fields of the serializer that the hoisting reads and writes. *)
Record Serializer := {
  _lazilyHoistedNodes : option LazilyHoistedNodes;
  emitted : list BabelNode;                (* the calls of emitter.emit *)
  generatedFunctionNames : nat             (* the calls of functionNameGenerator.generate *)
}.

(** The builders of babel-types check their operands: a builder that is
    given [undefined] where it expects a node throws a [TypeError].  The
    fields that the file casts to [BabelNodeExpression] may still be
    [undefined]. *)
Definition operand (x : option BabelNode) : Outcome BabelNode :=
  match x with
  | Some e => Returned e
  | None => Threw TypeError
  end.

Definition andThen {A B} (o : Outcome A) (k : A -> Outcome B) : Outcome B :=
  match o with
  | Returned a => k a
  | Threw e => Threw e
  | OutOfFuel => OutOfFuel
  end.

Fixpoint operands (l : list (option BabelNode)) : Outcome (list BabelNode) :=
  match l with
  | [] => Returned []
  | x :: l' =>
      andThen (operand x) (fun e =>
      andThen (operands l') (fun es => Returned (e :: es)))
  end.

(** [t.spreadProperty], [t.objectProperty] and [t.callExpression], with
    their checks. *)
Definition t_spreadProperty (argument : option BabelNode) : Outcome BabelNode :=
  andThen (operand argument) (fun e => Returned (spreadProperty e)).

Definition t_objectProperty (key : BabelNode) (value : option BabelNode)
  : Outcome BabelNode :=
  andThen (operand value) (fun e => Returned (objectProperty key e)).

Definition t_callExpression (callee : BabelNode) (arguments : list (option BabelNode))
  : Outcome BabelNode :=
  andThen (operands arguments) (fun es => Returned (callExpression callee es)).

(** [s.includes(sub)] *)
Definition includes (s sub : string) : bool :=
  match String.index 0 sub s with
  | Some _ => true
  | None => false
  end.

Section Serializer.

(** [val.$BailOutReason] *)
Variable BailOutReason : ObjectValue -> option string.

(** [functionNameGenerator.generate()] *)
Variable generate : nat -> string.

Definition _addBailOutMessageToBabelNode (val : ObjectValue) (node : BabelNode)
  : BabelNode :=
  match BailOutReason val with
  | Some reason => commented [reason] node
  | None => node
  end.

(** The loop of [_serializeReactElementToCreateElement] over the attributes. *)
Fixpoint attributesLoop (attributes : list ReactElementAttribute)
    (astAttributes : list BabelNode) : Outcome (list BabelNode) :=
  match attributes with
  | [] => Returned astAttributes
  | attribute :: rest =>
      let expr := expr attribute in
      match type attribute with
      | SPREAD =>
          andThen (t_spreadProperty expr) (fun node =>
          attributesLoop rest (astAttributes ++ [node]))
      | PROPERTY =>
          match key attribute with
          | None => Threw InvariantViolation
          | Some attributeKey =>
              let key := if includes attributeKey "-" then stringLiteral attributeKey
                         else identifier attributeKey in
              andThen (t_objectProperty key expr) (fun node =>
              attributesLoop rest (astAttributes ++ [node]))
          end
      | PENDING => attributesLoop rest astAttributes
      end
  end.

(** The loop over the children; an expression that is still [undefined] is
    pushed as it is. *)
Fixpoint childrenLoop (children : list ReactElementChild)
    (astChildren : list (option BabelNode)) : list (option BabelNode) :=
  match children with
  | [] => astChildren
  | child :: rest =>
      let expr := child_expr child in
      match child_type child with
      | NORMAL => childrenLoop rest (astChildren ++ [expr])
      | PENDING_CHILD => childrenLoop rest astChildren
      end
  end.

Definition _serializeReactElementToCreateElement (val : ObjectValue)
    (reactElement : ReactElement) (createElementIdentifier : BabelNode)
  : Outcome BabelNode :=
  let createElementArguments := [element_type reactElement] in
  andThen
    (if negb (Nat.eqb (List.length (attributes reactElement)) 0) then
       andThen (attributesLoop (attributes reactElement) []) (fun astAttributes =>
       Returned (createElementArguments ++ [Some (objectExpression astAttributes)]))
     else Returned createElementArguments)
    (fun createElementArguments =>
       let createElementArguments :=
         if negb (Nat.eqb (List.length (children reactElement)) 0) then
           (if Nat.eqb (List.length (attributes reactElement)) 0
            then createElementArguments ++ [Some nullLiteral]
            else createElementArguments)
           ++ childrenLoop (children reactElement) []
         else createElementArguments in
       andThen (t_callExpression createElementIdentifier createElementArguments)
         (fun createElementCall =>
       Returned (_addBailOutMessageToBabelNode val createElementCall))).

Definition set_lazilyHoistedNodes (l : option LazilyHoistedNodes) (s : Serializer)
  : Serializer :=
  {| _lazilyHoistedNodes := l; emitted := emitted s;
     generatedFunctionNames := generatedFunctionNames s |}.

Definition _emitHoistedReactElement (id reactElement : BabelNode)
    (hoistedCreateElementIdentifier originalCreateElementIdentifier : option BabelNode)
    (s : Serializer) : Outcome unit * Serializer :=
  let s1 :=
    match _lazilyHoistedNodes s with
    | None =>
        let funcId := identifier (generate (generatedFunctionNames s)) in
        let statement :=
          expressionStatement
            (logicalExpression "&&"
               (binaryExpression "===" id (unaryExpression "void" (numericLiteral 0) true))
               (callExpression funcId
                  (match originalCreateElementIdentifier with
                   | Some i => [i]
                   | None => []
                   end))) in
        {| _lazilyHoistedNodes :=
             Some {| id := funcId;
                     createElementIdentifier := hoistedCreateElementIdentifier;
                     nodes := [] |};
           emitted := emitted s ++ [statement];
           generatedFunctionNames := S (generatedFunctionNames s) |}
    | Some _ => s
    end in
  match _lazilyHoistedNodes s1 with
  | None => (Threw InvariantViolation, s1)
  | Some l =>
      (Returned tt,
       set_lazilyHoistedNodes
         (Some {| id := ResidualReactElementSerializer.id l;
                  createElementIdentifier := createElementIdentifier l;
                  nodes := nodes l ++ [{| node_id := id; astNode := reactElement |}] |})
         s1)
  end.

Definition serializeLazyHoistedNodes (s : Serializer) : list BabelNode * Serializer :=
  match _lazilyHoistedNodes s with
  | Some l =>
      let func :=
        functionExpression None
          (match createElementIdentifier l with
           | Some i => [i]
           | None => []
           end)
          (blockStatement
             (map (fun node =>
                     expressionStatement
                       (assignmentExpression "=" (node_id node) (astNode node)))
                  (nodes l))) in
      ([variableDeclaration "var" [variableDeclarator (id l) (Some func)]]
       ++ map (fun node => variableDeclaration "var" [variableDeclarator (node_id node) None])
              (nodes l),
       set_lazilyHoistedNodes None s)
  | None => ([], s)
  end.

End Serializer.

(** ** Vocabulary of the statements *)

(** The expressions of the children that have been serialized, in order. *)
Definition serializedChildren (children : list ReactElementChild) : list BabelNode :=
  flat_map (fun child => match child_type child, child_expr child with
                         | NORMAL, Some e => [e]
                         | _, _ => []
                         end) children.

(** An attribute or a child that the builders accept: unless it is pending
    it has its expression, and a property attribute has its key. *)
Definition attributeReady (attribute : ReactElementAttribute) : bool :=
  match type attribute, key attribute, expr attribute with
  | PENDING, _, _ => true
  | SPREAD, _, Some _ => true
  | PROPERTY, Some _, Some _ => true
  | _, _, _ => false
  end.

Definition childReady (child : ReactElementChild) : bool :=
  match child_type child, child_expr child with
  | NORMAL, None => false
  | _, _ => true
  end.

(** An element of which the type has been serialized and every attribute
    and child is ready. *)
Definition serializable (reactElement : ReactElement) : bool :=
  match element_type reactElement with
  | Some _ =>
      forallb attributeReady (attributes reactElement)
      && forallb childReady (children reactElement)
  | None => false
  end.

Definition pendingAttribute (attribute : ReactElementAttribute) : bool :=
  match type attribute with PENDING => true | _ => false end.

(** The element without its pending attributes and children. *)
Definition settled (reactElement : ReactElement) : ReactElement :=
  {| attributes := filter (fun a => negb (pendingAttribute a)) (attributes reactElement);
     children := filter (fun child => match child_type child with
                                      | NORMAL => true
                                      | PENDING_CHILD => false
                                      end) (children reactElement);
     declared := declared reactElement;
     element_type := element_type reactElement;
     value := value reactElement |}.

(** A call of [_emitHoistedReactElement]. *)
Record HoistCall := {
  call_id : BabelNode;
  call_node : BabelNode;
  call_hoisted : option BabelNode;
  call_original : option BabelNode
}.

(** The calls of a list, in order, as long as they return. *)
Fixpoint emitAll (generate : nat -> string) (calls : list HoistCall) (s : Serializer)
  : Outcome unit * Serializer :=
  match calls with
  | [] => (Returned tt, s)
  | c :: rest =>
      match _emitHoistedReactElement generate (call_id c) (call_node c)
              (call_hoisted c) (call_original c) s with
      | (Returned _, s1) => emitAll generate rest s1
      | failed => failed
      end
  end.

(** The statement that calls the factory function of a batch when the first
    hoisted element has not been initialized. *)
Definition factoryCall (funcId : BabelNode) (c : HoistCall) : BabelNode :=
  expressionStatement
    (logicalExpression "&&"
       (binaryExpression "===" (call_id c)
          (unaryExpression "void" (numericLiteral 0) true))
       (callExpression funcId
          (match call_original c with Some i => [i] | None => [] end))).

(** The declaration of the factory function of a batch. *)
Definition factoryDeclaration (funcId : BabelNode) (parameter : option BabelNode)
    (calls : list HoistCall) : BabelNode :=
  variableDeclaration "var"
    [variableDeclarator funcId
       (Some (functionExpression None
                (match parameter with Some i => [i] | None => [] end)
                (blockStatement
                   (map (fun c => expressionStatement
                                    (assignmentExpression "=" (call_id c) (call_node c)))
                        calls))))].

End ResidualReactElementSerializer.



Module Elements.
Import ResidualReactElementSerializer.

(** The element of [<div className="a" data-id={x} {...rest}>hello</div>]
    while one more attribute and one more child wait for their values. *)
Definition div : ReactElement :=
  {| attributes :=
       [{| expr := Some (stringLiteral "a"); key := Some "className"; type := PROPERTY |};
        {| expr := Some (serialized 1); key := Some "data-id"; type := PROPERTY |};
        {| expr := None; key := None; type := PENDING |};
        {| expr := Some (serialized 2); key := None; type := SPREAD |}];
     children :=
       [{| child_expr := Some (stringLiteral "hello"); child_type := NORMAL |};
        {| child_expr := None; child_type := PENDING_CHILD |}];
     declared := false;
     element_type := Some (stringLiteral "div");
     value := OrdinaryObject 20 |}.

(** An element with a property attribute of which the key was never set. *)
Definition keyless : ReactElement :=
  {| attributes := [{| expr := Some (serialized 1); key := None; type := PROPERTY |}];
     children := [];
     declared := false;
     element_type := Some (stringLiteral "div");
     value := OrdinaryObject 21 |}.

(** An element as [_createReactElement] makes it, before its type has been
    serialized. *)
Definition untyped : ReactElement :=
  {| attributes := [];
     children := [];
     declared := false;
     element_type := None;
     value := OrdinaryObject 22 |}.

(** The object at address 20 has bailed out. *)
Definition reasons (val : ObjectValue) : option string :=
  match val with
  | OrdinaryObject 20 => Some "Bail-out: refs are not supported"
  | _ => None
  end.

Definition createElement : BabelNode := identifier "_createElement".

Definition names (n : nat) : string :=
  match n with
  | 0 => "_$0"
  | _ => "_$1"
  end.

Definition fresh : Serializer :=
  {| _lazilyHoistedNodes := None; emitted := []; generatedFunctionNames := 0 |}.

(** Two elements hoisted from one additional function. *)
Definition first : HoistCall :=
  {| call_id := identifier "_1"; call_node := serialized 11;
     call_hoisted := Some (identifier "_$A"); call_original := Some createElement |}.

Definition second : HoistCall :=
  {| call_id := identifier "_2"; call_node := serialized 12;
     call_hoisted := Some (identifier "_$A"); call_original := Some createElement |}.

End Elements.



(** * Properties *)

Section Properties.

Variable rt : Interpreter.

Local Abbreviation handleError := (Functions.handleError rt).
Local Abbreviation generateLoop := (Functions.generateLoop rt).
Local Abbreviation _generateOptimizedFunctionsFromRealm :=
  (Functions._generateOptimizedFunctionsFromRealm rt).
Local Abbreviation argumentsLoop := (Functions.argumentsLoop rt).
Local Abbreviation _callOfFunction := (Functions._callOfFunction rt).
Local Abbreviation evaluateForEffectsInGlobalEnv := (Functions.evaluateForEffectsInGlobalEnv rt).
Local Abbreviation runStep := (Functions.runStep rt).
Local Abbreviation reportWriteConflicts := (Functions.reportWriteConflicts rt).
Local Abbreviation captureWriteEffects := (Functions.captureWriteEffects rt).
Local Abbreviation reportFn := (Functions.reportFn rt).
Local Abbreviation checkPair := (Functions.checkPair rt).
Local Abbreviation checkFunction := (Functions.checkFunction rt).
Local Abbreviation independenceLoop := (Functions.independenceLoop rt).
Local Abbreviation reportConflicts := (Functions.reportConflicts rt).
Local Abbreviation verifyIndependence := (Functions.verifyIndependence rt).

(** ** The monad *)

Lemma addTrace_nil (s : State) : addTrace [] s = s.
Proof. destruct s; unfold addTrace, set_trace; simpl; now rewrite app_nil_r. Qed.

Lemma addTrace_app (a b : list Event) (s : State) :
  addTrace b (addTrace a s) = addTrace (a ++ b) s.
Proof. unfold addTrace, set_trace; simpl; now rewrite app_assoc. Qed.

Lemma handleError_run (d : CompilerDiagnostic) (s : State) :
  handleError d s = (Returned (errorHandler rt d), addTrace [EvHandleError d] s).
Proof. reflexivity. Qed.

Lemma forEach_app {A} (l1 l2 : list A) (body : A -> M unit) (s : State) :
  forEach (l1 ++ l2) body s =
  match forEach l1 body s with
  | (Returned _, s1) => forEach l2 body s1
  | (Threw e, s1) => (Threw e, s1)
  | (OutOfFuel, s1) => (OutOfFuel, s1)
  end.
Proof.
  revert s; induction l1 as [|x l1 IH]; intros s; simpl.
  - reflexivity.
  - unfold bind. destruct (body x s) as [[[]|e|] s1]; auto.
Qed.

(** ** Generation of the candidate list *)

Lemma bind_ret {A B} (a : A) (k : A -> M B) : bind (ret a) k = k a.
Proof. reflexivity. Qed.

Lemma generateLoop_cons (v : Value) (m : option ArgModel)
    (rest : list (Value * option ArgModel)) (acc : list AdditionalFunctionEntry) :
  generateLoop ((v, m) :: rest) acc =
  match registeredFunction v with
  | None => throw InvariantViolation
  | Some f =>
      valid <- gets (fun s => isValid rt (appliedEffects s) f) ;;
      if negb valid then
        r <- handleError (Functions.PP1008 f) ;;
        match r with
        | Recover => generateLoop rest acc
        | Fail => throw (FatalError None)
        end
      else generateLoop rest (acc ++ [{| value := f; argModel := m |}])
  end.
Proof.
  cbn [Functions.generateLoop].
  destruct v as [c|id [elements|]]; cbn [registeredFunction Functions.unwrapIfAbstract].
  - destruct c as [| |k|[addr|f]]; reflexivity.
  - unfold Functions._unwrapAbstract, Functions.getElements.
    rewrite bind_ret. cbv beta.
    destruct (filter _ elements) as [|c [|c' l]]; try reflexivity.
    destruct c as [| |k|[addr|f]]; reflexivity.
  - reflexivity.
Qed.

Lemma generateLoop_prefix (pre post : list (Value * option ArgModel))
    (acc : list AdditionalFunctionEntry) (s : State) :
  (forall vm, In vm pre -> registeredFunction (fst vm) <> None) ->
  (forall e, In e (entriesOf pre) -> isValid rt (appliedEffects s) (value e) = false ->
             errorHandler rt (Functions.PP1008 (value e)) = Recover) ->
  generateLoop (pre ++ post) acc s =
  generateLoop post
    (acc ++ filter (validEntry rt (appliedEffects s)) (entriesOf pre))
    (addTrace (invalidReports rt (appliedEffects s) pre) s).
Proof.
  revert acc s; induction pre as [|[v m] pre IH]; intros acc s Hfun Hrec.
  - simpl. unfold invalidReports; simpl. now rewrite app_nil_r, addTrace_nil.
  - assert (Hv : registeredFunction v <> None) by (apply (Hfun (v, m)); now left).
    change ((((v, m) :: pre) ++ post)) with ((v, m) :: (pre ++ post)).
    rewrite generateLoop_cons.
    destruct (registeredFunction v) as [f|] eqn:Ef; [clear Hv|congruence].
    assert (Hent : entriesOf ((v, m) :: pre)
                   = {| value := f; argModel := m |} :: entriesOf pre).
    { unfold entriesOf at 1; simpl. now rewrite Ef. }
    unfold bind at 1, gets at 1.
    destruct (isValid rt (appliedEffects s) f) eqn:Ev; cbn [negb].
    + rewrite IH.
      * unfold invalidReports. rewrite Hent. simpl.
        unfold validEntry at 2, invalidEntry at 2. simpl. rewrite Ev. simpl.
        now rewrite <- app_assoc.
      * intros vm Hin; apply Hfun; now right.
      * intros e Hin; apply Hrec. rewrite Hent; now right.
    + unfold bind at 1. rewrite handleError_run.
      pose proof (Hrec {| value := f; argModel := m |}) as Hr. cbn [value] in Hr.
      rewrite Hr; [|rewrite Hent; now left|exact Ev].
      rewrite IH.
      * change (appliedEffects (addTrace [EvHandleError (Functions.PP1008 f)] s))
          with (appliedEffects s).
        unfold invalidReports. rewrite Hent.
        cbn [filter]. unfold validEntry at 2, invalidEntry at 2. cbn [value].
        rewrite Ev. cbn [negb map value]. rewrite addTrace_app. reflexivity.
      * intros vm Hin; apply Hfun; now right.
      * intros e Hin; apply Hrec. rewrite Hent; now right.
Qed.

(** C9: generation of the candidate list from [realm.optimizedFunctions], the
    registered values being functions.  As long as the handler answers
    Recover at every invalid function, the list that comes out holds the valid
    ones only and PP1008 has been reported once per invalid one, in order; at
    the first invalid function where the handler does not answer Recover, the
    generation stops by throwing a fatal error, that report being the last. *)
Theorem generate_excludes_invalid (s : State)
    (pre post : list (Value * option ArgModel)) :
  optimizedFunctions s = pre ++ post ->
  (forall vm, In vm pre -> registeredFunction (fst vm) <> None) ->
  (forall e, In e (entriesOf pre) ->
             isValid rt (appliedEffects s) (value e) = false ->
             errorHandler rt (Functions.PP1008 (value e)) = Recover) ->
  (post = [] ->
   _generateOptimizedFunctionsFromRealm s =
   (Returned (filter (validEntry rt (appliedEffects s)) (entriesOf pre)),
    addTrace (invalidReports rt (appliedEffects s) pre) s))
  /\
  (forall v m f rest,
     post = (v, m) :: rest ->
     registeredFunction v = Some f ->
     isValid rt (appliedEffects s) f = false ->
     errorHandler rt (Functions.PP1008 f) = Fail ->
     _generateOptimizedFunctionsFromRealm s =
     (Threw (FatalError None),
      addTrace (invalidReports rt (appliedEffects s) pre
                ++ [EvHandleError (Functions.PP1008 f)]) s)).
Proof.
  intros Hreg Hfun Hrec.
  unfold Functions._generateOptimizedFunctionsFromRealm, bind, gets.
  rewrite Hreg, (generateLoop_prefix pre post [] s Hfun Hrec).
  split.
  - intros ->. reflexivity.
  - intros v m f rest -> Hf Hinv Hfail.
    rewrite generateLoop_cons, Hf.
    unfold bind at 1, gets at 1.
    change (appliedEffects (addTrace (invalidReports rt (appliedEffects s) pre) s))
      with (appliedEffects s).
    rewrite Hinv. cbn [negb]. unfold bind at 1. rewrite handleError_run, Hfail.
    rewrite addTrace_app. reflexivity.
Qed.

(** ** Argument synthesis *)

Lemma argumentsLoop_non_identifier (funcValue : FunctionValue)
    (argModel : option ArgModel) (params : list BabelNodeLVal) :
  existsb (fun p => negb (isIdentifier p)) params = true ->
  forall args s,
    argumentsLoop funcValue argModel params args s =
    (Threw (FatalError (Some Functions.nonIdentifierMessage)),
     addTrace [EvHandleError (Functions.PP1005 funcValue)] s).
Proof.
  induction params as [|p params IH]; simpl; [discriminate|].
  intros H args s. destruct p; simpl in H; try reflexivity.
  apply IH, H.
Qed.

(** C7 (amended): when the function reports a positive length and has a formal
    parameter list, a parameter that is not an identifier makes the synthesis
    of the call throw the fatal error after PP1005 has been reported; the
    capture stops there, no evaluation having been asked of the interpreter.
    When the length is undefined or not positive, or there is no parameter
    list, the parameters are not looked at: the call is synthesized without
    arguments and nothing is reported. *)
Theorem non_identifier_parameter_is_fatal (env : nat) (funcValue : FunctionValue)
    (argModel : option ArgModel) (s : State) :
  hasCall funcValue = true ->
  (forall numArgs params,
     getLength funcValue = Some numArgs ->
     (0 < numArgs)%Z ->
     FormalParameters funcValue = Some params ->
     existsb (fun p => negb (isIdentifier p)) params = true ->
     _callOfFunction funcValue argModel s =
     (Threw (FatalError (Some Functions.nonIdentifierMessage)),
      addTrace [EvHandleError (Functions.PP1005 funcValue)] s)
     /\
     captureWriteEffects env funcValue argModel s =
     (Threw (FatalError (Some Functions.nonIdentifierMessage)),
      addTrace [EvHandleError (Functions.PP1005 funcValue)]
        (set_additionalFunctionStack (additionalFunctionStack s ++ [funcValue]) s)))
  /\
  ((getLength funcValue = None
    \/ (exists numArgs, getLength funcValue = Some numArgs /\ (numArgs <= 0)%Z)
    \/ FormalParameters funcValue = None) ->
   _callOfFunction funcValue argModel s =
   (Returned {| callee := funcValue;
                thisArg := Functions.createAbstractArgument "this"
                             (expressionLocation funcValue) TypeObjectValue None;
                args := [] |},
    s)).
Proof.
  intros Hcall. split.
  - intros numArgs params Hlen Hpos Hparams Hbad.
    assert (Hguard : Functions.hasParametersToModel funcValue = Some params).
    { unfold Functions.hasParametersToModel. rewrite Hlen, Hparams.
      destruct (Z.eqb_spec numArgs 0); [lia|].
      destruct (Z.gtb_spec numArgs 0); [reflexivity|lia]. }
    assert (Hc : forall s0, _callOfFunction funcValue argModel s0 =
      (Threw (FatalError (Some Functions.nonIdentifierMessage)),
       addTrace [EvHandleError (Functions.PP1005 funcValue)] s0)).
    { intros s0. unfold Functions._callOfFunction. rewrite Hcall, Hguard.
      unfold invariant, bind at 1, ret at 1. unfold bind at 1.
      now rewrite (argumentsLoop_non_identifier funcValue argModel params Hbad). }
    split; [apply Hc|].
    unfold Functions.captureWriteEffects. unfold bind at 1, modify at 1.
    unfold bind at 1. now rewrite Hc.
  - intros Hskip.
    assert (Hguard : Functions.hasParametersToModel funcValue = None).
    { unfold Functions.hasParametersToModel.
      destruct Hskip as [->|[(numArgs & -> & Hle)| ->]].
      - reflexivity.
      - destruct (FormalParameters funcValue); [|reflexivity].
        destruct (Z.eqb_spec numArgs 0); [reflexivity|].
        destruct (Z.gtb_spec numArgs 0); [lia|reflexivity].
      - now destruct (getLength funcValue). }
    unfold Functions._callOfFunction. rewrite Hcall, Hguard. reflexivity.
Qed.

(** ** The pending registrations around a callback *)

Lemma forEach_emit {A} (l : list A) (ev : A -> Event) (s : State) :
  forEach l (fun x => emit (ev x)) s = (Returned tt, addTrace (map ev l) s).
Proof.
  revert s; induction l as [|x l IH]; intros s; simpl.
  - unfold ret. now rewrite addTrace_nil.
  - unfold bind, emit at 1, modify. rewrite IH.
    fold (addTrace [ev x] s). now rewrite addTrace_app.
Qed.

Lemma forEach_setOptimizedFunction (old : list (Value * option ArgModel)) (s : State) :
  forEach old (fun om => Functions.setOptimizedFunction (fst om) (snd om)) s =
  (Returned tt, set_optimizedFunctions (mergeBack old (optimizedFunctions s)) s).
Proof.
  revert s; induction old as [|om old IH]; intros s; simpl.
  - unfold ret. now destruct s.
  - unfold bind, Functions.setOptimizedFunction at 1, modify. rewrite IH. reflexivity.
Qed.

(** C6 (amended): the callback of [_withEmptyOptimizedFunctionList] starts with
    an empty registration list; when it returns, the saved registrations are
    merged into the list it left; when it throws, the error goes to the caller
    with the state as the callback left it, nothing being merged back. *)
Theorem withEmptyOptimizedFunctionList_restores_on_return
    (entry : AdditionalFunctionEntry)
    (func : FunctionValue -> option ArgModel -> M unit) (s : State) :
  optimizedFunctions (beforeCallback entry s) = []
  /\
  Functions._withEmptyOptimizedFunctionList entry func s =
  match func (value entry) (argModel entry) (beforeCallback entry s) with
  | (Returned _, s2) =>
      (Returned tt, afterCallback (optimizedFunctions s) (optimizedFunctionId s) s2)
  | (Threw e, s2) => (Threw e, s2)
  | (OutOfFuel, s2) => (OutOfFuel, s2)
  end.
Proof.
  split; [reflexivity|].
  unfold Functions._withEmptyOptimizedFunctionList.
  unfold bind at 1, gets at 1. unfold bind at 1, modify at 1.
  unfold bind at 1, gets at 1. unfold bind at 1, modify at 1.
  unfold bind at 1, gets at 1. unfold bind at 1.
  rewrite forEach_emit. unfold bind at 1.
  change (addTrace _ _) with (beforeCallback entry s).
  destruct (func (value entry) (argModel entry) (beforeCallback entry s))
    as [[[]|e|] s2]; try reflexivity.
  unfold bind at 1, gets at 1. unfold bind at 1. rewrite forEach_emit.
  now rewrite forEach_setOptimizedFunction.
Qed.

(** ** Relations that every step of a computation respects *)

Section Stepwise.

Variable R : State -> State -> Prop.
Hypothesis R_refl : forall s, R s s.
Hypothesis R_trans : forall s1 s2 s3, R s1 s2 -> R s2 s3 -> R s1 s3.

Lemma stepwise_ret {A} (a : A) : stepwise R (ret a).
Proof. intros s; apply R_refl. Qed.

Lemma stepwise_throw {A} (e : Error) : stepwise R (@throw A e).
Proof. intros s; apply R_refl. Qed.

Lemma stepwise_gets {A} (f : State -> A) : stepwise R (gets f).
Proof. intros s; apply R_refl. Qed.

Lemma stepwise_invariant (b : bool) : stepwise R (invariant b).
Proof. destruct b; intros s; apply R_refl. Qed.

Lemma stepwise_modify (f : State -> State) :
  (forall s, R s (f s)) -> stepwise R (modify f).
Proof. intros H s; apply H. Qed.

Lemma stepwise_bind {A B} (m : M A) (k : A -> M B) :
  stepwise R m -> (forall a, stepwise R (k a)) -> stepwise R (bind m k).
Proof.
  intros Hm Hk s. unfold bind. specialize (Hm s).
  destruct (m s) as [[a| |] s1]; simpl in *; auto.
  eapply R_trans; [exact Hm|apply Hk].
Qed.

Lemma stepwise_forEach {A} (l : list A) (body : A -> M unit) :
  (forall x, In x l -> stepwise R (body x)) -> stepwise R (forEach l body).
Proof.
  induction l as [|x l IH]; intros H; simpl.
  - apply stepwise_ret.
  - apply stepwise_bind; [apply H; now left|].
    intros _. apply IH. intros y Hy. apply H. now right.
Qed.

Lemma stepwise_try_finally {A} (body : M A) (fin : State -> State) :
  stepwise R body -> (forall s, R s (fin s)) -> stepwise R (try_finally body fin).
Proof.
  intros Hb Hf s. unfold try_finally. specialize (Hb s).
  destruct (body s) as [o s1]; simpl in *. eapply R_trans; [exact Hb|apply Hf].
Qed.

Lemma stepwise_ignoreErrorsIn {A} (m : M A) :
  stepwise R m -> stepwise R (Functions.ignoreErrorsIn rt m).
Proof.
  intros Hm s. unfold Functions.ignoreErrorsIn. specialize (Hm s).
  destruct (m s) as [[a|e|] s1]; try exact Hm.
  destruct (ignoresError rt e); exact Hm.
Qed.

End Stepwise.

(** ** Computations that do not depend on the recursion bound *)

Lemma fueled_ret {A} (a : A) : fueled (ret a).
Proof. intros s; discriminate. Qed.

Lemma fueled_throw {A} (e : Error) : fueled (@throw A e).
Proof. intros s; discriminate. Qed.

Lemma fueled_gets {A} (f : State -> A) : fueled (gets f).
Proof. intros s; discriminate. Qed.

Lemma fueled_modify (f : State -> State) : fueled (modify f).
Proof. intros s; discriminate. Qed.

Lemma fueled_invariant (b : bool) : fueled (invariant b).
Proof. destruct b; intros s; discriminate. Qed.

Lemma fueled_bind {A B} (m : M A) (k : A -> M B) :
  fueled m -> (forall a, fueled (k a)) -> fueled (bind m k).
Proof.
  intros Hm Hk s. unfold bind. specialize (Hm s).
  destruct (m s) as [[a| |] s1]; simpl in *; try discriminate; auto.
  apply Hk.
Qed.

Lemma fueled_forEach {A} (l : list A) (body : A -> M unit) :
  (forall x, fueled (body x)) -> fueled (forEach l body).
Proof.
  intros H. induction l as [|x l IH]; simpl.
  - apply fueled_ret.
  - apply fueled_bind; auto.
Qed.

Lemma fueled_try_finally {A} (body : M A) (fin : State -> State) :
  fueled body -> fueled (try_finally body fin).
Proof.
  intros Hb s. unfold try_finally. specialize (Hb s).
  destruct (body s) as [o s1]; exact Hb.
Qed.

Lemma fueled_ignoreErrorsIn {A} (m : M A) :
  fueled m -> fueled (Functions.ignoreErrorsIn rt m).
Proof.
  intros Hm s. unfold Functions.ignoreErrorsIn. specialize (Hm s).
  destruct (m s) as [[a|e|] s1]; simpl in *; try discriminate; auto.
  destruct (ignoresError rt e); discriminate.
Qed.

Ltac fueled_tac :=
  repeat match goal with
    | |- fueled (ret _) => apply fueled_ret
    | |- fueled (throw _) => apply fueled_throw
    | |- fueled (gets _) => apply fueled_gets
    | |- fueled (modify _) => apply fueled_modify
    | |- fueled (invariant _) => apply fueled_invariant
    | |- fueled (forEach _ _) => apply fueled_forEach; intros ?
    | |- fueled (try_finally _ _) => apply fueled_try_finally
    | |- fueled (Functions.ignoreErrorsIn _ _) => apply fueled_ignoreErrorsIn
    | |- fueled (bind _ _) => apply fueled_bind; [|intros ?]
    | |- fueled (match ?x with _ => _ end) => destruct x
    end.

Lemma fueled_handleError (d : CompilerDiagnostic) : fueled (handleError d).
Proof. unfold Functions.handleError, emit. fueled_tac. Qed.

Lemma fueled_runStep (pure : bool) (st : EvalStep) : fueled (runStep pure st).
Proof.
  destruct st; cbn [Functions.runStep];
    unfold Functions.callReportPropertyAccess,
      Functions.callReportObjectGetOwnProperties, Functions.reportConflict,
      Functions.setOptimizedFunction, Functions.logCompilerDiagnostic;
    fueled_tac; apply fueled_handleError.
Qed.

Lemma fueled_evaluate (pure : bool) (call : Call) :
  fueled (evaluateForEffectsInGlobalEnv pure call).
Proof.
  unfold Functions.evaluateForEffectsInGlobalEnv, emit.
  fueled_tac. apply fueled_runStep.
Qed.

(** ** Replay leaves the hooks as they were *)

Lemma reportWriteConflicts_run (fname : string) (pbs : PropertyBindings)
    (call2 : Call) (s : State) :
  reportWriteConflicts fname pbs call2 s =
  (afterIgnoring rt
     (fst (evaluateForEffectsInGlobalEnv false call2 (withConflictHooks fname pbs s))),
   set_reportObjectGetOwnProperties (reportObjectGetOwnProperties s)
     (set_reportPropertyAccess (reportPropertyAccess s)
        (snd (evaluateForEffectsInGlobalEnv false call2 (withConflictHooks fname pbs s))))).
Proof.
  unfold Functions.reportWriteConflicts.
  unfold bind at 1, gets at 1. unfold bind at 1, modify at 1.
  unfold bind at 1, gets at 1. unfold bind at 1, modify at 1.
  unfold try_finally, bind, Functions.ignoreErrorsIn, ret, afterIgnoring.
  change (set_reportPropertyAccess (ConflictOnPropertyAccess fname pbs)
            (set_reportObjectGetOwnProperties
               (ConflictOnGetOwnProperties fname (Functions.writtenObjectsOf pbs)) s))
    with (withConflictHooks fname pbs s).
  destruct (evaluateForEffectsInGlobalEnv false call2 (withConflictHooks fname pbs s))
    as [[e|err|] s1]; cbn [fst snd]; try reflexivity.
  destruct (ignoresError rt err); reflexivity.
Qed.

(** ** Frames *)

Lemma keeps_refl {B} (proj : State -> B) : forall s, keeps proj s s.
Proof. reflexivity. Qed.

Lemma keeps_trans {B} (proj : State -> B) :
  forall s1 s2 s3, keeps proj s1 s2 -> keeps proj s2 s3 -> keeps proj s1 s3.
Proof. unfold keeps; congruence. Qed.

Lemma extendsTrace_refl (P : Event -> Prop) : forall s, extendsTrace P s s.
Proof. intros s; exists []; split; [now rewrite app_nil_r|constructor]. Qed.

Lemma extendsTrace_trans (P : Event -> Prop) :
  forall s1 s2 s3, extendsTrace P s1 s2 -> extendsTrace P s2 s3 -> extendsTrace P s1 s3.
Proof.
  intros s1 s2 s3 (e1 & H1 & F1) (e2 & H2 & F2). exists (e1 ++ e2). split.
  - now rewrite H2, H1, app_assoc.
  - apply Forall_app; now split.
Qed.

Create HintDb functions.
#[local] Hint Unfold Functions.handleError Functions.callReportPropertyAccess
  Functions.callReportObjectGetOwnProperties Functions.reportConflict
  Functions.setOptimizedFunction Functions.logCompilerDiagnostic
  Functions.runStep Functions.evaluateForEffectsInGlobalEnv
  Functions.withEffectsAppliedInGlobalEnv Functions.reportWriteConflicts
  Functions.reportFn Functions.checkPair
  Functions.checkFunction Functions.independenceLoop Functions.reportConflicts
  Functions.getDeclaringAdditionalFunction
  emit : functions.

Ltac stepwise_tac side :=
  repeat match goal with
    | |- stepwise _ (ret _) => apply stepwise_ret; side
    | |- stepwise _ (throw _) => apply stepwise_throw; side
    | |- stepwise _ (gets _) => apply stepwise_gets; side
    | |- stepwise _ (invariant _) => apply stepwise_invariant; side
    | |- stepwise _ (modify _) => apply stepwise_modify; side
    | |- stepwise _ (forEach _ _) => apply stepwise_forEach; [side|side|intros ? ?]
    | |- stepwise _ (try_finally _ _) => apply stepwise_try_finally; [side| |side]
    | |- stepwise _ (Functions.ignoreErrorsIn _ _) => apply stepwise_ignoreErrorsIn
    | |- stepwise _ (bind _ _) => apply stepwise_bind; [side| |intros ?]
    | |- stepwise _ (match ?x with _ => _ end) => destruct x
    | |- stepwise _ (if ?x then _ else _) => destruct x
    | |- stepwise _ _ => progress autounfold with functions
    end.

Ltac keeps_side :=
  solve [ apply keeps_refl | apply keeps_trans | intros; reflexivity ].

Ltac keeps_tac := stepwise_tac keeps_side.

Ltac trace_side :=
  solve [ apply extendsTrace_refl | apply extendsTrace_trans
        | intros s; exists []; split; [simpl; now rewrite app_nil_r|constructor]
        | intros s; eexists [_]; split; [reflexivity|];
          constructor; [simpl; auto; try congruence|constructor] ].

Ltac trace_tac := stepwise_tac trace_side.

Lemma argumentsLoop_cases (funcValue : FunctionValue) (argModel : option ArgModel)
    (params : list BabelNodeLVal) :
  forall args,
    (exists args', forall s,
        argumentsLoop funcValue argModel params args s = (Returned args', s))
    \/ (forall s,
        argumentsLoop funcValue argModel params args s =
        (Threw (FatalError (Some Functions.nonIdentifierMessage)),
         addTrace [EvHandleError (Functions.PP1005 funcValue)] s)).
Proof.
  induction params as [|p params IH]; intros args.
  - left. exists args. reflexivity.
  - destruct p; try (right; reflexivity). apply IH.
Qed.

(** The synthesis of a call either returns the call, the state untouched, or
    throws: after the report of PP1005, or on the invariant of line 183. *)
Lemma callOfFunction_cases (funcValue : FunctionValue) (argModel : option ArgModel) :
  (exists call, callee call = funcValue /\
                forall s, _callOfFunction funcValue argModel s = (Returned call, s))
  \/ (forall s, _callOfFunction funcValue argModel s =
                (Threw (FatalError (Some Functions.nonIdentifierMessage)),
                 addTrace [EvHandleError (Functions.PP1005 funcValue)] s))
  \/ (forall s, _callOfFunction funcValue argModel s = (Threw InvariantViolation, s)).
Proof.
  unfold Functions._callOfFunction.
  destruct (hasCall funcValue); [|right; right; reflexivity].
  destruct (Functions.hasParametersToModel funcValue) as [params|].
  - destruct (argumentsLoop_cases funcValue argModel params []) as [[args' H]|H].
    + left. eexists. split; [|intros s; unfold invariant, bind, ret; rewrite H; reflexivity].
      reflexivity.
    + right; left. intros s. unfold invariant, bind, ret. now rewrite H.
  - left. eexists. split; [|intros s; reflexivity]. reflexivity.
Qed.

Lemma callOfFunction_returned (funcValue : FunctionValue)
    (argModel : option ArgModel) (s : State) (call : Call) :
  fst (_callOfFunction funcValue argModel s) = Returned call ->
  callee call = funcValue
  /\ forall s0, _callOfFunction funcValue argModel s0 = (Returned call, s0).
Proof.
  destruct (callOfFunction_cases funcValue argModel) as [(c & Hc & H)|[H|H]];
    rewrite (H s); simpl; intros E; try discriminate.
  injection E as <-. split; [exact Hc|exact H].
Qed.

Lemma runStep_keeps_writeEffects (pure : bool) (st : EvalStep) :
  stepwise (keeps writeEffects) (runStep pure st).
Proof. keeps_tac. Qed.

Lemma runStep_extendsTrace (pure : bool) (st : EvalStep) :
  stepwise (extendsTrace (fun _ => True)) (runStep pure st).
Proof. trace_tac. Qed.

(** The call is handed to the interpreter before anything else happens. *)
Lemma evaluate_run (pure : bool) (call : Call) (s : State) :
  evaluateForEffectsInGlobalEnv pure call s =
  match forEach (steps (evaluate rt call (appliedEffects s))) (runStep pure)
          (addTrace [EvEvaluate pure call (appliedEffects s)] s) with
  | (Returned _, s1) =>
      (match final (evaluate rt call (appliedEffects s)) with
       | inl e => Returned e
       | inr err => Threw err
       end, s1)
  | (Threw e, s1) => (Threw e, s1)
  | (OutOfFuel, s1) => (OutOfFuel, s1)
  end.
Proof.
  unfold Functions.evaluateForEffectsInGlobalEnv.
  unfold bind at 1, gets at 1. unfold bind at 1, emit at 1, modify at 1.
  unfold bind at 1. fold (addTrace [EvEvaluate pure call (appliedEffects s)] s).
  destruct (forEach _ _ _) as [[[]| |] s1]; try reflexivity.
  destruct (final _); reflexivity.
Qed.

Lemma evaluate_trace (pure : bool) (call : Call) (s : State) :
  exists evs,
    trace (snd (evaluateForEffectsInGlobalEnv pure call s))
    = trace s ++ EvEvaluate pure call (appliedEffects s) :: evs.
Proof.
  rewrite evaluate_run.
  pose proof (stepwise_forEach _ (extendsTrace_refl _) (extendsTrace_trans _)
                (steps (evaluate rt call (appliedEffects s))) (runStep pure)
                (fun x _ => runStep_extendsTrace pure x)
                (addTrace [EvEvaluate pure call (appliedEffects s)] s)) as (evs & H & _).
  exists evs. destruct (forEach _ _ _) as [[[]| |] s1]; simpl in *;
    rewrite H, <- app_assoc; reflexivity.
Qed.

Lemma evaluate_keeps_writeEffects (pure : bool) (call : Call) :
  stepwise (keeps writeEffects) (evaluateForEffectsInGlobalEnv pure call).
Proof. keeps_tac. Qed.

(** ** Capture of one function *)

Lemma captureWriteEffects_run (env : nat) (f : FunctionValue)
    (am : option ArgModel) (s : State) :
  captureWriteEffects env f am s =
  match _callOfFunction f am (pushed f s) with
  | (Returned call, s1) =>
      match evaluateForEffectsInGlobalEnv true call s1 with
      | (Returned e, s2) =>
          let record := {| parentAdditionalFunction :=
                             Functions.findDeclaring (writeEffects s2) f;
                           effects := e |} in
          if JSMap.has FunctionValue_eq_dec (writeEffects s2) f then
            match errorHandler rt (Functions.PP1009 f) with
            | Recover =>
                (Returned record,
                 set_writeEffects
                   (JSMap.set FunctionValue_eq_dec (writeEffects s2) f record)
                   (addTrace [EvHandleError (Functions.PP1009 f)] s2))
            | Fail =>
                (Threw (FatalError None),
                 addTrace [EvHandleError (Functions.PP1009 f)] s2)
            end
          else
            (Returned record,
             set_writeEffects
               (JSMap.set FunctionValue_eq_dec (writeEffects s2) f record) s2)
      | (Threw e, s2) => (Threw e, s2)
      | (OutOfFuel, s2) => (OutOfFuel, s2)
      end
  | (Threw e, s1) => (Threw e, s1)
  | (OutOfFuel, s1) => (OutOfFuel, s1)
  end.
Proof.
  unfold Functions.captureWriteEffects.
  unfold bind at 1, modify at 1. fold (pushed f s). unfold bind at 1.
  destruct (_callOfFunction f am (pushed f s)) as [[call| |] s1]; try reflexivity.
  unfold bind at 1.
  destruct (evaluateForEffectsInGlobalEnv true call s1) as [[e| |] s2]; try reflexivity.
  unfold bind at 1, Functions.getDeclaringAdditionalFunction at 1.
  unfold bind at 1, gets at 1, ret at 1. cbn [Functions.createAdditionalEffects].
  unfold bind at 1, gets at 1.
  destruct (JSMap.has FunctionValue_eq_dec (writeEffects s2) f).
  - unfold bind at 1. unfold bind at 1. rewrite handleError_run.
    destruct (errorHandler rt (Functions.PP1009 f)); reflexivity.
  - reflexivity.
Qed.

Lemma JSMap_get_set {K V} (eq_dec : forall a b : K, {a = b} + {a <> b})
    (m : list (K * V)) (k : K) (v : V) :
  JSMap.get eq_dec (JSMap.set eq_dec m k v) k = Some v.
Proof.
  induction m as [|[k' v'] m IH]; simpl.
  - destruct (eq_dec k k); congruence.
  - destruct (eq_dec k' k) as [E|E]; simpl.
    + destruct (eq_dec k k); congruence.
    + destruct (eq_dec k' k); congruence.
Qed.

Lemma findDeclaring_some (we : list (FunctionValue * AdditionalFunctionEffects))
    (f p : FunctionValue) :
  Functions.findDeclaring we f = Some p <->
  exists pre r post,
    we = pre ++ (p, r) :: post
    /\ In (FunctionObject f) (createdObjects (effects r))
    /\ forall q rq, In (q, rq) pre ->
                    ~ In (FunctionObject f) (createdObjects (effects rq)).
Proof.
  induction we as [|[q rq] we IH]; simpl.
  - split; [discriminate|]. intros (pre & r & post & H & _). now destruct pre.
  - unfold JSSet.has.
    destruct (in_dec ObjectValue_eq_dec (FunctionObject f) (createdObjects (effects rq)))
      as [Hin|Hout].
    + split.
      * intros [= <-]. exists [], rq, we. repeat split; auto.
      * intros (pre & r & post & H & Hr & Hpre). destruct pre as [|x pre].
        -- injection H as E1 E2 _. now subst.
        -- injection H as <- _. exfalso. eapply Hpre; [now left|exact Hin].
    + rewrite IH. split.
      * intros (pre & r & post & H & Hr & Hpre). exists ((q, rq) :: pre), r, post.
        repeat split; auto; [now rewrite H|].
        intros q0 rq0 [[= <- <-]|Hq]; [exact Hout|eauto].
      * intros (pre & r & post & H & Hr & Hpre). destruct pre as [|x pre].
        -- injection H as E1 E2 _. subst. contradiction.
        -- injection H as E1 H. subst x. exists pre, r, post. repeat split; auto.
           intros q0 rq0 Hq. apply (Hpre q0 rq0). now right.
Qed.

(** C4 (amended): when a function that already has an entry in [writeEffects]
    is captured again, the call is synthesized and evaluated first; PP1009 is
    reported after that evaluation.  Unless the handler answers Recover a
    fatal error is then thrown and the table is left as it was; when it
    answers Recover the new record takes the place of the old one. *)
Theorem double_optimization_reported_after_capture (env : nat)
    (f : FunctionValue) (am : option ArgModel) (s s2 : State)
    (call : Call) (e : Effects) :
  JSMap.has FunctionValue_eq_dec (writeEffects s) f = true ->
  fst (_callOfFunction f am s) = Returned call ->
  evaluateForEffectsInGlobalEnv true call (pushed f s) = (Returned e, s2) ->
  (exists evs, trace s2 = trace s ++ EvEvaluate true call (appliedEffects s) :: evs)
  /\
  captureWriteEffects env f am s =
  match errorHandler rt (Functions.PP1009 f) with
  | Recover =>
      let record := {| parentAdditionalFunction :=
                         Functions.findDeclaring (writeEffects s) f;
                       effects := e |} in
      (Returned record,
       set_writeEffects (JSMap.set FunctionValue_eq_dec (writeEffects s) f record)
         (addTrace [EvHandleError (Functions.PP1009 f)] s2))
  | Fail =>
      (Threw (FatalError None), addTrace [EvHandleError (Functions.PP1009 f)] s2)
  end
  /\
  (errorHandler rt (Functions.PP1009 f) = Fail ->
   writeEffects (snd (captureWriteEffects env f am s)) = writeEffects s).
Proof.
  intros Hhas Hcall Heval.
  destruct (callOfFunction_returned f am s call Hcall) as [_ Hc].
  pose proof (evaluate_keeps_writeEffects true call (pushed f s)) as Hwe.
  pose proof (evaluate_trace true call (pushed f s)) as [evs Htr].
  rewrite Heval in Hwe, Htr. unfold keeps in Hwe. simpl in Hwe, Htr.
  assert (Hrun : captureWriteEffects env f am s =
    match errorHandler rt (Functions.PP1009 f) with
    | Recover =>
        let record := {| parentAdditionalFunction :=
                           Functions.findDeclaring (writeEffects s) f;
                         effects := e |} in
        (Returned record,
         set_writeEffects (JSMap.set FunctionValue_eq_dec (writeEffects s) f record)
           (addTrace [EvHandleError (Functions.PP1009 f)] s2))
    | Fail =>
        (Threw (FatalError None), addTrace [EvHandleError (Functions.PP1009 f)] s2)
    end).
  { rewrite captureWriteEffects_run, Hc, Heval. cbv zeta. now rewrite Hwe, Hhas. }
  split; [exists evs; exact Htr|]. split; [exact Hrun|].
  intros Hfail. rewrite Hrun, Hfail. exact Hwe.
Qed.

(** C8 (amended): the record that a capture stores for a function has a parent
    exactly when some entry of [writeEffects], as the table stands at that
    capture, has the function among its created objects; the parent is then
    the key of the first such entry. *)
Theorem parent_is_first_creator (env : nat) (f : FunctionValue)
    (am : option ArgModel) (s s' : State) (record : AdditionalFunctionEffects) :
  captureWriteEffects env f am s = (Returned record, s') ->
  JSMap.get FunctionValue_eq_dec (writeEffects s') f = Some record
  /\ parentAdditionalFunction record = Functions.findDeclaring (writeEffects s) f
  /\ forall p,
       parentAdditionalFunction record = Some p <->
       exists pre r post,
         writeEffects s = pre ++ (p, r) :: post
         /\ In (FunctionObject f) (createdObjects (effects r))
         /\ forall q rq, In (q, rq) pre ->
                         ~ In (FunctionObject f) (createdObjects (effects rq)).
Proof.
  rewrite captureWriteEffects_run.
  destruct (callOfFunction_cases f am) as [(c & _ & H)|[H|H]];
    rewrite (H (pushed f s)); try discriminate.
  pose proof (evaluate_keeps_writeEffects true c (pushed f s)) as Hwe.
  unfold keeps in Hwe.
  destruct (evaluateForEffectsInGlobalEnv true c (pushed f s)) as [[e| |] s2];
    try discriminate.
  simpl in Hwe. cbv zeta. rewrite Hwe.
  assert (Hgoal : forall s3,
    (Returned {| parentAdditionalFunction := Functions.findDeclaring (writeEffects s) f;
                 effects := e |},
     set_writeEffects
       (JSMap.set FunctionValue_eq_dec (writeEffects s) f
          {| parentAdditionalFunction := Functions.findDeclaring (writeEffects s) f;
             effects := e |}) s3) = (Returned record, s') ->
    JSMap.get FunctionValue_eq_dec (writeEffects s') f = Some record
    /\ parentAdditionalFunction record = Functions.findDeclaring (writeEffects s) f
    /\ forall p,
         parentAdditionalFunction record = Some p <->
         exists pre r post,
           writeEffects s = pre ++ (p, r) :: post
           /\ In (FunctionObject f) (createdObjects (effects r))
           /\ forall q rq, In (q, rq) pre ->
                           ~ In (FunctionObject f) (createdObjects (effects rq))).
  { intros s3 [= <- <-]. simpl. split; [apply JSMap_get_set|]. split; [reflexivity|].
    intros p. apply findDeclaring_some. }
  destruct (JSMap.has FunctionValue_eq_dec (writeEffects s) f).
  - destruct (errorHandler rt (Functions.PP1009 f)); [discriminate|apply Hgoal].
  - apply Hgoal.
Qed.

(** ** One replay *)

Lemma argumentsLoop_identifiers (f : FunctionValue) (am : option ArgModel)
    (params : list BabelNodeLVal) :
  forallb isIdentifier params = true ->
  forall args s,
    argumentsLoop f am params args s =
    (Returned
       (args ++
        map (fun p =>
               match p with
               | Identifier paramName =>
                   let shape := createForArgument rt am paramName in
                   Functions.createAbstractArgument paramName (expressionLocation f)
                     (match shape with
                      | Some sh => getAbstractType rt sh
                      | None => TypeValue
                      end) shape
               | _ => Functions.createAbstractArgument "" None TypeValue None
               end) params), s).
Proof.
  induction params as [|p params IH]; intros H args s.
  - simpl. now rewrite app_nil_r.
  - destruct p; try discriminate. simpl in H. cbn [Functions.argumentsLoop].
    rewrite (IH H). cbn [map]. cbv zeta. now rewrite <- app_assoc.
Qed.

Lemma forallb_existsb_negb {A} (p : A -> bool) (l : list A) :
  forallb p l = false -> existsb (fun x => negb (p x)) l = true.
Proof.
  induction l as [|x l IH]; simpl; [discriminate|].
  destruct (p x); simpl; auto.
Qed.

Lemma callOfFunction_synthesized (f : FunctionValue) (am : option ArgModel) (s : State) :
  _callOfFunction f am s =
  match synthesizedCall rt f am with
  | Some call => (Returned call, s)
  | None =>
      if hasCall f then
        (Threw (FatalError (Some Functions.nonIdentifierMessage)),
         addTrace [EvHandleError (Functions.PP1005 f)] s)
      else (Threw InvariantViolation, s)
  end.
Proof.
  unfold Functions._callOfFunction, synthesizedCall.
  destruct (hasCall f); [|reflexivity].
  destruct (Functions.hasParametersToModel f) as [params|]; [|reflexivity].
  unfold invariant, bind at 1, ret at 1. unfold bind at 1.
  destruct (forallb isIdentifier params) eqn:E.
  - now rewrite (argumentsLoop_identifiers f am params E).
  - now rewrite (argumentsLoop_non_identifier f am params (forallb_existsb_negb _ _ E)).
Qed.

Lemma callOfFunction_returns_iff (f : FunctionValue) (am : option ArgModel)
    (s : State) (c : Call) :
  fst (_callOfFunction f am s) = Returned c <-> synthesizedCall rt f am = Some c.
Proof.
  rewrite callOfFunction_synthesized.
  destruct (synthesizedCall rt f am) as [c'|]; cbn [fst].
  - split; intros [= ->]; reflexivity.
  - destruct (hasCall f); split; discriminate.
Qed.

Lemma runStep_replay_keeps_trace (st : EvalStep) :
  stepwise (keeps trace) (runStep false st).
Proof. keeps_tac. Qed.

Lemma evaluate_replay_trace (call : Call) (s : State) :
  trace (snd (evaluateForEffectsInGlobalEnv false call s))
  = trace s ++ [EvEvaluate false call (appliedEffects s)].
Proof.
  rewrite evaluate_run.
  pose proof (stepwise_forEach _ (keeps_refl trace) (keeps_trans trace)
                (steps (evaluate rt call (appliedEffects s))) (runStep false)
                (fun x _ => runStep_replay_keeps_trace x)
                (addTrace [EvEvaluate false call (appliedEffects s)] s)) as H.
  unfold keeps in H. destruct (forEach _ _ _) as [[[]| |] s1]; exact H.
Qed.

Lemma callOfFunction_keeps_tables (f : FunctionValue) (am : option ArgModel) :
  stepwise (keeps tables) (_callOfFunction f am).
Proof.
  intros s. rewrite callOfFunction_synthesized.
  destruct (synthesizedCall rt f am); [|destruct (hasCall f)]; reflexivity.
Qed.

Lemma callOfFunction_keeps_appliedEffects (f : FunctionValue) (am : option ArgModel) :
  stepwise (keeps appliedEffects) (_callOfFunction f am).
Proof.
  intros s. rewrite callOfFunction_synthesized.
  destruct (synthesizedCall rt f am); [|destruct (hasCall f)]; reflexivity.
Qed.

Lemma reportWriteConflicts_keeps_tables (n : string) (pbs : PropertyBindings) (c : Call) :
  stepwise (keeps tables) (reportWriteConflicts n pbs c).
Proof. keeps_tac. Qed.

Lemma reportWriteConflicts_keeps_appliedEffects (n : string) (pbs : PropertyBindings)
    (c : Call) :
  stepwise (keeps appliedEffects) (reportWriteConflicts n pbs c).
Proof. keeps_tac. Qed.

Lemma reportFn_keeps_tables (n : string) (e1 : Effects) (f2 : FunctionValue) :
  stepwise (keeps tables) (reportFn n e1 f2).
Proof.
  unfold Functions.reportFn. apply stepwise_bind; [apply keeps_trans| |intros c].
  - apply callOfFunction_keeps_tables.
  - apply reportWriteConflicts_keeps_tables.
Qed.

Lemma reportFn_keeps_appliedEffects (n : string) (e1 : Effects) (f2 : FunctionValue) :
  stepwise (keeps appliedEffects) (reportFn n e1 f2).
Proof.
  unfold Functions.reportFn. apply stepwise_bind; [apply keeps_trans| |intros c].
  - apply callOfFunction_keeps_appliedEffects.
  - apply reportWriteConflicts_keeps_appliedEffects.
Qed.

(** The replay of [f2] against a write set: the call is synthesized, the hooks
    are installed, the interpreter evaluates the call, the hooks are put back. *)
Lemma reportFn_run (n : string) (e1 : Effects) (f2 : FunctionValue) (s : State) :
  reportFn n e1 f2 s =
  match synthesizedCall rt f2 None with
  | Some call2 =>
      (afterIgnoring rt
         (fst (evaluateForEffectsInGlobalEnv false call2
                 (withConflictHooks n (modifiedProperties e1) s))),
       set_reportObjectGetOwnProperties (reportObjectGetOwnProperties s)
         (set_reportPropertyAccess (reportPropertyAccess s)
            (snd (evaluateForEffectsInGlobalEnv false call2
                    (withConflictHooks n (modifiedProperties e1) s)))))
  | None =>
      if hasCall f2 then
        (Threw (FatalError (Some Functions.nonIdentifierMessage)),
         addTrace [EvHandleError (Functions.PP1005 f2)] s)
      else (Threw InvariantViolation, s)
  end.
Proof.
  unfold Functions.reportFn, bind. rewrite callOfFunction_synthesized.
  destruct (synthesizedCall rt f2 None); [apply reportWriteConflicts_run|].
  destruct (hasCall f2); reflexivity.
Qed.

Lemma withEffectsApplied_run {A} (body : M A) (e : Effects) (s : State) :
  Functions.withEffectsAppliedInGlobalEnv body e s =
  (fst (body (set_appliedEffects (e :: appliedEffects s) s)),
   set_appliedEffects (appliedEffects s)
     (snd (body (set_appliedEffects (e :: appliedEffects s) s)))).
Proof.
  unfold Functions.withEffectsAppliedInGlobalEnv, bind, gets, try_finally, modify.
  destruct (body _) as [o s1]; reflexivity.
Qed.

(** ** The loops of the verification *)

Lemma forEach_returned {A} (I : State -> Prop) (ev : A -> list Event)
    (body : A -> M unit) (l : list A) :
  (forall x s s', In x l -> I s -> body x s = (Returned tt, s') ->
                  I s' /\ trace s' = trace s ++ ev x) ->
  forall s s', I s -> forEach l body s = (Returned tt, s') ->
               I s' /\ trace s' = trace s ++ flat_map ev l.
Proof.
  induction l as [|x l IH]; intros Hbody s s' HI Hrun.
  - injection Hrun as <-. split; [exact HI|]. simpl. now rewrite app_nil_r.
  - simpl in Hrun. unfold bind in Hrun.
    destruct (body x s) as [[[]| |] s1] eqn:E; try discriminate.
    destruct (Hbody x s s1 (or_introl eq_refl) HI E) as [HI1 Ht1].
    destruct (IH (fun y t t' Hy => Hbody y t t' (or_intror Hy)) s1 s' HI1 Hrun)
      as [HI' Ht']. split; [exact HI'|].
    simpl. now rewrite Ht', Ht1, app_assoc.
Qed.

Lemma checkPair_run (n : string) (e1 : Effects) (f1 f2 : FunctionValue) (s : State) :
  checkPair n e1 f1 f2 s =
  if FunctionValue_eq_dec f1 f2 then (Returned tt, s)
  else match JSMap.get FunctionValue_eq_dec (writeEffects s) f2 with
       | None => (Threw InvariantViolation, s)
       | Some fun2Effects =>
           match parentAdditionalFunction fun2Effects with
           | Some parent =>
               match JSMap.get FunctionValue_eq_dec (writeEffects s) parent with
               | None => (Threw InvariantViolation, s)
               | Some parentEffects =>
                   Functions.withEffectsAppliedInGlobalEnv (reportFn n e1 f2)
                     (effects parentEffects) s
               end
           | None => reportFn n e1 f2 s
           end
       end.
Proof.
  unfold Functions.checkPair. destruct (FunctionValue_eq_dec f1 f2); [reflexivity|].
  unfold bind at 1, gets at 1.
  destruct (JSMap.get FunctionValue_eq_dec (writeEffects s) f2) as [r2|]; [|reflexivity].
  destruct (parentAdditionalFunction r2) as [p|]; [|reflexivity].
  destruct (JSMap.get FunctionValue_eq_dec (writeEffects s) p); reflexivity.
Qed.

Lemma checkPair_keeps_tables (n : string) (e1 : Effects) (f1 f2 : FunctionValue) :
  stepwise (keeps tables) (checkPair n e1 f1 f2).
Proof.
  intros s. rewrite checkPair_run.
  destruct (FunctionValue_eq_dec f1 f2); [reflexivity|].
  destruct (JSMap.get _ _ f2) as [r2|]; [|reflexivity].
  destruct (parentAdditionalFunction r2) as [p|]; [|apply reportFn_keeps_tables].
  destruct (JSMap.get _ _ p) as [rp|]; [|reflexivity].
  rewrite withEffectsApplied_run. cbn [snd].
  exact (reportFn_keeps_tables n e1 f2 (set_appliedEffects (effects rp :: appliedEffects s) s)).
Qed.

Lemma checkPair_keeps_appliedEffects (n : string) (e1 : Effects) (f1 f2 : FunctionValue) :
  stepwise (keeps appliedEffects) (checkPair n e1 f1 f2).
Proof.
  intros s. rewrite checkPair_run.
  destruct (FunctionValue_eq_dec f1 f2); [reflexivity|].
  destruct (JSMap.get _ _ f2) as [r2|]; [|reflexivity].
  destruct (parentAdditionalFunction r2) as [p|]; [|apply reportFn_keeps_appliedEffects].
  destruct (JSMap.get _ _ p) as [rp|]; [|reflexivity].
  rewrite withEffectsApplied_run. reflexivity.
Qed.

Lemma reportFn_returned_trace (n : string) (e1 : Effects) (f2 : FunctionValue)
    (s s' : State) :
  reportFn n e1 f2 s = (Returned tt, s') ->
  exists call2, synthesizedCall rt f2 None = Some call2
                /\ trace s' = trace s ++ [EvEvaluate false call2 (appliedEffects s)].
Proof.
  rewrite reportFn_run. destruct (synthesizedCall rt f2 None) as [c|].
  - intros [= _ <-]. exists c. split; [reflexivity|].
    exact (evaluate_replay_trace c (withConflictHooks n (modifiedProperties e1) s)).
  - destruct (hasCall f2); discriminate.
Qed.

Lemma checkPair_returned (n : string) (e1 : Effects) (f1 f2 : FunctionValue)
    (s s' : State) :
  checkPair n e1 f1 f2 s = (Returned tt, s') ->
  trace s' = trace s ++ pairEvents rt (writeEffects s) (appliedEffects s) f1 f2.
Proof.
  rewrite checkPair_run. unfold pairEvents, replayBaseline.
  destruct (FunctionValue_eq_dec f1 f2).
  { intros [= <-]. now rewrite app_nil_r. }
  destruct (JSMap.get _ _ f2) as [r2|]; [|discriminate].
  destruct (parentAdditionalFunction r2) as [p|].
  - destruct (JSMap.get _ _ p) as [rp|]; [|discriminate].
    rewrite withEffectsApplied_run.
    destruct (reportFn n e1 f2 (set_appliedEffects (effects rp :: appliedEffects s) s))
      as [o s1] eqn:E. cbn [fst snd]. intros [= -> <-].
    destruct (reportFn_returned_trace _ _ _ _ _ E) as (c & Hc & Ht).
    rewrite Hc. exact Ht.
  - intros E. destruct (reportFn_returned_trace _ _ _ _ _ E) as (c & Hc & Ht).
    rewrite Hc. exact Ht.
Qed.

Lemma inner_loop_returned (n : string) (e1 : Effects) (f1 : FunctionValue)
    (fs : list FunctionValue) (s s' : State) :
  forEach fs (checkPair n e1 f1) s = (Returned tt, s') ->
  inContext (tables s) (appliedEffects s) s'
  /\ trace s' = trace s ++ functionEvents rt (writeEffects s) (appliedEffects s) fs f1.
Proof.
  apply (forEach_returned (inContext (tables s) (appliedEffects s))
           (pairEvents rt (writeEffects s) (appliedEffects s) f1)).
  - intros f2 t t' _ [HT HA] E. split.
    + split.
      * rewrite <- HT. pose proof (checkPair_keeps_tables n e1 f1 f2 t) as H.
        now rewrite E in H.
      * rewrite <- HA. pose proof (checkPair_keeps_appliedEffects n e1 f1 f2 t) as H.
        now rewrite E in H.
    + rewrite (checkPair_returned _ _ _ _ _ _ E).
      assert (writeEffects t = writeEffects s) as -> by (now injection HT).
      now rewrite HA.
  - split; reflexivity.
Qed.

Lemma checkFunction_run (test : EvaluationResult -> bool) (f1 : FunctionValue)
    (s : State) :
  checkFunction test f1 s =
  match JSMap.get FunctionValue_eq_dec (writeEffects s) f1 with
  | None => (Threw InvariantViolation, s)
  | Some record =>
      let n := Functions.nameOfFunction (functionExpressions s) f1 in
      if test (result (effects record)) then
        (Threw (FatalError None),
         addTrace [EvHandleError (Functions.PP1002 n (result (effects record)))] s)
      else
        forEach (additionalFunctions s) (checkPair n (effects record) f1) s
  end.
Proof.
  unfold Functions.checkFunction. unfold bind at 1, gets at 1.
  unfold bind at 1, gets at 1.
  destruct (JSMap.get FunctionValue_eq_dec (writeEffects s) f1) as [r|]; [|reflexivity].
  cbv zeta. destruct (test (result (effects r))); reflexivity.
Qed.

Lemma checkFunction_returned (test : EvaluationResult -> bool) (f1 : FunctionValue)
    (s s' : State) :
  checkFunction test f1 s = (Returned tt, s') ->
  inContext (tables s) (appliedEffects s) s'
  /\ trace s' = trace s
       ++ functionEvents rt (writeEffects s) (appliedEffects s) (additionalFunctions s) f1.
Proof.
  rewrite checkFunction_run.
  destruct (JSMap.get _ _ f1) as [r|]; [|discriminate]. cbv zeta.
  destruct (test (result (effects r))); [discriminate|].
  apply inner_loop_returned.
Qed.

Lemma outer_loop_returned (test : EvaluationResult -> bool)
    (done : list FunctionValue) (s s' : State) :
  forEach done (checkFunction test) s = (Returned tt, s') ->
  inContext (tables s) (appliedEffects s) s'
  /\ trace s' = trace s
       ++ loopEvents rt (writeEffects s) (appliedEffects s) (additionalFunctions s) done.
Proof.
  apply (forEach_returned (inContext (tables s) (appliedEffects s))
           (functionEvents rt (writeEffects s) (appliedEffects s) (additionalFunctions s))).
  - intros f1 t t' _ [HT HA] E.
    destruct (checkFunction_returned test f1 t t' E) as [[HT' HA'] Ht]. split.
    + split; congruence.
    + rewrite Ht. unfold tables in HT. injection HT as -> _ ->. now rewrite HA.
  - split; reflexivity.
Qed.

(** The test of line 324 holds of no result. *)
Lemma mayTerminateAbruptly_is_false (r : EvaluationResult) :
  Functions.mayTerminateAbruptly r = false.
Proof. unfold Functions.mayTerminateAbruptly. now destruct r. Qed.




Lemma independenceLoop_run (test : EvaluationResult -> bool) (s : State) :
  independenceLoop test s =
  forEach (additionalFunctions s) (checkFunction test) (set_conflicts [] s).
Proof. reflexivity. Qed.

Lemma forEach_handleError (ds : list CompilerDiagnostic) (s : State) :
  forEach ds (fun diagnostic => handleError diagnostic ;; ret tt) s
  = (Returned tt, addTrace (map EvHandleError ds) s).
Proof.
  revert s; induction ds as [|d ds IH]; intros s; simpl.
  - unfold ret. now rewrite addTrace_nil.
  - unfold bind at 1. unfold bind at 1. rewrite handleError_run. unfold ret at 1.
    rewrite IH. now rewrite addTrace_app.
Qed.

Lemma reportConflicts_run (s : State) :
  reportConflicts s =
  match conflicts s with
  | [] => (Returned tt, s)
  | _ :: _ =>
      (Threw (FatalError None),
       addTrace (map EvHandleError (JSMap.values (conflicts s))) s)
  end.
Proof.
  unfold Functions.reportConflicts, bind at 1, gets at 1.
  destruct (conflicts s) as [|c cs] eqn:E; [reflexivity|].
  cbn [List.length Nat.ltb Nat.leb]. unfold bind. now rewrite forEach_handleError.
Qed.

Lemma loopEvents_noConflictReport
    (we : list (FunctionValue * AdditionalFunctionEffects)) (applied : list Effects)
    (fs done : list FunctionValue) :
  Forall noConflictReport (loopEvents rt we applied fs done).
Proof.
  unfold loopEvents, functionEvents.
  apply Forall_flat_map, Forall_forall. intros f1 _.
  apply Forall_flat_map, Forall_forall. intros f2 _.
  unfold pairEvents. destruct (FunctionValue_eq_dec f1 f2); [constructor|].
  destruct (synthesizedCall rt f2 None); repeat constructor.
Qed.

(** ** The conflict map *)

Lemma JSMap_has_false_keys {V} (m : list (nat * V)) (k : nat) :
  JSMap.has Nat.eq_dec m k = false <-> ~ In k (JSMap.keys m).
Proof.
  unfold JSMap.has. induction m as [|[k' v] m IH]; simpl.
  - split; auto.
  - destruct (Nat.eq_dec k' k) as [E|E].
    + split; [discriminate|]. intros H. exfalso. apply H. now left.
    + rewrite IH. split; [intros H [H1|H1]; auto|intros H H1; apply H; now right].
Qed.

Lemma JSMap_set_fresh {V} (m : list (nat * V)) (k : nat) (v : V) :
  JSMap.has Nat.eq_dec m k = false -> JSMap.set Nat.eq_dec m k v = m ++ [(k, v)].
Proof.
  unfold JSMap.has. induction m as [|[k' v'] m IH]; simpl; [reflexivity|].
  destruct (Nat.eq_dec k' k); [discriminate|]. intros H. now rewrite IH.
Qed.

Lemma JSMap_get_app {V} (m1 m2 : list (nat * V)) (k : nat) :
  JSMap.get Nat.eq_dec (m1 ++ m2) k =
  match JSMap.get Nat.eq_dec m1 k with
  | Some v => Some v
  | None => JSMap.get Nat.eq_dec m2 k
  end.
Proof.
  induction m1 as [|[k' v'] m1 IH]; simpl; [reflexivity|].
  destruct (Nat.eq_dec k' k); [reflexivity|apply IH].
Qed.

Lemma conflictsGrow_refl Q : forall s, conflictsGrow Q s s.
Proof. intros s. repeat split; auto. Qed.

Lemma conflictsGrow_trans Q :
  forall s1 s2 s3, conflictsGrow Q s1 s2 -> conflictsGrow Q s2 s3 -> conflictsGrow Q s1 s3.
Proof.
  intros s1 s2 s3 (N1 & M1 & B1) (N2 & M2 & B2). repeat split; auto.
  intros L d H. destruct (B2 L d H) as [H2|H2]; auto.
Qed.

Lemma conflictsGrow_weaken (Q Q' : BabelNodeSourceLocation -> CompilerDiagnostic -> Prop)
    (s s' : State) :
  (forall L d, Q L d -> Q' L d) -> conflictsGrow Q s s' -> conflictsGrow Q' s s'.
Proof.
  intros HQ (N & Mo & B). repeat split; auto.
  intros L d H. destruct (B L d H); auto.
Qed.

Lemma conflictsGrow_same Q (s s' : State) :
  conflicts s' = conflicts s -> conflictsGrow Q s s'.
Proof. intros E. unfold conflictsGrow. rewrite E. repeat split; auto. Qed.

Lemma NoDup_snoc {A} (l : list A) (k : A) :
  NoDup l -> ~ In k l -> NoDup (l ++ [k]).
Proof.
  induction l as [|x l IH]; simpl; intros Hnd Hk.
  - constructor; [intros []|constructor].
  - inversion Hnd as [|? ? Hx Hl]; subst. constructor.
    + rewrite in_app_iff. intros [H|[H|[]]]; [contradiction|]. apply Hk. now left.
    + apply IH; auto.
Qed.

Lemma reportConflict_grow (n : string) (L : BabelNodeSourceLocation) (s : State) :
  JSMap.has Nat.eq_dec (conflicts s) L = false ->
  conflictsGrow (fun L' d => d = Functions.PP1003 n L')
    s (snd (Functions.reportConflict n L s)).
Proof.
  intros Hfresh. unfold Functions.reportConflict, modify, conflictsGrow.
  cbn [snd conflicts set_conflicts].
  rewrite (JSMap_set_fresh _ _ _ Hfresh). repeat split.
  - intros Hnd. unfold JSMap.keys. rewrite map_app. simpl.
    apply NoDup_snoc; [exact Hnd|]. now apply JSMap_has_false_keys.
  - intros L' d H. now rewrite JSMap_get_app, H.
  - intros L' d. rewrite JSMap_get_app.
    destruct (JSMap.get Nat.eq_dec (conflicts s) L'); [now left|].
    simpl. destruct (Nat.eq_dec L L') as [<-|]; [|discriminate].
    intros [= <-]. now right.
Qed.

Lemma reportConflict_has (n : string) (L : BabelNodeSourceLocation) (s : State) :
  JSMap.has Nat.eq_dec (conflicts (snd (Functions.reportConflict n L s))) L = true.
Proof.
  unfold Functions.reportConflict, modify, JSMap.has. cbn [snd conflicts set_conflicts].
  now rewrite JSMap_get_set.
Qed.

Lemma callReportPropertyAccess_hooked (n : string) (pbs : PropertyBindings)
    (pb : PropertyBinding) (loc : option BabelNodeSourceLocation) (s : State) :
  reportPropertyAccess s = ConflictOnPropertyAccess n pbs ->
  Functions.callReportPropertyAccess rt pb loc s =
  if refuseSerializationOnPropertyBinding rt pb then (Returned tt, s)
  else match loc with
       | None => (Returned tt, s)
       | Some L =>
           if JSSet.has PropertyBinding_eq_dec pbs pb
              && negb (JSMap.has Nat.eq_dec (conflicts s) L)
           then Functions.reportConflict n L s
           else (Returned tt, s)
       end.
Proof.
  intros H. unfold Functions.callReportPropertyAccess, bind, gets. rewrite H.
  destruct (refuseSerializationOnPropertyBinding rt pb); [reflexivity|].
  destruct loc as [L|]; [|reflexivity].
  destruct (JSSet.has _ _ _ && _); reflexivity.
Qed.

Lemma callReportObjectGetOwnProperties_hooked (n : string) (wo : list ObjectRef)
    (ob : ObjectValue) (loc : option BabelNodeSourceLocation) (s : State) :
  reportObjectGetOwnProperties s = ConflictOnGetOwnProperties n wo ->
  Functions.callReportObjectGetOwnProperties ob loc s =
  match loc with
  | None => (Threw InvariantViolation, s)
  | Some L =>
      if JSSet.has ObjectRef_eq_dec wo (ConcreteObject ob)
         && negb (JSMap.has Nat.eq_dec (conflicts s) L)
      then Functions.reportConflict n L s
      else (Returned tt, s)
  end.
Proof.
  intros H. unfold Functions.callReportObjectGetOwnProperties, bind, gets. rewrite H.
  destruct loc as [L|]; [|reflexivity].
  destruct (JSSet.has _ _ _ && _); reflexivity.
Qed.

Ltac unchanged_state :=
  split; [split; assumption|]; split; [apply conflictsGrow_refl|intros _; reflexivity].

(** One step of a replay, the closures of [reportWriteConflicts] being the
    hooks: the hooks stay, and the map grows by diagnostics that name [n]. *)
Lemma runStep_replay (n : string) (pbs : PropertyBindings) (st : EvalStep) (s : State) :
  hooksAre n pbs s ->
  hooksAre n pbs (snd (runStep false st s))
  /\ conflictsGrow (fun L d => d = Functions.PP1003 n L) s (snd (runStep false st s))
  /\ (~ enumerationWithoutLocation st -> fst (runStep false st s) = Returned tt).
Proof.
  intros [Hpa Hgo]. destruct st as [pb loc|ob loc|v m|msg]; cbn [Functions.runStep].
  - rewrite (callReportPropertyAccess_hooked n pbs pb loc s Hpa).
    destruct (refuseSerializationOnPropertyBinding rt pb); [unchanged_state|].
    destruct loc as [L|]; [|unchanged_state].
    destruct (JSSet.has PropertyBinding_eq_dec pbs pb); [|unchanged_state].
    destruct (JSMap.has Nat.eq_dec (conflicts s) L) eqn:E; [unchanged_state|].
    cbn [andb negb]. split; [split; assumption|]. split; [|reflexivity].
    now apply reportConflict_grow.
  - rewrite (callReportObjectGetOwnProperties_hooked n _ ob loc s Hgo).
    destruct loc as [L|].
    2:{ split; [split; assumption|]. split; [apply conflictsGrow_refl|].
        simpl. tauto. }
    destruct (JSSet.has ObjectRef_eq_dec _ _); [|unchanged_state].
    destruct (JSMap.has Nat.eq_dec (conflicts s) L) eqn:E; [unchanged_state|].
    cbn [andb negb]. split; [split; assumption|]. split; [|reflexivity].
    now apply reportConflict_grow.
  - split; [split; assumption|]. split; [|reflexivity]. now apply conflictsGrow_same.
  - unchanged_state.
Qed.

Lemma steps_replay (n : string) (pbs : PropertyBindings) (sts : list EvalStep) :
  forall s,
    hooksAre n pbs s ->
    hooksAre n pbs (snd (forEach sts (runStep false) s))
    /\ conflictsGrow (fun L d => d = Functions.PP1003 n L)
         s (snd (forEach sts (runStep false) s))
    /\ (Forall (fun st => ~ enumerationWithoutLocation st) sts ->
         fst (forEach sts (runStep false) s) = Returned tt).
Proof.
  induction sts as [|st sts IH]; intros s Hh.
  - simpl. repeat split; try apply Hh; auto.
  - destruct (runStep_replay n pbs st s Hh) as (Hh1 & Hg1 & Hr1).
    cbn [forEach]. unfold bind.
    destruct (runStep false st s) as [[[]| |] s1] eqn:E; cbn [fst snd] in *.
    + destruct (IH s1 Hh1) as (Hh2 & Hg2 & Hr2). split; [exact Hh2|]. split.
      * eapply conflictsGrow_trans; eassumption.
      * intros Hall. inversion Hall; subst. auto.
    + split; [exact Hh1|]. split; [exact Hg1|].
      intros Hall. inversion Hall; subst. auto.
    + split; [exact Hh1|]. split; [exact Hg1|].
      intros Hall. inversion Hall; subst. auto.
Qed.

Lemma conflictsGrow_has Q (s s' : State) (L : BabelNodeSourceLocation) :
  conflictsGrow Q s s' ->
  JSMap.has Nat.eq_dec (conflicts s) L = true ->
  JSMap.has Nat.eq_dec (conflicts s') L = true.
Proof.
  intros (_ & Mo & _). unfold JSMap.has.
  destruct (JSMap.get Nat.eq_dec (conflicts s) L) as [d|] eqn:E; [|discriminate].
  now rewrite (Mo L d E).
Qed.

Lemma conflictsGrow_proper Q (s s' t t' : State) :
  conflicts t = conflicts s -> conflicts t' = conflicts s' ->
  conflictsGrow Q s s' -> conflictsGrow Q t t'.
Proof. unfold conflictsGrow. now intros -> ->. Qed.

(** What a recorded read leaves in the map: the entry that was there, or
    else the diagnostic that names [n]. *)
Lemma conflictsGrow_entry (n : string) (s s' : State) (L : BabelNodeSourceLocation) :
  conflictsGrow (fun L' d => d = Functions.PP1003 n L') s s' ->
  JSMap.has Nat.eq_dec (conflicts s') L = true ->
  JSMap.get Nat.eq_dec (conflicts s') L =
  match JSMap.get Nat.eq_dec (conflicts s) L with
  | Some d => Some d
  | None => Some (Functions.PP1003 n L)
  end.
Proof.
  intros (_ & Mo & B) H. unfold JSMap.has in H.
  destruct (JSMap.get Nat.eq_dec (conflicts s) L) as [d0|] eqn:E0.
  - apply Mo, E0.
  - destruct (JSMap.get Nat.eq_dec (conflicts s') L) as [d|] eqn:E; [|discriminate].
    destruct (B L d E) as [H1|H1]; congruence.
Qed.

Lemma steps_record (n : string) (pbs : PropertyBindings)
    (pre post : list EvalStep) (pb : PropertyBinding) (L : BabelNodeSourceLocation)
    (s : State) :
  hooksAre n pbs s ->
  Forall (fun st => ~ enumerationWithoutLocation st) pre ->
  In pb pbs ->
  refuseSerializationOnPropertyBinding rt pb = false ->
  JSMap.has Nat.eq_dec
    (conflicts (snd (forEach (pre ++ PropertyAccess pb (Some L) :: post)
                       (runStep false) s))) L = true.
Proof.
  intros Hh Hpre Hin Hrefuse. rewrite forEach_app.
  destruct (steps_replay n pbs pre s Hh) as (Hh1 & _ & Hr1). specialize (Hr1 Hpre).
  destruct (forEach pre (runStep false) s) as [o s1]. cbn [fst snd] in *. subst o.
  cbn [forEach]. unfold bind. cbn [Functions.runStep].
  rewrite (callReportPropertyAccess_hooked n pbs pb (Some L) s1 (proj1 Hh1)), Hrefuse.
  assert (Hhas : JSSet.has PropertyBinding_eq_dec pbs pb = true).
  { unfold JSSet.has. destruct (in_dec PropertyBinding_eq_dec pb pbs); tauto. }
  rewrite Hhas. cbn [andb].
  destruct (JSMap.has Nat.eq_dec (conflicts s1) L) eqn:E; cbn [negb].
  - destruct (steps_replay n pbs post s1 Hh1) as (_ & Hg & _).
    eapply conflictsGrow_has; [exact Hg|exact E].
  - pose proof (reportConflict_has n L s1) as H2.
    assert (Hh2 : hooksAre n pbs (snd (Functions.reportConflict n L s1))) by exact Hh1.
    destruct (Functions.reportConflict n L s1) as [[[]| |] s2] eqn:E2;
      try discriminate E2.
    cbn [snd] in *.
    destruct (steps_replay n pbs post s2 Hh2) as (_ & Hg & _).
    eapply conflictsGrow_has; [exact Hg|exact H2].
Qed.

Lemma evaluate_state (pure : bool) (call : Call) (s : State) :
  snd (evaluateForEffectsInGlobalEnv pure call s) =
  snd (forEach (steps (evaluate rt call (appliedEffects s))) (runStep pure)
         (addTrace [EvEvaluate pure call (appliedEffects s)] s)).
Proof.
  rewrite evaluate_run. destruct (forEach _ _ _) as [[[]| |] s1]; reflexivity.
Qed.

Lemma withConflictHooks_hooksAre (n : string) (pbs : PropertyBindings) (s : State)
    (evs : list Event) :
  hooksAre n pbs (addTrace evs (withConflictHooks n pbs s)).
Proof. split; reflexivity. Qed.

Lemma reportFn_grow (n : string) (e1 : Effects) (f2 : FunctionValue) (s : State) :
  conflictsGrow (fun L d => d = Functions.PP1003 n L) s (snd (reportFn n e1 f2 s)).
Proof.
  rewrite reportFn_run. destruct (synthesizedCall rt f2 None) as [c|].
  - cbn [snd]. rewrite evaluate_state.
    destruct (steps_replay n (modifiedProperties e1)
                (steps (evaluate rt c
                   (appliedEffects (withConflictHooks n (modifiedProperties e1) s))))
                _ (withConflictHooks_hooksAre n (modifiedProperties e1) s
                     [EvEvaluate false c
                        (appliedEffects (withConflictHooks n (modifiedProperties e1) s))]))
      as (_ & Hg & _).
    eapply conflictsGrow_proper; [| |exact Hg]; reflexivity.
  - destruct (hasCall f2); now apply conflictsGrow_same.
Qed.

Lemma reportFn_records (n : string) (e1 : Effects) (f2 : FunctionValue) (s : State)
    (c2 : Call) (pre post : list EvalStep) (pb : PropertyBinding)
    (L : BabelNodeSourceLocation) :
  synthesizedCall rt f2 None = Some c2 ->
  steps (evaluate rt c2 (appliedEffects s)) = pre ++ PropertyAccess pb (Some L) :: post ->
  Forall (fun st => ~ enumerationWithoutLocation st) pre ->
  In pb (modifiedProperties e1) ->
  refuseSerializationOnPropertyBinding rt pb = false ->
  JSMap.has Nat.eq_dec (conflicts (snd (reportFn n e1 f2 s))) L = true.
Proof.
  intros Hc Hsteps Hpre Hin Hrefuse. rewrite reportFn_run, Hc. cbn [snd].
  rewrite evaluate_state.
  change (appliedEffects (withConflictHooks n (modifiedProperties e1) s))
    with (appliedEffects s).
  rewrite Hsteps.
  exact (steps_record n (modifiedProperties e1) pre post pb L _
           (withConflictHooks_hooksAre n (modifiedProperties e1) s _)
           Hpre Hin Hrefuse).
Qed.

Lemma checkPair_grow (n : string) (e1 : Effects) (f1 f2 : FunctionValue) :
  stepwise (conflictsGrow (fun L d => d = Functions.PP1003 n L)) (checkPair n e1 f1 f2).
Proof.
  intros s. rewrite checkPair_run.
  destruct (FunctionValue_eq_dec f1 f2); [apply conflictsGrow_refl|].
  destruct (JSMap.get _ _ f2) as [r2|]; [|apply conflictsGrow_refl].
  destruct (parentAdditionalFunction r2) as [p|]; [|apply reportFn_grow].
  destruct (JSMap.get _ _ p) as [rp|]; [|apply conflictsGrow_refl].
  rewrite withEffectsApplied_run. cbn [snd].
  eapply conflictsGrow_proper;
    [| |exact (reportFn_grow n e1 f2
                 (set_appliedEffects (effects rp :: appliedEffects s) s))];
    reflexivity.
Qed.

Lemma checkPair_records (n : string) (e1 : Effects) (f1 f2 : FunctionValue)
    (s s' : State) (c2 : Call) (pre post : list EvalStep) (pb : PropertyBinding)
    (L : BabelNodeSourceLocation) :
  f1 <> f2 ->
  checkPair n e1 f1 f2 s = (Returned tt, s') ->
  synthesizedCall rt f2 None = Some c2 ->
  steps (evaluate rt c2 (replayBaseline (writeEffects s) (appliedEffects s) f2))
  = pre ++ PropertyAccess pb (Some L) :: post ->
  Forall (fun st => ~ enumerationWithoutLocation st) pre ->
  In pb (modifiedProperties e1) ->
  refuseSerializationOnPropertyBinding rt pb = false ->
  JSMap.has Nat.eq_dec (conflicts s') L = true.
Proof.
  intros Hne Hrun Hc Hsteps Hpre Hin Hrefuse.
  rewrite checkPair_run in Hrun. unfold replayBaseline in Hsteps.
  destruct (FunctionValue_eq_dec f1 f2); [contradiction|].
  destruct (JSMap.get _ _ f2) as [r2|]; [|discriminate].
  destruct (parentAdditionalFunction r2) as [p|].
  - destruct (JSMap.get _ _ p) as [rp|]; [|discriminate].
    rewrite withEffectsApplied_run in Hrun. injection Hrun as _ <-.
    exact (reportFn_records n e1 f2
             (set_appliedEffects (effects rp :: appliedEffects s) s)
             c2 pre post pb L Hc Hsteps Hpre Hin Hrefuse).
  - pose proof (reportFn_records n e1 f2 s c2 pre post pb L Hc Hsteps Hpre Hin Hrefuse)
      as H.
    now rewrite Hrun in H.
Qed.

(** ** How a replay ends *)

Lemma steps_replay_outcome (n : string) (pbs : PropertyBindings) (sts : list EvalStep) :
  forall s,
    hooksAre n pbs s ->
    fst (forEach sts (runStep false) s)
    = if existsb locationless sts then Threw InvariantViolation else Returned tt.
Proof.
  induction sts as [|st sts IH]; intros s Hh; [reflexivity|].
  cbn [forEach existsb]. unfold bind.
  destruct (locationless st) eqn:El.
  - destruct st as [pb loc|ob [L|]|v m|msg]; try discriminate El.
    cbn [Functions.runStep orb].
    now rewrite (callReportObjectGetOwnProperties_hooked n _ ob None s (proj2 Hh)).
  - destruct (runStep_replay n pbs st s Hh) as (Hh1 & _ & Hr1).
    assert (Hst : ~ enumerationWithoutLocation st).
    { destruct st as [pb loc|ob [L|]|v m|msg]; cbn; auto; discriminate El. }
    specialize (Hr1 Hst).
    destruct (runStep false st s) as [o s1]. cbn [fst snd] in *. subst o.
    cbn [orb]. apply IH, Hh1.
Qed.

Lemma evaluate_replay_outcome (n : string) (pbs : PropertyBindings) (call : Call)
    (s : State) :
  hooksAre n pbs s ->
  afterIgnoring rt (fst (evaluateForEffectsInGlobalEnv false call s))
  = replayOutcome rt (evaluate rt call (appliedEffects s)).
Proof.
  intros Hh. rewrite evaluate_run. unfold replayOutcome, replayError.
  pose proof (steps_replay_outcome n pbs (steps (evaluate rt call (appliedEffects s)))
                (addTrace [EvEvaluate false call (appliedEffects s)] s)
                ltac:(split; apply Hh)) as Ho.
  destruct (forEach _ _ _) as [o s1]. cbn [fst] in Ho. subst o.
  destruct (existsb locationless _); [reflexivity|].
  destruct (final _); reflexivity.
Qed.

Lemma reportFn_outcome (n : string) (e1 : Effects) (f2 : FunctionValue) (s : State)
    (c2 : Call) :
  synthesizedCall rt f2 None = Some c2 ->
  fst (reportFn n e1 f2 s) = replayOutcome rt (evaluate rt c2 (appliedEffects s)).
Proof.
  intros Hc. rewrite reportFn_run, Hc. cbn [fst].
  apply (evaluate_replay_outcome n (modifiedProperties e1) c2
           (withConflictHooks n (modifiedProperties e1) s)).
  split; reflexivity.
Qed.

Lemma reportFn_trace (n : string) (e1 : Effects) (f2 : FunctionValue) (s : State)
    (c2 : Call) :
  synthesizedCall rt f2 None = Some c2 ->
  trace (snd (reportFn n e1 f2 s))
  = trace s ++ [EvEvaluate false c2 (appliedEffects s)].
Proof.
  intros Hc. rewrite reportFn_run, Hc. cbn [snd].
  exact (evaluate_replay_trace c2 (withConflictHooks n (modifiedProperties e1) s)).
Qed.

(** The replay of a pair for which the table has what the loop reads. *)
Lemma checkPair_replays (n : string) (e1 : Effects) (f1 f2 : FunctionValue) (s : State)
    (r2 : AdditionalFunctionEffects) :
  f1 <> f2 ->
  JSMap.get FunctionValue_eq_dec (writeEffects s) f2 = Some r2 ->
  (forall p, parentAdditionalFunction r2 = Some p ->
             JSMap.get FunctionValue_eq_dec (writeEffects s) p <> None) ->
  snd (checkPair n e1 f1 f2 s)
  = set_appliedEffects (appliedEffects s)
      (snd (reportFn n e1 f2
              (set_appliedEffects
                 (replayBaseline (writeEffects s) (appliedEffects s) f2) s)))
  /\ appliedEffects
       (set_appliedEffects (replayBaseline (writeEffects s) (appliedEffects s) f2) s)
     = replayBaseline (writeEffects s) (appliedEffects s) f2.
Proof.
  intros Hne Hr2 Hparent. split; [|reflexivity].
  rewrite checkPair_run. unfold replayBaseline.
  destruct (FunctionValue_eq_dec f1 f2); [contradiction|]. rewrite Hr2.
  destruct (parentAdditionalFunction r2) as [p|] eqn:Ep.
  - destruct (JSMap.get FunctionValue_eq_dec (writeEffects s) p) as [rp|] eqn:Erp;
      [|exfalso; now apply (Hparent p)].
    now rewrite withEffectsApplied_run.
  - pose proof (reportFn_keeps_appliedEffects n e1 f2 s) as Ha. unfold keeps in Ha.
    assert (Hs : set_appliedEffects (appliedEffects s) s = s) by (now destruct s).
    rewrite Hs. destruct (reportFn n e1 f2 s) as [o [? ? ? ? ? ? ? ? ? ? ? ?]].
    cbn in Ha |- *. now subst.
Qed.

Lemma checkPair_outcome (n : string) (e1 : Effects) (f1 f2 : FunctionValue) (s : State)
    (r2 : AdditionalFunctionEffects) (c2 : Call) :
  f1 <> f2 ->
  JSMap.get FunctionValue_eq_dec (writeEffects s) f2 = Some r2 ->
  (forall p, parentAdditionalFunction r2 = Some p ->
             JSMap.get FunctionValue_eq_dec (writeEffects s) p <> None) ->
  synthesizedCall rt f2 None = Some c2 ->
  fst (checkPair n e1 f1 f2 s)
  = replayOutcome rt
      (evaluate rt c2 (replayBaseline (writeEffects s) (appliedEffects s) f2)).
Proof.
  intros Hne Hr2 Hparent Hc. rewrite checkPair_run. unfold replayBaseline.
  destruct (FunctionValue_eq_dec f1 f2); [contradiction|]. rewrite Hr2.
  destruct (parentAdditionalFunction r2) as [p|] eqn:Ep.
  - destruct (JSMap.get FunctionValue_eq_dec (writeEffects s) p) as [rp|] eqn:Erp;
      [|exfalso; now apply (Hparent p)].
    rewrite withEffectsApplied_run. cbn [fst].
    exact (reportFn_outcome n e1 f2 _ c2 Hc).
  - exact (reportFn_outcome n e1 f2 s c2 Hc).
Qed.

(** C10 (amended): whatever the replayed evaluation does, the two
    interception hooks of the realm are, when [reportWriteConflicts] hands
    control back, the ones that were installed before the call, on a return
    and on a throw alike.  The caller gets a return when the replay returns
    and when it ends by an error that [ignoreErrorsIn] ignores; any other
    error of the replay, the violated invariant of an enumeration without a
    location among them, is thrown to the caller. *)
Theorem reportWriteConflicts_restores_hooks (fname : string)
    (pbs : PropertyBindings) (call2 : Call) (s : State) :
  let r := reportWriteConflicts fname pbs call2 s in
  reportPropertyAccess (snd r) = reportPropertyAccess s
  /\ reportObjectGetOwnProperties (snd r) = reportObjectGetOwnProperties s
  /\ fst r =
     match replayError (evaluate rt call2 (appliedEffects s)) with
     | None => Returned tt
     | Some e => if ignoresError rt e then Returned tt else Threw e
     end.
Proof.
  cbv zeta. rewrite reportWriteConflicts_run. cbn [fst snd]. repeat split.
  apply (evaluate_replay_outcome fname pbs call2 (withConflictHooks fname pbs s)).
  split; reflexivity.
Qed.

(** C2 (amended): the replay of [f2] against the write set of another function
    runs under the effects of the parent that the record of [f2] names, applied
    on top of the ones in force, and under the ones in force alone when the
    record names no parent; the effects in force are the same again afterwards.
    Whoever the writer is, the parent of [f2] included, a read of the replay
    that hits the write set, at a location, is entered in the conflict map
    unless that location already has an entry.  The caller gets the end of the
    replay: a return, or the error of the replay that [ignoreErrorsIn] does not
    ignore. *)
Theorem replay_baseline_follows_parent (n : string) (e1 : Effects)
    (f1 f2 : FunctionValue) (s : State) (r2 : AdditionalFunctionEffects) (c2 : Call) :
  f1 <> f2 ->
  JSMap.get FunctionValue_eq_dec (writeEffects s) f2 = Some r2 ->
  (forall p, parentAdditionalFunction r2 = Some p ->
             JSMap.get FunctionValue_eq_dec (writeEffects s) p <> None) ->
  fst (_callOfFunction f2 None s) = Returned c2 ->
  let base := replayBaseline (writeEffects s) (appliedEffects s) f2 in
  let r := checkPair n e1 f1 f2 s in
  (parentAdditionalFunction r2 = None -> base = appliedEffects s)
  /\ (forall p rp, parentAdditionalFunction r2 = Some p ->
                   JSMap.get FunctionValue_eq_dec (writeEffects s) p = Some rp ->
                   base = effects rp :: appliedEffects s)
  /\ fst r = replayOutcome rt (evaluate rt c2 base)
  /\ trace (snd r) = trace s ++ [EvEvaluate false c2 base]
  /\ appliedEffects (snd r) = appliedEffects s
  /\ (forall pre post pb L,
        steps (evaluate rt c2 base) = pre ++ PropertyAccess pb (Some L) :: post ->
        Forall (fun st => ~ enumerationWithoutLocation st) pre ->
        In pb (modifiedProperties e1) ->
        refuseSerializationOnPropertyBinding rt pb = false ->
        JSMap.get Nat.eq_dec (conflicts (snd r)) L =
        match JSMap.get Nat.eq_dec (conflicts s) L with
        | Some d => Some d
        | None => Some (Functions.PP1003 n L)
        end).
Proof.
  intros Hne Hr2 Hparent Hc base r. apply callOfFunction_returns_iff in Hc.
  destruct (checkPair_replays n e1 f1 f2 s r2 Hne Hr2 Hparent) as [Hsnd Hbase].
  fold base in Hsnd, Hbase.
  split; [|split; [|split; [|split; [|split]]]].
  - intros Ep. subst base. unfold replayBaseline. now rewrite Hr2, Ep.
  - intros p rp Ep Erp. subst base. unfold replayBaseline. now rewrite Hr2, Ep, Erp.
  - exact (checkPair_outcome n e1 f1 f2 s r2 c2 Hne Hr2 Hparent Hc).
  - subst r. rewrite Hsnd. cbn [trace set_appliedEffects].
    rewrite (reportFn_trace n e1 f2 _ c2 Hc). now rewrite Hbase.
  - exact (checkPair_keeps_appliedEffects n e1 f1 f2 s).
  - intros pre post pb L Hsteps Hpre Hin Hrefuse.
    apply conflictsGrow_entry; [exact (checkPair_grow n e1 f1 f2 s)|].
    subst r. rewrite Hsnd. cbn [conflicts set_appliedEffects].
    apply (reportFn_records n e1 f2 _ c2 pre post pb L Hc); auto.
Qed.

(** ** One diagnostic per location *)

Lemma checkFunction_grow (test : EvaluationResult -> bool) (f1 : FunctionValue) :
  stepwise (conflictsGrow (fun L d => exists n, d = Functions.PP1003 n L))
           (checkFunction test f1).
Proof.
  intros s. rewrite checkFunction_run.
  destruct (JSMap.get _ _ f1) as [r|]; [|apply conflictsGrow_refl]. cbv zeta.
  destruct (test (result (effects r))); [now apply conflictsGrow_same|].
  apply (conflictsGrow_weaken
           (fun L d => d = Functions.PP1003
                             (Functions.nameOfFunction (functionExpressions s) f1) L)).
  - intros L d ->. eexists; reflexivity.
  - apply (stepwise_forEach _ (conflictsGrow_refl _) (conflictsGrow_trans _)).
    intros f2 _. apply checkPair_grow.
Qed.

Lemma outer_loop_grow (test : EvaluationResult -> bool) (fs : list FunctionValue) :
  stepwise (conflictsGrow (fun L d => exists n, d = Functions.PP1003 n L))
           (forEach fs (checkFunction test)).
Proof.
  apply (stepwise_forEach _ (conflictsGrow_refl _) (conflictsGrow_trans _)).
  intros f1 _. apply checkFunction_grow.
Qed.

Lemma JSMap_get_In {V} (m : list (nat * V)) (k : nat) (v : V) :
  NoDup (JSMap.keys m) -> In (k, v) m -> JSMap.get Nat.eq_dec m k = Some v.
Proof.
  induction m as [|[k' v'] m IH]; simpl; [tauto|].
  intros Hnd [H|H].
  - injection H as -> ->. destruct (Nat.eq_dec k k); congruence.
  - inversion Hnd as [|? ? Hk Hm]; subst.
    destruct (Nat.eq_dec k' k) as [->|].
    + exfalso. apply Hk. unfold JSMap.keys. now apply (in_map fst) in H.
    + now apply IH.
Qed.

Lemma forEach_app_returned {A} (l1 l2 : list A) (body : A -> M unit) (s s' : State) :
  forEach (l1 ++ l2) body s = (Returned tt, s') ->
  exists s1, forEach l1 body s = (Returned tt, s1)
             /\ forEach l2 body s1 = (Returned tt, s').
Proof.
  rewrite forEach_app. destruct (forEach l1 body s) as [[[]| |] s1]; try discriminate.
  intros H. now exists s1.
Qed.

(** C3 (amended): across the whole verification the conflict map has at most
    one diagnostic per location, each of them the PP1003 diagnostic of that
    location.  When the loops run to their end, [A] has [pb] in its write set
    and the replay of another function [B] reads [pb] at location [L], however
    many times, the map has its one entry at [L]: the one that was there when
    the iteration of [A] began, if there was one, and else the diagnostic that
    names [A]. *)
Theorem one_diagnostic_per_location (test : EvaluationResult -> bool) (s : State) :
  let s' := snd (independenceLoop test s) in
  NoDup (JSMap.keys (conflicts s'))
  /\ (forall L d, In (L, d) (conflicts s') -> exists n, d = Functions.PP1003 n L)
  /\ (forall pre A post B rA c2 pb L stepsPre stepsPost s1,
        additionalFunctions s = pre ++ A :: post ->
        In B (additionalFunctions s) ->
        A <> B ->
        forEach pre (checkFunction test) (set_conflicts [] s) = (Returned tt, s1) ->
        JSMap.get FunctionValue_eq_dec (writeEffects s) A = Some rA ->
        In pb (modifiedProperties (effects rA)) ->
        refuseSerializationOnPropertyBinding rt pb = false ->
        fst (_callOfFunction B None s) = Returned c2 ->
        steps (evaluate rt c2 (replayBaseline (writeEffects s) (appliedEffects s) B))
        = stepsPre ++ PropertyAccess pb (Some L) :: stepsPost ->
        Forall (fun st => ~ enumerationWithoutLocation st) stepsPre ->
        fst (independenceLoop test s) = Returned tt ->
        JSMap.get Nat.eq_dec (conflicts s') L =
        match JSMap.get Nat.eq_dec (conflicts s1) L with
        | Some d => Some d
        | None =>
            Some (Functions.PP1003
                    (Functions.nameOfFunction (functionExpressions s) A) L)
        end).
Proof.
  intros s'. subst s'. rewrite independenceLoop_run.
  pose proof (outer_loop_grow test (additionalFunctions s) (set_conflicts [] s))
    as (Hnd & _ & Hnew).
  specialize (Hnd (NoDup_nil _)).
  split; [exact Hnd|]. split.
  { intros L d Hin. destruct (Hnew L d (JSMap_get_In _ _ _ Hnd Hin)) as [H|H];
      [discriminate H|exact H]. }
  intros pre A post B rA c2 pb L stepsPre stepsPost s1
         Hfs HB Hne Hpre HrA Hpb Hrefuse Hc Hsteps Hok Hret.
  apply callOfFunction_returns_iff in Hc.
  destruct (forEach (additionalFunctions s) (checkFunction test) (set_conflicts [] s))
    as [o s'] eqn:Hloop. cbn [fst snd] in *. subst o.
  rewrite Hfs in Hloop.
  destruct (forEach_app_returned _ _ _ _ _ Hloop) as (s1' & Hpre' & Hrest).
  rewrite Hpre in Hpre'. injection Hpre' as <-.
  destruct (outer_loop_returned test pre _ _ Hpre) as [[HT HA] _].
  cbn in HT, HA. unfold tables in HT. injection HT as Hwe Hfe Haf.
  cbn [forEach] in Hrest. unfold bind in Hrest.
  destruct (checkFunction test A s1) as [[[]| |] s2] eqn:HcA; try discriminate.
  pose proof (outer_loop_grow test post s2) as Hg3. rewrite Hrest in Hg3. cbn [snd] in Hg3.
  rewrite checkFunction_run, Hwe, HrA in HcA. cbv zeta in HcA.
  destruct (test (result (effects rA))); [discriminate|].
  rewrite Hfe, Haf in HcA.
  destruct (in_split _ _ HB) as (l1 & l2 & Hsplit). rewrite Hsplit in HcA.
  destruct (forEach_app_returned _ _ _ _ _ HcA) as (t1 & Hl1 & Hl2).
  cbn [forEach] in Hl2. unfold bind in Hl2.
  set (nA := Functions.nameOfFunction (functionExpressions s) A) in *.
  destruct (checkPair nA (effects rA) A B t1) as [[[]| |] t2] eqn:HcP; try discriminate.
  destruct (inner_loop_returned nA (effects rA) A l1 s1 t1 Hl1) as [[HT1 HA1] _].
  unfold tables in HT1. injection HT1 as Hwe1 _ _.
  assert (Hhas : JSMap.has Nat.eq_dec (conflicts t2) L = true).
  { apply (checkPair_records nA (effects rA) A B t1 t2 c2 stepsPre stepsPost pb L
             Hne HcP Hc); auto.
    now rewrite Hwe1, Hwe, HA1, HA. }
  assert (Hg1 : conflictsGrow (fun L' d => d = Functions.PP1003 nA L') s1 t1).
  { pose proof (stepwise_forEach _ (conflictsGrow_refl _) (conflictsGrow_trans _)
                  l1 (checkPair nA (effects rA) A)
                  (fun f2 _ => checkPair_grow nA (effects rA) A f2) s1) as H.
    now rewrite Hl1 in H. }
  assert (Hg2 : conflictsGrow (fun L' d => d = Functions.PP1003 nA L') t1 t2).
  { pose proof (checkPair_grow nA (effects rA) A B t1) as H. now rewrite HcP in H. }
  assert (Hg2' : conflictsGrow (fun L' d => d = Functions.PP1003 nA L') t2 s2).
  { pose proof (stepwise_forEach _ (conflictsGrow_refl _) (conflictsGrow_trans _)
                  l2 (checkPair nA (effects rA) A)
                  (fun f2 _ => checkPair_grow nA (effects rA) A f2) t2) as H.
    now rewrite Hl2 in H. }
  pose proof (conflictsGrow_entry nA s1 t2 L
                (conflictsGrow_trans _ _ _ _ Hg1 Hg2) Hhas) as Hentry.
  destruct Hg2' as (_ & Mo2 & _). destruct Hg3 as (_ & Mo3 & _).
  destruct (JSMap.get Nat.eq_dec (conflicts s1) L) as [d0|];
    apply Mo3, Mo2, Hentry.
Qed.

(** ** The effects in force after the capture *)

Lemma generateLoop_keeps_appliedEffects (entries : list (Value * option ArgModel)) :
  forall acc, stepwise (keeps appliedEffects) (generateLoop entries acc).
Proof.
  induction entries as [|[v m] l IH]; intros acc.
  - cbn [Functions.generateLoop]. keeps_tac.
  - rewrite generateLoop_cons. destruct (registeredFunction v); [|keeps_tac].
    apply stepwise_bind; [apply keeps_trans|keeps_tac|intros valid].
    destruct (negb valid); [|apply IH].
    apply stepwise_bind; [apply keeps_trans|keeps_tac|intros r].
    destruct r; [keeps_tac|apply IH].
Qed.

Lemma captureWriteEffects_keeps_appliedEffects (env : nat) (f : FunctionValue)
    (am : option ArgModel) :
  stepwise (keeps appliedEffects) (captureWriteEffects env f am).
Proof.
  unfold Functions.captureWriteEffects, Functions.createAdditionalEffects.
  keeps_tac. apply callOfFunction_keeps_appliedEffects.
Qed.

Lemma recordWriteEffects_keeps_appliedEffects (fuel env : nat) (f : FunctionValue)
    (am : option ArgModel) :
  stepwise (keeps appliedEffects)
    (Functions.recordWriteEffectsForOptimizedFunctionAndNestedFunctions rt fuel env f am).
Proof.
  destruct fuel as [|fuel];
    cbn [Functions.recordWriteEffectsForOptimizedFunctionAndNestedFunctions].
  - intros s. reflexivity.
  - apply stepwise_bind; [apply keeps_trans| |intros afe].
    + apply captureWriteEffects_keeps_appliedEffects.
    + apply stepwise_bind; [apply keeps_trans| |intros _].
      * intros s. rewrite withEffectsApplied_run. reflexivity.
      * unfold Functions.popStack. keeps_tac.
Qed.

(** The capture leaves in force the effects that were in force when it began:
    every scoped commit has ended when the verification starts. *)
Lemma captureAll_keeps_appliedEffects (fuel env : nat) :
  stepwise (keeps appliedEffects) (Functions.captureAll rt fuel env).
Proof.
  unfold Functions.captureAll, Functions._generateOptimizedFunctionsFromRealm,
    Functions._withEmptyOptimizedFunctionList.
  keeps_tac;
    first [ apply generateLoop_keeps_appliedEffects
          | apply recordWriteEffects_keeps_appliedEffects ].
Qed.

(** * Further properties *)

(** ** The stack of functions being processed *)

Lemma withEmptyOptimizedFunctionList_run (entry : AdditionalFunctionEntry)
    (func : FunctionValue -> option ArgModel -> M unit) (s : State) :
  Functions._withEmptyOptimizedFunctionList entry func s =
  match func (value entry) (argModel entry) (beforeCallback entry s) with
  | (Returned _, s2) =>
      (Returned tt, afterCallback (optimizedFunctions s) (optimizedFunctionId s) s2)
  | (Threw e, s2) => (Threw e, s2)
  | (OutOfFuel, s2) => (OutOfFuel, s2)
  end.
Proof.
  unfold Functions._withEmptyOptimizedFunctionList.
  unfold bind at 1, gets at 1. unfold bind at 1, modify at 1.
  unfold bind at 1, gets at 1. unfold bind at 1, modify at 1.
  unfold bind at 1, gets at 1. unfold bind at 1.
  rewrite forEach_emit. unfold bind at 1.
  change (addTrace _ _) with (beforeCallback entry s).
  destruct (func (value entry) (argModel entry) (beforeCallback entry s))
    as [[[]|e|] s2]; try reflexivity.
  unfold bind at 1, gets at 1. unfold bind at 1. rewrite forEach_emit.
  now rewrite forEach_setOptimizedFunction.
Qed.

Lemma balanced_of_keeps {A} (m : M A) :
  stepwise (keeps additionalFunctionStack) m -> balanced m.
Proof.
  intros H s. specialize (H s). unfold keeps in H.
  destruct (fst (m s)); [exact H| |]; exists []; now rewrite app_nil_r.
Qed.

Lemma balanced_bind {A B} (m : M A) (k : A -> M B) :
  balanced m -> (forall a, balanced (k a)) -> balanced (bind m k).
Proof.
  intros Hm Hk s. unfold bind. specialize (Hm s).
  destruct (m s) as [[a| |] s1]; cbn [fst snd] in *; try exact Hm.
  specialize (Hk a s1). rewrite Hm in Hk. exact Hk.
Qed.

Lemma balanced_forEach {A} (l : list A) (body : A -> M unit) :
  (forall x, balanced (body x)) -> balanced (forEach l body).
Proof.
  intros H. induction l as [|x l IH]; cbn [forEach].
  - intros s. reflexivity.
  - apply balanced_bind; auto.
Qed.

Lemma balanced_withEffectsApplied {A} (body : M A) (e : Effects) :
  balanced body -> balanced (Functions.withEffectsAppliedInGlobalEnv body e).
Proof.
  intros H s. rewrite withEffectsApplied_run. cbn [fst snd].
  exact (H (set_appliedEffects (e :: appliedEffects s) s)).
Qed.

Lemma balanced_withEmpty (entry : AdditionalFunctionEntry)
    (func : FunctionValue -> option ArgModel -> M unit) :
  balanced (func (value entry) (argModel entry)) ->
  balanced (Functions._withEmptyOptimizedFunctionList entry func).
Proof.
  intros H s. rewrite withEmptyOptimizedFunctionList_run.
  specialize (H (beforeCallback entry s)).
  destruct (func (value entry) (argModel entry) (beforeCallback entry s))
    as [[[]| |] s2]; exact H.
Qed.

Lemma generateLoop_keeps_stack (entries : list (Value * option ArgModel)) :
  forall acc, stepwise (keeps additionalFunctionStack) (generateLoop entries acc).
Proof.
  induction entries as [|[v m] l IH]; intros acc.
  - cbn [Functions.generateLoop]. keeps_tac.
  - rewrite generateLoop_cons. destruct (registeredFunction v); [|keeps_tac].
    apply stepwise_bind; [apply keeps_trans|keeps_tac|intros valid].
    destruct (negb valid); [|apply IH].
    apply stepwise_bind; [apply keeps_trans|keeps_tac|intros r].
    destruct r; [keeps_tac|apply IH].
Qed.

Lemma captureWriteEffects_stack (env : nat) (f : FunctionValue)
    (am : option ArgModel) (s : State) :
  additionalFunctionStack (snd (captureWriteEffects env f am s))
  = additionalFunctionStack s ++ [f].
Proof.
  assert (H : stepwise (keeps additionalFunctionStack)
                (call <- _callOfFunction f am ;;
                 e <- evaluateForEffectsInGlobalEnv true call ;;
                 parent <- Functions.getDeclaringAdditionalFunction f ;;
                 match Functions.createAdditionalEffects e env parent with
                 | None => throw InvariantViolation
                 | Some additionalFunctionEffects =>
                     known <- gets (fun s => JSMap.has FunctionValue_eq_dec
                                               (writeEffects s) f) ;;
                     (if known then
                        r <- handleError (Functions.PP1009 f) ;;
                        match r with
                        | Recover => ret tt
                        | Fail => throw (FatalError None)
                        end
                      else ret tt) ;;
                     modify (fun s => set_writeEffects
                               (JSMap.set FunctionValue_eq_dec (writeEffects s) f
                                  additionalFunctionEffects) s) ;;
                     ret additionalFunctionEffects
                 end)).
  { unfold Functions.createAdditionalEffects. keeps_tac.
    intros t. rewrite callOfFunction_synthesized.
    destruct (synthesizedCall rt f am); [|destruct (hasCall f)]; reflexivity. }
  unfold Functions.captureWriteEffects, bind at 1, modify at 1.
  exact (H (pushed f s)).
Qed.

Lemma recordWriteEffects_stack (fuel env : nat) :
  forall (f : FunctionValue) (am : option ArgModel) (s s' : State) (o : Outcome unit),
    Functions.recordWriteEffectsForOptimizedFunctionAndNestedFunctions rt fuel env f am s
    = (o, s') ->
    match o with
    | Returned _ => additionalFunctionStack s' = additionalFunctionStack s
    | Threw _ =>
        exists rest, additionalFunctionStack s' = additionalFunctionStack s ++ f :: rest
    | OutOfFuel =>
        exists rest, additionalFunctionStack s' = additionalFunctionStack s ++ rest
    end.
Proof.
  induction fuel as [|fuel IH]; intros f am s s' o Hrun.
  - injection Hrun as <- <-. exists []. now rewrite app_nil_r.
  - assert (Hb : forall g gm,
               balanced (Functions.recordWriteEffectsForOptimizedFunctionAndNestedFunctions
                           rt fuel env g gm)).
    { intros g gm t.
      destruct (Functions.recordWriteEffectsForOptimizedFunctionAndNestedFunctions
                  rt fuel env g gm t) as [o1 t1] eqn:E.
      specialize (IH g gm t t1 o1 E). cbn [fst snd].
      destruct o1; [exact IH| |exact IH].
      destruct IH as [rest H]. now exists (g :: rest). }
    cbn [Functions.recordWriteEffectsForOptimizedFunctionAndNestedFunctions] in Hrun.
    unfold bind at 1 in Hrun.
    pose proof (captureWriteEffects_stack env f am s) as Hpush.
    destruct (captureWriteEffects env f am s) as [[afe|e|] s1]; cbn [fst snd] in *.
    2:{ injection Hrun as <- <-. exists []. exact Hpush. }
    2:{ injection Hrun as <- <-. exists [f]. exact Hpush. }
    unfold bind at 1 in Hrun.
    match type of Hrun with
    | context [Functions.withEffectsAppliedInGlobalEnv ?body ?e s1] =>
        assert (Hn : balanced (Functions.withEffectsAppliedInGlobalEnv body e))
    end.
    { apply balanced_withEffectsApplied. apply balanced_bind.
      - apply balanced_of_keeps. unfold Functions._generateOptimizedFunctionsFromRealm.
        apply stepwise_bind; [apply keeps_trans|keeps_tac|intros entries].
        apply generateLoop_keeps_stack.
      - intros newOptFuncs. apply balanced_forEach. intros newEntry.
        apply balanced_bind; [apply balanced_of_keeps; keeps_tac|intros _].
        apply balanced_withEmpty, Hb. }
    specialize (Hn s1).
    destruct (Functions.withEffectsAppliedInGlobalEnv _ _ s1) as [[[]|e|] s2];
      cbn [fst snd] in *.
    + assert (Hpop : Functions.popStack s2 =
                     (Returned (Some f),
                      set_additionalFunctionStack (additionalFunctionStack s) s2)).
      { unfold Functions.popStack, bind, gets, modify, ret. rewrite Hn, Hpush.
        rewrite map_app. cbn [map]. now rewrite last_last, removelast_last. }
      unfold bind at 1 in Hrun. rewrite Hpop in Hrun.
      unfold Functions.sameFunction in Hrun.
      destruct (FunctionValue_eq_dec f f); [|congruence].
      injection Hrun as <- <-. reflexivity.
    + injection Hrun as <- <-. destruct Hn as [rest Hn]. exists rest.
      rewrite Hn, Hpush, <- app_assoc. reflexivity.
    + injection Hrun as <- <-. destruct Hn as [rest Hn]. exists (f :: rest).
      rewrite Hn, Hpush, <- app_assoc. reflexivity.
Qed.

(** X1: a function whose processing returns has been taken off the stack, which
    is then as it was before; when the processing throws, the function is still
    on the stack, above what was there: the check of line 305 is never the one
    that fails. *)
Theorem recordWriteEffects_keeps_stack_discipline (fuel env : nat)
    (f : FunctionValue) (am : option ArgModel) (s : State) :
  let r := Functions.recordWriteEffectsForOptimizedFunctionAndNestedFunctions
             rt fuel env f am s in
  match fst r with
  | Returned _ => additionalFunctionStack (snd r) = additionalFunctionStack s
  | Threw _ =>
      exists rest, additionalFunctionStack (snd r) = additionalFunctionStack s ++ f :: rest
  | OutOfFuel =>
      exists rest, additionalFunctionStack (snd r) = additionalFunctionStack s ++ rest
  end.
Proof.
  intros r. subst r.
  destruct (Functions.recordWriteEffectsForOptimizedFunctionAndNestedFunctions
              rt fuel env f am s) as [o s'] eqn:E.
  exact (recordWriteEffects_stack fuel env f am s s' o E).
Qed.

(** ** The table of write effects after the capture *)

Section JSMapFacts.
Context {K V : Type} (eq_dec : forall a b : K, {a = b} + {a <> b}).

Lemma JSMap_In_set (m : list (K * V)) (k k' : K) (v v' : V) :
  In (k', v') (JSMap.set eq_dec m k v) -> (k', v') = (k, v) \/ In (k', v') m.
Proof.
  induction m as [|[k0 v0] m IH]; simpl.
  - intros [H|[]]. left. now symmetry.
  - destruct (eq_dec k0 k); simpl.
    + intros [H|H]; [left; now symmetry|right; now right].
    + intros [H|H]; [right; now left|]. destruct (IH H); auto.
Qed.

Lemma JSMap_get_set_other (m : list (K * V)) (k k' : K) (v : V) :
  k <> k' -> JSMap.get eq_dec (JSMap.set eq_dec m k v) k' = JSMap.get eq_dec m k'.
Proof.
  intros Hne. induction m as [|[k0 v0] m IH]; simpl.
  - destruct (eq_dec k k'); congruence.
  - destruct (eq_dec k0 k) as [->|]; simpl.
    + destruct (eq_dec k k'); congruence.
    + destruct (eq_dec k0 k'); auto.
Qed.

Lemma JSMap_has_set (m : list (K * V)) (k p : K) (v : V) :
  JSMap.has eq_dec m p = true -> JSMap.has eq_dec (JSMap.set eq_dec m k v) p = true.
Proof.
  unfold JSMap.has. destruct (eq_dec k p) as [->|Hne].
  - now rewrite JSMap_get_set.
  - now rewrite JSMap_get_set_other.
Qed.

Lemma JSMap_has_set_same (m : list (K * V)) (k : K) (v : V) :
  JSMap.has eq_dec (JSMap.set eq_dec m k v) k = true.
Proof. unfold JSMap.has. now rewrite JSMap_get_set. Qed.

Lemma JSMap_get_some_In (m : list (K * V)) (k : K) (v : V) :
  JSMap.get eq_dec m k = Some v -> In (k, v) m.
Proof.
  induction m as [|[k0 v0] m IH]; simpl; [discriminate|].
  destruct (eq_dec k0 k) as [->|]; [intros [= ->]; now left|auto].
Qed.

Lemma JSMap_has_get (m : list (K * V)) (k : K) :
  JSMap.has eq_dec m k = true -> exists v, JSMap.get eq_dec m k = Some v.
Proof. unfold JSMap.has. destruct (JSMap.get eq_dec m k) as [v|]; [eauto|discriminate]. Qed.

Lemma JSMap_In_has (m : list (K * V)) (k : K) (v : V) :
  In (k, v) m -> JSMap.has eq_dec m k = true.
Proof.
  unfold JSMap.has. induction m as [|[k0 v0] m IH]; simpl; [tauto|].
  destruct (eq_dec k0 k); [reflexivity|]. intros [[= -> _]|H]; [congruence|auto].
Qed.

End JSMapFacts.

Lemma findDeclaring_has (we : list (FunctionValue * AdditionalFunctionEffects))
    (f p : FunctionValue) :
  Functions.findDeclaring we f = Some p -> JSMap.has FunctionValue_eq_dec we p = true.
Proof.
  intros H. apply findDeclaring_some in H. destruct H as (pre & r & post & -> & _).
  apply (JSMap_In_has FunctionValue_eq_dec _ p r). apply in_or_app. right. now left.
Qed.

(** Whether a call is synthesized does not depend on the argument model. *)
Lemma synthesizedCall_any_model (f : FunctionValue) (am am' : option ArgModel) :
  synthesizedCall rt f am <> None -> synthesizedCall rt f am' <> None.
Proof.
  unfold synthesizedCall. destruct (hasCall f); [|auto].
  destruct (Functions.hasParametersToModel f) as [params|]; [|discriminate].
  destruct (forallb isIdentifier params); [discriminate|auto].
Qed.

Lemma tableGrows_refl : forall s, tableGrows rt s s.
Proof. intros s. split; auto. Qed.

Lemma tableGrows_trans :
  forall s1 s2 s3, tableGrows rt s1 s2 -> tableGrows rt s2 s3 -> tableGrows rt s1 s3.
Proof. intros s1 s2 s3 [W1 K1] [W2 K2]. split; auto. Qed.

Lemma tableGrows_same (s s' : State) :
  writeEffects s' = writeEffects s -> tableGrows rt s s'.
Proof. intros E. unfold tableGrows. rewrite E. split; auto. Qed.

Lemma wellFormedTable_set (we : list (FunctionValue * AdditionalFunctionEffects))
    (f : FunctionValue) (e : Effects) :
  wellFormedTable rt we ->
  synthesizedCall rt f None <> None ->
  wellFormedTable rt
    (JSMap.set FunctionValue_eq_dec we f
       {| parentAdditionalFunction := Functions.findDeclaring we f; effects := e |}).
Proof.
  intros HW Hf g r Hin.
  destruct (JSMap_In_set FunctionValue_eq_dec _ _ _ _ _ Hin) as [[= -> ->]|Hold].
  - split; [exact Hf|]. cbn. intros p Hp.
    apply JSMap_has_set. now apply (findDeclaring_has we f p).
  - destruct (HW g r Hold) as [H1 H2]. split; [exact H1|].
    intros p Hp. apply JSMap_has_set. auto.
Qed.

Lemma captureWriteEffects_tableGrows (env : nat) (f : FunctionValue)
    (am : option ArgModel) :
  stepwise (tableGrows rt) (captureWriteEffects env f am).
Proof.
  intros s. rewrite captureWriteEffects_run.
  pose proof (callOfFunction_keeps_tables f am (pushed f s)) as H1.
  pose proof (callOfFunction_returns_iff f am (pushed f s)) as Hsyn.
  destruct (_callOfFunction f am (pushed f s)) as [[call| |] s1];
    cbn [fst snd] in *; unfold keeps, tables in H1;
    try (apply tableGrows_same; now injection H1).
  pose proof (evaluate_keeps_writeEffects true call s1) as H2. unfold keeps in H2.
  assert (Hwe1 : writeEffects s1 = writeEffects s) by now injection H1.
  assert (Hf : synthesizedCall rt f None <> None).
  { apply (synthesizedCall_any_model f am). rewrite (proj1 (Hsyn call) eq_refl).
    discriminate. }
  destruct (evaluateForEffectsInGlobalEnv true call s1) as [[e| |] s2];
    cbn [fst snd] in *; try (apply tableGrows_same; congruence).
  cbv zeta. rewrite H2, Hwe1.
  assert (Hset : forall t,
    tableGrows rt s
      (set_writeEffects
         (JSMap.set FunctionValue_eq_dec (writeEffects s) f
            {| parentAdditionalFunction := Functions.findDeclaring (writeEffects s) f;
               effects := e |}) t)).
  { intros t. split; cbn [writeEffects set_writeEffects].
    - intros HW. now apply wellFormedTable_set.
    - intros g Hg. now apply JSMap_has_set. }
  destruct (JSMap.has FunctionValue_eq_dec (writeEffects s) f); [|apply Hset].
  destruct (errorHandler rt (Functions.PP1009 f));
    [apply tableGrows_same; cbn; congruence|apply Hset].
Qed.

Ltac table_side :=
  solve [ apply tableGrows_refl | apply tableGrows_trans
        | intros ?; apply tableGrows_same; reflexivity ].

Lemma generateLoop_tableGrows (entries : list (Value * option ArgModel)) :
  forall acc, stepwise (tableGrows rt) (generateLoop entries acc).
Proof.
  induction entries as [|[v m] l IH]; intros acc.
  - cbn [Functions.generateLoop]. stepwise_tac table_side.
  - rewrite generateLoop_cons. destruct (registeredFunction v);
      [|stepwise_tac table_side].
    apply stepwise_bind; [apply tableGrows_trans|stepwise_tac table_side|intros valid].
    destruct (negb valid); [|apply IH].
    apply stepwise_bind; [apply tableGrows_trans|stepwise_tac table_side|intros r].
    destruct r; [stepwise_tac table_side|apply IH].
Qed.

Lemma recordWriteEffects_tableGrows (fuel env : nat) :
  forall (f : FunctionValue) (am : option ArgModel),
    stepwise (tableGrows rt)
      (Functions.recordWriteEffectsForOptimizedFunctionAndNestedFunctions rt fuel env f am).
Proof.
  induction fuel as [|fuel IH]; intros f am;
    cbn [Functions.recordWriteEffectsForOptimizedFunctionAndNestedFunctions].
  - intros s. apply tableGrows_refl.
  - apply stepwise_bind; [apply tableGrows_trans| |intros afe].
    { apply captureWriteEffects_tableGrows. }
    unfold Functions._generateOptimizedFunctionsFromRealm,
      Functions._withEmptyOptimizedFunctionList, Functions.popStack.
    stepwise_tac table_side;
      first [ apply generateLoop_tableGrows | apply IH ].
Qed.

Lemma captureAll_tableGrows (fuel env : nat) :
  stepwise (tableGrows rt) (Functions.captureAll rt fuel env).
Proof.
  unfold Functions.captureAll, Functions._generateOptimizedFunctionsFromRealm,
    Functions._withEmptyOptimizedFunctionList.
  stepwise_tac table_side;
    first [ apply generateLoop_tableGrows | apply recordWriteEffects_tableGrows ].
Qed.

Section OnReturn.

Variable R : State -> State -> Prop.
Hypothesis R_refl : forall s, R s s.
Hypothesis R_trans : forall s1 s2 s3, R s1 s2 -> R s2 s3 -> R s1 s3.

Lemma onReturn_of_stepwise {A} (m : M A) : stepwise R m -> onReturn R m.
Proof. intros H s a s' E. specialize (H s). now rewrite E in H. Qed.

Lemma onReturn_bind {A B} (m : M A) (k : A -> M B) :
  onReturn R m -> (forall a, onReturn R (k a)) -> onReturn R (bind m k).
Proof.
  intros Hm Hk s b s' E. unfold bind in E.
  destruct (m s) as [[a| |] s1] eqn:Em; try discriminate.
  eapply R_trans; [exact (Hm s a s1 Em)|exact (Hk a s1 b s' E)].
Qed.

(** Each element leaves something true of the state, which later steps keep. *)
Lemma onReturn_forEach_each {A} (Q : A -> State -> Prop) (l : list A)
    (body : A -> M unit) :
  (forall x s s', Q x s -> R s s' -> Q x s') ->
  (forall x, In x l -> onReturn (fun s s' => R s s' /\ Q x s') (body x)) ->
  onReturn (fun s s' => R s s' /\ forall x, In x l -> Q x s') (forEach l body).
Proof.
  intros Hstable. induction l as [|x l IH]; intros Hbody s a s' E.
  - injection E as _ <-. split; [apply R_refl|intros x []].
  - cbn [forEach] in E. unfold bind in E.
    destruct (body x s) as [[[]| |] s1] eqn:Ex; try discriminate.
    destruct (Hbody x (or_introl eq_refl) s tt s1 Ex) as [HR1 HQ1].
    destruct (IH (fun y Hy => Hbody y (or_intror Hy)) s1 a s' E) as [HR2 HQ2].
    split; [eapply R_trans; eassumption|].
    intros y [<-|Hy]; [eapply Hstable; eassumption|auto].
Qed.

End OnReturn.

Lemma candidatesCaptured_refl : forall s, candidatesCaptured s s.
Proof. intros s. split; auto. Qed.

Lemma candidatesCaptured_trans :
  forall s1 s2 s3,
    candidatesCaptured s1 s2 -> candidatesCaptured s2 s3 -> candidatesCaptured s1 s3.
Proof.
  intros s1 s2 s3 [K1 C1] [K2 C2]. split; [auto|].
  intros g Hg. destruct (C2 g Hg) as [H|H]; [|now right].
  destruct (C1 g H) as [H1|H1]; [now left|right; auto].
Qed.

Lemma candidatesCaptured_proper (s s' t t' : State) :
  writeEffects t = writeEffects s -> additionalFunctions t = additionalFunctions s ->
  writeEffects t' = writeEffects s' -> additionalFunctions t' = additionalFunctions s' ->
  candidatesCaptured s s' -> candidatesCaptured t t'.
Proof. unfold candidatesCaptured. now intros -> -> -> ->. Qed.

Lemma candidatesCaptured_of_tableGrows (s s' : State) :
  additionalFunctions s' = additionalFunctions s ->
  tableGrows rt s s' -> candidatesCaptured s s'.
Proof. intros E [_ K]. split; [exact K|]. intros g Hg. left. now rewrite <- E. Qed.

Lemma generate_keeps_candidates :
  stepwise (keeps additionalFunctions) _generateOptimizedFunctionsFromRealm.
Proof.
  unfold Functions._generateOptimizedFunctionsFromRealm.
  apply stepwise_bind; [apply keeps_trans|keeps_tac|intros entries].
  generalize (@nil AdditionalFunctionEntry).
  induction entries as [|[v m] l IH]; intros acc.
  - cbn [Functions.generateLoop]. keeps_tac.
  - rewrite generateLoop_cons. destruct (registeredFunction v); [|keeps_tac].
    apply stepwise_bind; [apply keeps_trans|keeps_tac|intros valid].
    destruct (negb valid); [|apply IH].
    apply stepwise_bind; [apply keeps_trans|keeps_tac|intros r].
    destruct r; [keeps_tac|apply IH].
Qed.

Lemma generate_keeps_writeEffects :
  stepwise (keeps writeEffects) _generateOptimizedFunctionsFromRealm.
Proof.
  unfold Functions._generateOptimizedFunctionsFromRealm.
  apply stepwise_bind; [apply keeps_trans|keeps_tac|intros entries].
  generalize (@nil AdditionalFunctionEntry).
  induction entries as [|[v m] l IH]; intros acc.
  - cbn [Functions.generateLoop]. keeps_tac.
  - rewrite generateLoop_cons. destruct (registeredFunction v); [|keeps_tac].
    apply stepwise_bind; [apply keeps_trans|keeps_tac|intros valid].
    destruct (negb valid); [|apply IH].
    apply stepwise_bind; [apply keeps_trans|keeps_tac|intros r].
    destruct r; [keeps_tac|apply IH].
Qed.

Lemma captureWriteEffects_keeps_candidates (env : nat) (f : FunctionValue)
    (am : option ArgModel) :
  stepwise (keeps additionalFunctions) (captureWriteEffects env f am).
Proof.
  unfold Functions.captureWriteEffects, Functions.createAdditionalEffects.
  keeps_tac. intros t. rewrite callOfFunction_synthesized.
  destruct (synthesizedCall rt f am); [|destruct (hasCall f)]; reflexivity.
Qed.

Lemma captureWriteEffects_returned_has (env : nat) (f : FunctionValue)
    (am : option ArgModel) (s s' : State) (record : AdditionalFunctionEffects) :
  captureWriteEffects env f am s = (Returned record, s') ->
  JSMap.has FunctionValue_eq_dec (writeEffects s') f = true.
Proof.
  rewrite captureWriteEffects_run.
  destruct (_callOfFunction f am (pushed f s)) as [[call| |] s1]; try discriminate.
  destruct (evaluateForEffectsInGlobalEnv true call s1) as [[e| |] s2]; try discriminate.
  cbv zeta. destruct (JSMap.has FunctionValue_eq_dec (writeEffects s2) f).
  - destruct (errorHandler rt (Functions.PP1009 f)); [discriminate|].
    intros [= _ <-]. apply JSMap_has_set_same.
  - intros [= _ <-]. apply JSMap_has_set_same.
Qed.

Lemma has_stable (f : FunctionValue) (s s' : State) :
  JSMap.has FunctionValue_eq_dec (writeEffects s) f = true ->
  candidatesCaptured s s' ->
  JSMap.has FunctionValue_eq_dec (writeEffects s') f = true.
Proof. intros H [K _]. auto. Qed.

(** When the processing of a function returns, the function has its record,
    and so has every function that joined the candidate set meanwhile. *)
Lemma recordWriteEffects_captures (fuel env : nat) :
  forall (f : FunctionValue) (am : option ArgModel),
    onReturn (fun s s' => candidatesCaptured s s'
                          /\ JSMap.has FunctionValue_eq_dec (writeEffects s') f = true)
      (Functions.recordWriteEffectsForOptimizedFunctionAndNestedFunctions rt fuel env f am).
Proof.
  induction fuel as [|fuel IH]; intros f am s a s' Hrun.
  - discriminate.
  - cbn [Functions.recordWriteEffectsForOptimizedFunctionAndNestedFunctions] in Hrun.
    unfold bind at 1 in Hrun.
    destruct (captureWriteEffects env f am s) as [[afe| |] s1] eqn:Ecap; try discriminate.
    pose proof (captureWriteEffects_returned_has env f am s s1 afe Ecap) as Hf1.
    assert (H01 : candidatesCaptured s s1).
    { apply candidatesCaptured_of_tableGrows.
      - pose proof (captureWriteEffects_keeps_candidates env f am s) as H.
        now rewrite Ecap in H.
      - pose proof (captureWriteEffects_tableGrows env f am s) as H.
        now rewrite Ecap in H. }
    unfold bind at 1 in Hrun. rewrite withEffectsApplied_run in Hrun.
    set (s_in := set_appliedEffects (effects afe :: appliedEffects s1) s1) in *.
    match type of Hrun with
    | context [fst (?body s_in)] => destruct (body s_in) as [o s_out] eqn:Ebody
    end.
    cbn [fst snd] in Hrun. destruct o as [[]| |]; try discriminate.
    assert (H12 : candidatesCaptured s_in s_out).
    { revert Ebody.
      apply (onReturn_bind _ candidatesCaptured_trans).
      - apply onReturn_of_stepwise. intros t.
        apply candidatesCaptured_of_tableGrows.
        + apply generate_keeps_candidates.
        + apply tableGrows_same. apply generate_keeps_writeEffects.
      - intros newOptFuncs t0 a0 t1 Eloop.
        apply (onReturn_forEach_each _ candidatesCaptured_refl candidatesCaptured_trans
                 (fun _ _ => True) newOptFuncs _ (fun _ _ _ _ _ => I)) in Eloop;
          [exact (proj1 Eloop)|].
        intros newEntry _ t a1 t' Eit. split; [|exact I].
        unfold bind at 1, modify at 1 in Eit.
        rewrite withEmptyOptimizedFunctionList_run in Eit.
        match type of Eit with
        | context [Functions.recordWriteEffectsForOptimizedFunctionAndNestedFunctions
                     rt fuel env ?g ?gm ?t2] =>
            destruct (Functions.recordWriteEffectsForOptimizedFunctionAndNestedFunctions
                        rt fuel env g gm t2) as [[[]| |] u] eqn:Erec; try discriminate;
            destruct (IH g gm t2 tt u Erec) as [[HK HC] Hg]
        end.
        assert (Et : t' = afterCallback (optimizedFunctions
                       (set_additionalFunctions
                          (JSSet.add FunctionValue_eq_dec (additionalFunctions t)
                             (value newEntry)) t))
                       (optimizedFunctionId
                          (set_additionalFunctions
                             (JSSet.add FunctionValue_eq_dec (additionalFunctions t)
                                (value newEntry)) t)) u) by congruence.
        subst t'. split.
        + intros g Hg0. exact (HK g Hg0).
        + intros g Hg0. cbn in Hg0. destruct (HC g Hg0) as [H|H]; [|now right].
          cbn in H. unfold JSSet.add in H.
          destruct (in_dec FunctionValue_eq_dec (value newEntry) (additionalFunctions t));
            [now left|].
          apply in_app_or in H. destruct H as [H|[<-|[]]]; [now left|now right]. }
    assert (H1out : candidatesCaptured s1 s_out).
    { eapply candidatesCaptured_proper; [| | | |exact H12]; reflexivity. }
    assert (Hfin : candidatesCaptured s_out s').
    { unfold bind at 1 in Hrun.
      change (Functions.popStack (set_appliedEffects (appliedEffects s1) s_out))
        with (Returned (last (map Some (additionalFunctionStack s_out)) None),
              set_additionalFunctionStack (removelast (additionalFunctionStack s_out))
                (set_appliedEffects (appliedEffects s1) s_out)) in Hrun.
      cbv beta iota in Hrun.
      destruct (Functions.sameFunction _ f); [|discriminate].
      injection Hrun as _ <-.
      eapply candidatesCaptured_proper;
        [| | | |apply (candidatesCaptured_refl s_out)]; reflexivity. }
    pose proof (candidatesCaptured_trans _ _ _ H1out Hfin) as H1'.
    split; [exact (candidatesCaptured_trans _ _ _ H01 H1')|].
    exact (has_stable f s1 s' Hf1 H1').
Qed.

Section JSSetFacts.
Context {K : Type} (eq_dec : forall a b : K, {a = b} + {a <> b}).

Lemma JSSet_In_add (s : list K) (k g : K) :
  In g (JSSet.add eq_dec s k) <-> In g s \/ g = k.
Proof.
  unfold JSSet.add. destruct (in_dec eq_dec k s) as [Hin|Hout].
  - split; [now left|]. intros [H| ->]; assumption.
  - rewrite in_app_iff. simpl. split.
    + intros [H|[H|[]]]; [now left|right; now symmetry].
    + intros [H| ->]; [now left|right; now left].
Qed.

Lemma JSSet_NoDup_add (s : list K) (k : K) :
  NoDup s -> NoDup (JSSet.add eq_dec s k).
Proof.
  intros H. unfold JSSet.add. destruct (in_dec eq_dec k s); [exact H|].
  now apply NoDup_snoc.
Qed.

Lemma JSSet_fold_add (l acc : list K) :
  (NoDup acc -> NoDup (fold_left (JSSet.add eq_dec) l acc))
  /\ (forall g, In g (fold_left (JSSet.add eq_dec) l acc) <-> In g acc \/ In g l).
Proof.
  revert acc. induction l as [|x l IH]; intros acc; simpl.
  - split; [auto|]. intros g. tauto.
  - destruct (IH (JSSet.add eq_dec acc x)) as [IH1 IH2]. split.
    + intros H. apply IH1. now apply JSSet_NoDup_add.
    + intros g. rewrite IH2, JSSet_In_add. intuition (subst; auto).
Qed.

Lemma JSSet_NoDup_ofList (l : list K) : NoDup (JSSet.ofList eq_dec l).
Proof. apply (proj1 (JSSet_fold_add l [])). constructor. Qed.

Lemma JSSet_In_ofList (l : list K) (g : K) : In g (JSSet.ofList eq_dec l) <-> In g l.
Proof.
  unfold JSSet.ofList. rewrite (proj2 (JSSet_fold_add l [])). simpl. tauto.
Qed.

End JSSetFacts.

Lemma candidatesDistinct_refl : forall s, candidatesDistinct s s.
Proof. intros s H. exact H. Qed.

Lemma candidatesDistinct_trans :
  forall s1 s2 s3,
    candidatesDistinct s1 s2 -> candidatesDistinct s2 s3 -> candidatesDistinct s1 s3.
Proof. unfold candidatesDistinct. auto. Qed.

Ltac distinct_side :=
  solve [ apply candidatesDistinct_refl | apply candidatesDistinct_trans
        | intros ? ?; assumption
        | intros ? ?; cbn; now apply JSSet_NoDup_add ].

Lemma generateLoop_candidatesDistinct (entries : list (Value * option ArgModel)) :
  forall acc, stepwise candidatesDistinct (generateLoop entries acc).
Proof.
  induction entries as [|[v m] l IH]; intros acc.
  - cbn [Functions.generateLoop]. stepwise_tac distinct_side.
  - rewrite generateLoop_cons. destruct (registeredFunction v);
      [|stepwise_tac distinct_side].
    apply stepwise_bind; [apply candidatesDistinct_trans|stepwise_tac distinct_side
                         |intros valid].
    destruct (negb valid); [|apply IH].
    apply stepwise_bind; [apply candidatesDistinct_trans|stepwise_tac distinct_side
                         |intros r].
    destruct r; [stepwise_tac distinct_side|apply IH].
Qed.

Lemma recordWriteEffects_candidatesDistinct (fuel env : nat) :
  forall (f : FunctionValue) (am : option ArgModel),
    stepwise candidatesDistinct
      (Functions.recordWriteEffectsForOptimizedFunctionAndNestedFunctions rt fuel env f am).
Proof.
  induction fuel as [|fuel IH]; intros f am;
    cbn [Functions.recordWriteEffectsForOptimizedFunctionAndNestedFunctions].
  - intros s. apply candidatesDistinct_refl.
  - apply stepwise_bind; [apply candidatesDistinct_trans| |intros afe].
    { intros s H. pose proof (captureWriteEffects_keeps_candidates env f am s) as E.
      unfold keeps in E. now rewrite E. }
    unfold Functions._generateOptimizedFunctionsFromRealm,
      Functions._withEmptyOptimizedFunctionList, Functions.popStack.
    stepwise_tac distinct_side;
      first [ apply generateLoop_candidatesDistinct | apply IH ].
Qed.

Lemma withEmpty_candidatesDistinct (fuel env : nat) (entry : AdditionalFunctionEntry) :
  stepwise candidatesDistinct
    (Functions._withEmptyOptimizedFunctionList entry
       (Functions.recordWriteEffectsForOptimizedFunctionAndNestedFunctions rt fuel env)).
Proof.
  unfold Functions._withEmptyOptimizedFunctionList.
  stepwise_tac distinct_side. apply recordWriteEffects_candidatesDistinct.
Qed.

Lemma captureAll_postcondition (fuel env : nat) (s s' : State) :
  wellFormedTable rt (writeEffects s) ->
  Functions.captureAll rt fuel env s = (Returned tt, s') ->
  wellFormedTable rt (writeEffects s')
  /\ covered s'
  /\ NoDup (additionalFunctions s')
  /\ additionalFunctionStack s' = [].
Proof.
  intros HW Hrun.
  pose proof (captureAll_tableGrows fuel env s) as [Hgrow _].
  rewrite Hrun in Hgrow. split; [exact (Hgrow HW)|]. clear Hgrow HW.
  unfold Functions.captureAll in Hrun. unfold bind at 1 in Hrun.
  destruct (_generateOptimizedFunctionsFromRealm s) as [[roots| |] s0]; try discriminate.
  unfold bind at 1, modify at 1 in Hrun. unfold bind at 1, modify at 1 in Hrun.
  set (s1 := set_additionalFunctions _ _) in Hrun.
  unfold bind at 1 in Hrun.
  destruct (forEach roots _ s1) as [[[]| |] s2] eqn:Eloop; try discriminate.
  unfold bind at 1, gets at 1 in Hrun. unfold invariant in Hrun.
  destruct (Nat.eqb (List.length (additionalFunctionStack s2)) 0) eqn:Elen;
    [|discriminate].
  injection Hrun as <-.
  assert (Hd : NoDup (additionalFunctions s2)).
  { pose proof (stepwise_forEach _ candidatesDistinct_refl candidatesDistinct_trans
                  roots _
                  (fun funcObject _ =>
                     withEmpty_candidatesDistinct fuel env funcObject) s1) as H.
    rewrite Eloop in H. apply H. apply JSSet_NoDup_ofList. }
  apply (onReturn_forEach_each _ candidatesCaptured_refl candidatesCaptured_trans
           (fun x t => JSMap.has FunctionValue_eq_dec (writeEffects t) (value x) = true)
           roots _ (fun x t t' H HR => has_stable (value x) t t' H HR)) in Eloop.
  - destruct Eloop as [[_ HC] Hroots]. split; [|split; [exact Hd|]].
    + intros g Hg. destruct (HC g Hg) as [H|H]; [|exact H].
      cbn in H. apply JSSet_In_ofList in H. apply in_map_iff in H.
      destruct H as (x & <- & Hx). auto.
    + destruct (additionalFunctionStack s2); [reflexivity|discriminate].
  - intros x _ t a t' Eit. rewrite withEmptyOptimizedFunctionList_run in Eit.
    destruct (Functions.recordWriteEffectsForOptimizedFunctionAndNestedFunctions
                rt fuel env (value x) (argModel x) (beforeCallback x t))
      as [[[]| |] u] eqn:Erec; try discriminate.
    destruct (recordWriteEffects_captures fuel env _ _ _ _ _ Erec) as [HC Hx].
    injection Eit as Et. subst t'. split; [|exact Hx].
    eapply candidatesCaptured_proper; [| | | |exact HC]; reflexivity.
Qed.

(** X2: when the capture of all the registered functions returns, starting
    from a well-formed table (the empty one, for instance), the table is well
    formed, every function of the candidate set has its record, the candidate
    set has no repetition and the stack is empty: the look-ups of the
    verification (lines 320, 341 and 344) find what they ask for. *)
Theorem capture_establishes_table (fuel env : nat) (s s' : State) :
  wellFormedTable rt (writeEffects s) ->
  Functions.captureAll rt fuel env s = (Returned tt, s') ->
  wellFormedTable rt (writeEffects s')
  /\ covered s'
  /\ NoDup (additionalFunctions s')
  /\ additionalFunctionStack s' = [].
Proof. apply captureAll_postcondition. Qed.

(** ** The verification after a capture *)

Lemma forEach_returns_or_throws {A} (I : State -> Prop) (P : Error -> Prop)
    (l : list A) (body : A -> M unit) :
  (forall x s, In x l -> I s ->
     (fst (body x s) = Returned tt \/ exists e, fst (body x s) = Threw e /\ P e)
     /\ I (snd (body x s))) ->
  forall s, I s ->
    (fst (forEach l body s) = Returned tt
     \/ exists e, fst (forEach l body s) = Threw e /\ P e)
    /\ I (snd (forEach l body s)).
Proof.
  induction l as [|x l IH]; intros Hbody s HI.
  - split; [now left|exact HI].
  - cbn [forEach]. unfold bind.
    destruct (Hbody x s (or_introl eq_refl) HI) as [Hr HI1].
    destruct (body x s) as [o s1]. cbn [fst snd] in *.
    destruct Hr as [->|(e & -> & He)].
    + apply IH; [|exact HI1]. intros y t Hy. apply Hbody. now right.
    + split; [right; now exists e|exact HI1].
Qed.

Lemma checkPair_returns_or_throws (n : string) (e1 : Effects) (f1 f2 : FunctionValue)
    (s : State) :
  wellFormedTable rt (writeEffects s) ->
  JSMap.has FunctionValue_eq_dec (writeEffects s) f2 = true ->
  fst (checkPair n e1 f1 f2 s) = Returned tt
  \/ exists c2 e,
       synthesizedCall rt f2 None = Some c2
       /\ replayOutcome rt
            (evaluate rt c2 (replayBaseline (writeEffects s) (appliedEffects s) f2))
          = Threw e
       /\ fst (checkPair n e1 f1 f2 s) = Threw e.
Proof.
  intros HW Hf2. destruct (FunctionValue_eq_dec f1 f2) as [Heq|Hne].
  { left. rewrite checkPair_run. now destruct (FunctionValue_eq_dec f1 f2). }
  destruct (JSMap_has_get _ _ _ Hf2) as [r2 Hr2].
  destruct (HW f2 r2 (JSMap_get_some_In _ _ _ _ Hr2)) as [Hsyn Hpar].
  destruct (synthesizedCall rt f2 None) as [c2|] eqn:Hc; [|congruence].
  assert (Hparent : forall p, parentAdditionalFunction r2 = Some p ->
                              JSMap.get FunctionValue_eq_dec (writeEffects s) p <> None).
  { intros p Hp. destruct (JSMap_has_get _ _ _ (Hpar p Hp)) as [rp ->]. discriminate. }
  rewrite (checkPair_outcome n e1 f1 f2 s r2 c2 Hne Hr2 Hparent Hc).
  destruct (replayOutcome rt _) as [[]|e|] eqn:Eo.
  - now left.
  - right. now exists c2, e.
  - exfalso. unfold replayOutcome in Eo.
    destruct (replayError _) as [e|]; [|discriminate].
    destruct (ignoresError rt e); discriminate.
Qed.

Lemma independenceLoop_returns_or_throws (s : State) :
  wellFormedTable rt (writeEffects s) ->
  covered s ->
  fst (independenceLoop Functions.mayTerminateAbruptly s) = Returned tt
  \/ exists f2 c2 e,
       In f2 (additionalFunctions s)
       /\ synthesizedCall rt f2 None = Some c2
       /\ replayOutcome rt
            (evaluate rt c2 (replayBaseline (writeEffects s) (appliedEffects s) f2))
          = Threw e
       /\ fst (independenceLoop Functions.mayTerminateAbruptly s) = Threw e.
Proof.
  intros HW HC. rewrite independenceLoop_run.
  set (P := fun e : Error =>
              exists f2 c2,
                In f2 (additionalFunctions s)
                /\ synthesizedCall rt f2 None = Some c2
                /\ replayOutcome rt
                     (evaluate rt c2
                        (replayBaseline (writeEffects s) (appliedEffects s) f2))
                   = Threw e).
  set (I := fun t : State => tables t = tables s /\ appliedEffects t = appliedEffects s).
  assert (Hloop : (fst (forEach (additionalFunctions s)
                          (checkFunction Functions.mayTerminateAbruptly)
                          (set_conflicts [] s)) = Returned tt
                   \/ exists e, fst (forEach (additionalFunctions s)
                                       (checkFunction Functions.mayTerminateAbruptly)
                                       (set_conflicts [] s)) = Threw e /\ P e)
                  /\ I (snd (forEach (additionalFunctions s)
                               (checkFunction Functions.mayTerminateAbruptly)
                               (set_conflicts [] s)))).
  { apply (forEach_returns_or_throws I P); [|split; reflexivity].
    intros f1 t Hf1 [HT HA]. unfold tables in HT. injection HT as Hwe Hfe Haf.
    rewrite checkFunction_run, Hwe.
    destruct (JSMap_has_get _ _ _ (HC f1 Hf1)) as [r1 ->]. cbv zeta.
    rewrite mayTerminateAbruptly_is_false, Haf.
    apply (forEach_returns_or_throws I P).
    - intros f2 u Hf2 [HU HAu]. split.
      + assert (Hweu : writeEffects u = writeEffects s)
          by (unfold tables in HU; now injection HU).
        destruct (checkPair_returns_or_throws
                    (Functions.nameOfFunction (functionExpressions t) f1)
                    (effects r1) f1 f2 u) as [Hr|(c2 & e & Hc & Ho & Hr)].
        * now rewrite Hweu.
        * rewrite Hweu. exact (HC f2 Hf2).
        * now left.
        * right. exists e. split; [exact Hr|]. exists f2, c2.
          rewrite Hweu, HAu in Ho. now repeat split.
      + split.
        * rewrite <- HU. apply checkPair_keeps_tables.
        * rewrite <- HAu. apply checkPair_keeps_appliedEffects.
    - split; [unfold tables; congruence|exact HA]. }
  destruct Hloop as [[Hr|(e & Hr & f2 & c2 & Hin & Hc & Ho)] _].
  - now left.
  - right. now exists f2, c2, e.
Qed.

(** X3: once the capture has returned (from a well-formed table), the loops
    of the verification cannot fail on an invariant of their own, for want of
    a synthesized call or on the test of line 324: they run to their end,
    unless the replay of a candidate ends by an error that [ignoreErrorsIn]
    does not ignore, which is then the error of the whole check.  When they
    run to their end the check either returns, the conflict map being empty,
    or reports the conflicts of the map and throws the fatal error of line
    354. *)
Theorem verification_after_capture_stops_on_replay_errors_and_conflicts_only
    (fuel env : nat) (s s1 : State) :
  wellFormedTable rt (writeEffects s) ->
  Functions.captureAll rt fuel env s = (Returned tt, s1) ->
  let loop := independenceLoop Functions.mayTerminateAbruptly s1 in
  (fst loop = Returned tt
   \/ exists f2 c2 e,
        In f2 (additionalFunctions s1)
        /\ synthesizedCall rt f2 None = Some c2
        /\ replayOutcome rt
             (evaluate rt c2
                (replayBaseline (writeEffects s1) (appliedEffects s1) f2))
           = Threw e
        /\ fst loop = Threw e)
  /\ Functions.checkThatFunctionsAreIndependent rt fuel env s =
     match fst loop with
     | Returned _ =>
         match conflicts (snd loop) with
         | [] => (Returned tt, snd loop)
         | _ :: _ =>
             (Threw (FatalError None),
              addTrace (map EvHandleError (JSMap.values (conflicts (snd loop))))
                (snd loop))
         end
     | Threw e => (Threw e, snd loop)
     | OutOfFuel => (OutOfFuel, snd loop)
     end.
Proof.
  intros HW Hcap loop. subst loop.
  destruct (captureAll_postcondition fuel env s s1 HW Hcap) as (HW1 & HC1 & _).
  split; [exact (independenceLoop_returns_or_throws s1 HW1 HC1)|].
  unfold Functions.checkThatFunctionsAreIndependent, bind at 1. rewrite Hcap.
  unfold Functions.verifyIndependence, bind.
  destruct (independenceLoop Functions.mayTerminateAbruptly s1) as [[[]|e|] s2];
    cbn [fst snd]; try reflexivity.
  apply reportConflicts_run.
Qed.

(** ** Replays that hit nothing, and enumerations *)

Lemma runStep_no_hit (n : string) (pbs : PropertyBindings) (st : EvalStep) (s : State) :
  hooksAre n pbs s ->
  hits rt pbs st = false ->
  conflicts (snd (runStep false st s)) = conflicts s.
Proof.
  intros [Hpa Hgo] Hno. destruct st as [pb loc|ob loc|v m|msg]; cbn [Functions.runStep].
  - rewrite (callReportPropertyAccess_hooked n pbs pb loc s Hpa).
    destruct loc as [L|]; cbn [hits] in Hno.
    + destruct (refuseSerializationOnPropertyBinding rt pb); [reflexivity|].
      cbn in Hno. rewrite Hno. reflexivity.
    + destruct (refuseSerializationOnPropertyBinding rt pb); reflexivity.
  - rewrite (callReportObjectGetOwnProperties_hooked n _ ob loc s Hgo).
    destruct loc as [L|]; cbn [hits] in Hno; [|reflexivity].
    rewrite Hno. reflexivity.
  - reflexivity.
  - reflexivity.
Qed.

Lemma steps_no_hit (n : string) (pbs : PropertyBindings) (sts : list EvalStep) :
  forall s,
    hooksAre n pbs s ->
    existsb (hits rt pbs) sts = false ->
    conflicts (snd (forEach sts (runStep false) s)) = conflicts s.
Proof.
  induction sts as [|st sts IH]; intros s Hh Hno; [reflexivity|].
  cbn [existsb] in Hno. apply orb_false_iff in Hno. destruct Hno as [Hst Hrest].
  pose proof (runStep_no_hit n pbs st s Hh Hst) as H1.
  destruct (runStep_replay n pbs st s Hh) as (Hh1 & _ & _).
  cbn [forEach]. unfold bind.
  destruct (runStep false st s) as [[[]| |] s1]; cbn [fst snd] in *; try exact H1.
  rewrite (IH s1 Hh1 Hrest). exact H1.
Qed.

Lemma reportFn_no_hit (n : string) (e1 : Effects) (f2 : FunctionValue) (s : State) :
  (forall c2, synthesizedCall rt f2 None = Some c2 ->
              existsb (hits rt (modifiedProperties e1))
                (steps (evaluate rt c2 (appliedEffects s))) = false) ->
  conflicts (snd (reportFn n e1 f2 s)) = conflicts s.
Proof.
  intros Hno. rewrite reportFn_run.
  destruct (synthesizedCall rt f2 None) as [c2|]; [|destruct (hasCall f2); reflexivity].
  cbn [snd]. rewrite evaluate_state.
  change (conflicts (set_reportObjectGetOwnProperties ?a (set_reportPropertyAccess ?b ?t)))
    with (conflicts t).
  rewrite (steps_no_hit n (modifiedProperties e1)); [reflexivity| |].
  - apply withConflictHooks_hooksAre.
  - exact (Hno c2 eq_refl).
Qed.

Lemma checkPair_no_hit (n : string) (e1 : Effects) (f1 f2 : FunctionValue) (s : State) :
  (forall c2, synthesizedCall rt f2 None = Some c2 ->
              existsb (hits rt (modifiedProperties e1))
                (steps (evaluate rt c2
                          (replayBaseline (writeEffects s) (appliedEffects s) f2)))
              = false) ->
  conflicts (snd (checkPair n e1 f1 f2 s)) = conflicts s.
Proof.
  intros Hno. rewrite checkPair_run. unfold replayBaseline in Hno.
  destruct (FunctionValue_eq_dec f1 f2); [reflexivity|].
  destruct (JSMap.get _ _ f2) as [r2|]; [|reflexivity].
  destruct (parentAdditionalFunction r2) as [p|]; [|now apply reportFn_no_hit].
  destruct (JSMap.get _ _ p) as [rp|]; [|reflexivity].
  rewrite withEffectsApplied_run. cbn [snd].
  exact (reportFn_no_hit n e1 f2
           (set_appliedEffects (effects rp :: appliedEffects s) s) Hno).
Qed.

Lemma forEach_invariant {A} (I : State -> Prop) (l : list A) (body : A -> M unit) :
  (forall x s, In x l -> I s -> I (snd (body x s))) ->
  forall s, I s -> I (snd (forEach l body s)).
Proof.
  induction l as [|x l IH]; intros Hbody s HI; [exact HI|].
  cbn [forEach]. unfold bind. pose proof (Hbody x s (or_introl eq_refl) HI) as H1.
  destruct (body x s) as [[[]| |] s1]; cbn [snd] in *; try exact H1.
  apply IH; [|exact H1]. intros y t Hy. apply Hbody. now right.
Qed.

Lemma independenceLoop_no_hit (test : EvaluationResult -> bool) (s : State) :
  (forall f1 f2 r1 c2,
     In f1 (additionalFunctions s) -> In f2 (additionalFunctions s) -> f1 <> f2 ->
     JSMap.get FunctionValue_eq_dec (writeEffects s) f1 = Some r1 ->
     fst (_callOfFunction f2 None s) = Returned c2 ->
     existsb (hits rt (modifiedProperties (effects r1)))
       (steps (evaluate rt c2 (replayBaseline (writeEffects s) (appliedEffects s) f2)))
     = false) ->
  conflicts (snd (independenceLoop test s)) = [].
Proof.
  intros Hno. rewrite independenceLoop_run.
  set (I := fun t => tables t = tables s /\ appliedEffects t = appliedEffects s
                     /\ conflicts t = []).
  assert (HI : I (snd (forEach (additionalFunctions s) (checkFunction test)
                         (set_conflicts [] s)))).
  { apply forEach_invariant; [|repeat split].
    intros f1 t Hf1 (HT & HA & HC). unfold tables in HT. injection HT as Hwe Hfe Haf.
    assert (HIt : I t) by (unfold I, tables; repeat split; congruence).
    rewrite checkFunction_run, Hwe.
    destruct (JSMap.get FunctionValue_eq_dec (writeEffects s) f1) as [r1|] eqn:Hr1;
      [|exact HIt]. cbv zeta.
    destruct (test (result (effects r1))); [exact HIt|].
    rewrite Haf. apply forEach_invariant; [|exact HIt].
    intros f2 u Hf2 (HTu & HAu & HCu). split; [|split].
    - rewrite <- HTu. apply checkPair_keeps_tables.
    - rewrite <- HAu. apply checkPair_keeps_appliedEffects.
    - destruct (FunctionValue_eq_dec f1 f2) as [->|Hne].
      + rewrite checkPair_run.
        destruct (FunctionValue_eq_dec f2 f2); [exact HCu|congruence].
      + rewrite <- HCu. apply checkPair_no_hit. intros c2 Hc.
        unfold tables in HTu. injection HTu as Hweu _ _. rewrite Hweu, HAu.
        apply (Hno f1 f2 r1 c2 Hf1 Hf2 Hne Hr1).
        now apply callOfFunction_returns_iff. }
  exact (proj2 (proj2 HI)).
Qed.

(** X4: when, for every ordered pair of distinct functions, the replay of the
    second makes no read and no enumeration that hits the write set of the
    first, the conflict map stays empty, and the verification ends as its loops
    do, reporting nothing more. *)
Theorem replays_that_hit_nothing_raise_no_conflict (test : EvaluationResult -> bool)
    (s : State) :
  (forall f1 f2 r1 c2,
     In f1 (additionalFunctions s) -> In f2 (additionalFunctions s) -> f1 <> f2 ->
     JSMap.get FunctionValue_eq_dec (writeEffects s) f1 = Some r1 ->
     fst (_callOfFunction f2 None s) = Returned c2 ->
     existsb (hits rt (modifiedProperties (effects r1)))
       (steps (evaluate rt c2 (replayBaseline (writeEffects s) (appliedEffects s) f2)))
     = false) ->
  conflicts (snd (independenceLoop test s)) = []
  /\ verifyIndependence test s = independenceLoop test s.
Proof.
  intros Hno. pose proof (independenceLoop_no_hit test s Hno) as Hc.
  split; [exact Hc|].
  unfold Functions.verifyIndependence, bind.
  destruct (independenceLoop test s) as [[[]| |] s1]; try reflexivity.
  cbn [snd] in Hc. rewrite reportConflicts_run, Hc. reflexivity.
Qed.

Lemma writtenObjectsOf_has (pbs : PropertyBindings) (pb : PropertyBinding) :
  In pb pbs ->
  JSSet.has ObjectRef_eq_dec (Functions.writtenObjectsOf pbs) (pbObject pb) = true.
Proof.
  intros Hin. unfold Functions.writtenObjectsOf.
  assert (E : forall l acc,
             fold_left (fun acc key => JSSet.add ObjectRef_eq_dec acc (pbObject key))
               l acc
             = fold_left (JSSet.add ObjectRef_eq_dec) (map pbObject l) acc).
  { induction l as [|x l IH]; intros acc; simpl; [reflexivity|apply IH]. }
  unfold JSSet.has.
  destruct (in_dec ObjectRef_eq_dec (pbObject pb) _) as [|Hout]; [reflexivity|].
  exfalso. apply Hout. rewrite E.
  apply (proj2 (JSSet_fold_add ObjectRef_eq_dec (map pbObject pbs) [])).
  right. now apply in_map.
Qed.

(** A step that enters its location in the map, wherever the closures of the
    replay are the hooks, does so in the middle of a replay too. *)
Lemma steps_record_step (n : string) (pbs : PropertyBindings)
    (pre post : list EvalStep) (st : EvalStep) (L : BabelNodeSourceLocation)
    (s : State) :
  (forall t, hooksAre n pbs t ->
             JSMap.has Nat.eq_dec (conflicts (snd (runStep false st t))) L = true) ->
  hooksAre n pbs s ->
  Forall (fun st => ~ enumerationWithoutLocation st) pre ->
  JSMap.has Nat.eq_dec
    (conflicts (snd (forEach (pre ++ st :: post) (runStep false) s))) L = true.
Proof.
  intros Hst Hh Hpre. rewrite forEach_app.
  destruct (steps_replay n pbs pre s Hh) as (Hh1 & _ & Hr1). specialize (Hr1 Hpre).
  destruct (forEach pre (runStep false) s) as [o s1]. cbn [fst snd] in *. subst o.
  cbn [forEach]. unfold bind.
  pose proof (Hst s1 Hh1) as H2.
  destruct (runStep_replay n pbs st s1 Hh1) as (Hh2 & _ & _).
  destruct (runStep false st s1) as [[[]| |] s2]; cbn [fst snd] in *; try exact H2.
  destruct (steps_replay n pbs post s2 Hh2) as (_ & Hg & _).
  eapply conflictsGrow_has; [exact Hg|exact H2].
Qed.

Lemma enumeration_step_records (n : string) (pbs : PropertyBindings)
    (ob : ObjectValue) (L : BabelNodeSourceLocation) (pb : PropertyBinding) (t : State) :
  In pb pbs -> pbObject pb = ConcreteObject ob ->
  hooksAre n pbs t ->
  JSMap.has Nat.eq_dec
    (conflicts (snd (runStep false (GetOwnProperties ob (Some L)) t))) L = true.
Proof.
  intros Hin Hob [_ Hgo]. cbn [Functions.runStep].
  rewrite (callReportObjectGetOwnProperties_hooked n _ ob (Some L) t Hgo).
  rewrite <- Hob, (writtenObjectsOf_has pbs pb Hin). cbn [andb].
  destruct (JSMap.has Nat.eq_dec (conflicts t) L) eqn:E; cbn [negb].
  - exact E.
  - apply reportConflict_has.
Qed.

Lemma checkPair_records_step (n : string) (e1 : Effects) (f1 f2 : FunctionValue)
    (s s' : State) (c2 : Call) (pre post : list EvalStep) (st : EvalStep)
    (L : BabelNodeSourceLocation) :
  (forall t, hooksAre n (modifiedProperties e1) t ->
             JSMap.has Nat.eq_dec (conflicts (snd (runStep false st t))) L = true) ->
  f1 <> f2 ->
  checkPair n e1 f1 f2 s = (Returned tt, s') ->
  synthesizedCall rt f2 None = Some c2 ->
  steps (evaluate rt c2 (replayBaseline (writeEffects s) (appliedEffects s) f2))
  = pre ++ st :: post ->
  Forall (fun st => ~ enumerationWithoutLocation st) pre ->
  JSMap.has Nat.eq_dec (conflicts s') L = true.
Proof.
  intros Hst Hne Hrun Hc Hsteps Hpre.
  assert (Hfn : forall t,
    steps (evaluate rt c2 (appliedEffects t)) = pre ++ st :: post ->
    JSMap.has Nat.eq_dec (conflicts (snd (reportFn n e1 f2 t))) L = true).
  { intros t Ht. rewrite reportFn_run, Hc. cbn [snd]. rewrite evaluate_state.
    change (appliedEffects (withConflictHooks n (modifiedProperties e1) t))
      with (appliedEffects t).
    rewrite Ht.
    exact (steps_record_step n (modifiedProperties e1) pre post st L _ Hst
             (withConflictHooks_hooksAre n (modifiedProperties e1) t _) Hpre). }
  rewrite checkPair_run in Hrun. unfold replayBaseline in Hsteps.
  destruct (FunctionValue_eq_dec f1 f2); [contradiction|].
  destruct (JSMap.get _ _ f2) as [r2|]; [|discriminate].
  destruct (parentAdditionalFunction r2) as [p|].
  - destruct (JSMap.get _ _ p) as [rp|]; [|discriminate].
    rewrite withEffectsApplied_run in Hrun. injection Hrun as _ <-.
    exact (Hfn (set_appliedEffects (effects rp :: appliedEffects s) s) Hsteps).
  - pose proof (Hfn s Hsteps) as H. now rewrite Hrun in H.
Qed.

(** ** What the loops collect *)




(** X5: an enumeration of the own properties of an object, at a location,
    during the replay of a function against a write set that has a binding of
    that object, is entered in the conflict map unless the location already has
    its entry; unlike a read, it is so whether or not the binding is refused
    for serialization. *)
Theorem enumeration_of_written_object_is_recorded (n : string) (e1 : Effects)
    (f1 f2 : FunctionValue) (s s' : State) (c2 : Call) (pre post : list EvalStep)
    (ob : ObjectValue) (L : BabelNodeSourceLocation) (pb : PropertyBinding) :
  f1 <> f2 ->
  checkPair n e1 f1 f2 s = (Returned tt, s') ->
  fst (_callOfFunction f2 None s) = Returned c2 ->
  steps (evaluate rt c2 (replayBaseline (writeEffects s) (appliedEffects s) f2))
  = pre ++ GetOwnProperties ob (Some L) :: post ->
  Forall (fun st => ~ enumerationWithoutLocation st) pre ->
  In pb (modifiedProperties e1) ->
  pbObject pb = ConcreteObject ob ->
  JSMap.get Nat.eq_dec (conflicts s') L =
  match JSMap.get Nat.eq_dec (conflicts s) L with
  | Some d => Some d
  | None => Some (Functions.PP1003 n L)
  end.
Proof.
  intros Hne Hrun Hc Hsteps Hpre Hin Hob. apply callOfFunction_returns_iff in Hc.
  pose proof (checkPair_grow n e1 f1 f2 s) as Hg. rewrite Hrun in Hg.
  apply conflictsGrow_entry; [exact Hg|].
  apply (checkPair_records_step n e1 f1 f2 s s' c2 pre post
           (GetOwnProperties ob (Some L)) L); auto.
  intros t Ht. exact (enumeration_step_records n (modifiedProperties e1) ob L pb t
                        Hin Hob Ht).
Qed.

(** ** How many replays a verification makes *)

Lemma forEach_returned_each {A} (I : State -> Prop) (l : list A) (body : A -> M unit) :
  (forall x s s', In x l -> I s -> body x s = (Returned tt, s') -> I s') ->
  forall s s', I s -> forEach l body s = (Returned tt, s') ->
    forall x, In x l -> exists t t', I t /\ body x t = (Returned tt, t').
Proof.
  induction l as [|y l IH]; intros Hbody s s' HI Hrun x Hx; [destruct Hx|].
  cbn [forEach] in Hrun. unfold bind in Hrun.
  destruct (body y s) as [[[]| |] s1] eqn:Ey; try discriminate.
  destruct Hx as [<-|Hx]; [now exists s, s1|].
  apply (IH (fun z t t' Hz => Hbody z t t' (or_intror Hz)) s1 s'); auto.
  exact (Hbody y s s1 (or_introl eq_refl) HI Ey).
Qed.

Lemma checkPair_returned_synthesizes (n : string) (e1 : Effects)
    (f1 f2 : FunctionValue) (s s' : State) :
  f1 <> f2 -> checkPair n e1 f1 f2 s = (Returned tt, s') ->
  synthesizedCall rt f2 None <> None.
Proof.
  intros Hne. rewrite checkPair_run.
  destruct (FunctionValue_eq_dec f1 f2); [contradiction|].
  destruct (JSMap.get _ _ f2) as [r2|]; [|discriminate].
  assert (H : forall t t', reportFn n e1 f2 t = (Returned tt, t') ->
                           synthesizedCall rt f2 None <> None).
  { intros t t'. rewrite reportFn_run.
    destruct (synthesizedCall rt f2 None); [discriminate|].
    destruct (hasCall f2); discriminate. }
  destruct (parentAdditionalFunction r2) as [p|]; [|apply H].
  destruct (JSMap.get _ _ p) as [rp|]; [|discriminate].
  rewrite withEffectsApplied_run.
  destruct (reportFn n e1 f2 _) as [o t'] eqn:E. cbn [fst snd].
  intros [= ->]. exact (H _ _ E).
Qed.

Lemma loop_returned_synthesizes (test : EvaluationResult -> bool) (s s' : State) :
  independenceLoop test s = (Returned tt, s') ->
  forall f1 f2, In f1 (additionalFunctions s) -> In f2 (additionalFunctions s) ->
                f1 <> f2 -> synthesizedCall rt f2 None <> None.
Proof.
  rewrite independenceLoop_run. intros Hrun f1 f2 Hf1 Hf2 Hne.
  destruct (forEach_returned_each (fun t => tables t = tables s) _ _
              (fun x t t' _ HT E =>
                 eq_trans (proj1 (proj1 (checkFunction_returned test x t t' E))) HT)
              (set_conflicts [] s) s' eq_refl Hrun f1 Hf1) as (t & t' & HT & E).
  unfold tables in HT. cbn in HT. injection HT as Hwe Hfe Haf.
  rewrite checkFunction_run in E.
  destruct (JSMap.get _ _ f1) as [r1|]; [|discriminate]. cbv zeta in E.
  destruct (test (result (effects r1))); [discriminate|].
  rewrite Haf in E.
  destruct (forEach_returned_each (fun _ => True) _ _ (fun _ _ _ _ _ _ => I)
              _ _ I E f2 Hf2) as (u & u' & _ & Eu).
  exact (checkPair_returned_synthesizes _ _ f1 f2 u u' Hne Eu).
Qed.

Lemma length_flat_map_pairs
    (we : list (FunctionValue * AdditionalFunctionEffects)) (applied : list Effects)
    (f1 : FunctionValue) (l : list FunctionValue) :
  (forall f2, In f2 l -> f1 <> f2 -> synthesizedCall rt f2 None <> None) ->
  List.length (flat_map (pairEvents rt we applied f1) l)
  = List.length l - count_occ FunctionValue_eq_dec l f1.
Proof.
  induction l as [|x l IH]; intros H; [reflexivity|].
  cbn [flat_map count_occ]. rewrite length_app, IH by (intros; apply H; auto; now right).
  pose proof (count_occ_bound FunctionValue_eq_dec f1 l) as Hb.
  unfold pairEvents. destruct (FunctionValue_eq_dec f1 x) as [->|Hne].
  - destruct (FunctionValue_eq_dec x x); [|congruence]. cbn [List.length]. lia.
  - destruct (FunctionValue_eq_dec x f1); [congruence|].
    specialize (H x (or_introl eq_refl) Hne).
    destruct (synthesizedCall rt x None); [|congruence].
    cbn [List.length app]. lia.
Qed.

Lemma length_loopEvents
    (we : list (FunctionValue * AdditionalFunctionEffects)) (applied : list Effects)
    (fs done : list FunctionValue) :
  NoDup fs ->
  (forall f1 f2, In f1 done -> In f2 fs -> f1 <> f2 ->
                 synthesizedCall rt f2 None <> None) ->
  (forall f1, In f1 done -> In f1 fs) ->
  List.length (loopEvents rt we applied fs done)
  = List.length done * (List.length fs - 1).
Proof.
  intros Hnd. induction done as [|f1 done IH]; intros Hsyn Hin; [reflexivity|].
  unfold loopEvents in *. cbn [flat_map]. rewrite length_app.
  rewrite IH; [|intros; eapply Hsyn; eauto; now right|intros; apply Hin; now right].
  unfold functionEvents. rewrite length_flat_map_pairs
    by (intros f2 H2 Hne; apply (Hsyn f1 f2); auto; now left).
  assert (Hc : count_occ FunctionValue_eq_dec fs f1 = 1).
  { apply NoDup_count_occ'; [exact Hnd|apply Hin; now left]. }
  rewrite Hc. cbn [List.length]. lia.
Qed.

Lemma length_replayed_flat_map {A} (g : A -> list Event) (l : list A) :
  (forall x, List.length (replayed (g x)) = List.length (g x)) ->
  List.length (replayed (flat_map g l)) = List.length (flat_map g l).
Proof.
  intros Hg. induction l as [|x l IH]; [reflexivity|].
  cbn [flat_map]. unfold replayed in *.
  rewrite flat_map_app, !length_app. now rewrite Hg, IH.
Qed.

(** X6: a verification whose loops run to their end over [n] distinct
    functions makes [n * (n - 1)] replays, one per ordered pair, and nothing
    else reaches the trace meanwhile. *)
Theorem verification_replays_every_ordered_pair_once (test : EvaluationResult -> bool)
    (s s' : State) :
  NoDup (additionalFunctions s) ->
  independenceLoop test s = (Returned tt, s') ->
  exists evs,
    trace s' = trace s ++ evs
    /\ List.length (replayed evs) = List.length evs
    /\ List.length evs
       = List.length (additionalFunctions s) * (List.length (additionalFunctions s) - 1).
Proof.
  intros Hnd Hrun.
  pose proof (loop_returned_synthesizes test s s' Hrun) as Hsyn.
  rewrite independenceLoop_run in Hrun.
  destruct (outer_loop_returned test _ _ _ Hrun) as [_ Htr]. cbn in Htr.
  eexists. split; [exact Htr|]. split.
  - unfold loopEvents, functionEvents.
    apply length_replayed_flat_map. intros f1.
    apply length_replayed_flat_map. intros f2.
    unfold pairEvents. destruct (FunctionValue_eq_dec f1 f2); [reflexivity|].
    destruct (synthesizedCall rt f2 None); reflexivity.
  - apply length_loopEvents; auto.
Qed.

(** ** What the merge of the saved registrations keeps *)

Section MergeFacts.
Context {K V : Type} (eq_dec : forall a b : K, {a = b} + {a <> b}).

Lemma JSMap_get_absent (m : list (K * V)) (k : K) :
  ~ In k (JSMap.keys m) -> JSMap.get eq_dec m k = None.
Proof.
  induction m as [|[k0 v0] m IH]; simpl; [reflexivity|]. intros H.
  destruct (eq_dec k0 k); [tauto|auto].
Qed.

Lemma JSMap_keys_set (m : list (K * V)) (k : K) (v : V) :
  JSMap.keys (JSMap.set eq_dec m k v)
  = if JSMap.has eq_dec m k then JSMap.keys m else JSMap.keys m ++ [k].
Proof.
  unfold JSMap.has. induction m as [|[k0 v0] m IH]; simpl; [reflexivity|].
  destruct (eq_dec k0 k) as [->|]; simpl; [reflexivity|].
  rewrite IH. now destruct (JSMap.get eq_dec m k).
Qed.

Lemma JSMap_NoDup_set (m : list (K * V)) (k : K) (v : V) :
  NoDup (JSMap.keys m) -> NoDup (JSMap.keys (JSMap.set eq_dec m k v)).
Proof.
  intros H. rewrite JSMap_keys_set.
  destruct (JSMap.has eq_dec m k) eqn:E; [exact H|].
  apply NoDup_app; [exact H|repeat constructor; intros []|].
  intros x Hx [Hxk|[]]. subst x. unfold JSMap.has in E. unfold JSMap.keys in Hx.
  apply in_map_iff in Hx. destruct Hx as ([k1 v1] & Hk & Hin). simpl in Hk. subst k1.
  pose proof (JSMap_In_has eq_dec m k v1 Hin) as Hh. unfold JSMap.has in Hh.
  now rewrite Hh in E.
Qed.
End MergeFacts.

Lemma mergeBack_get (old cur : list (Value * option ArgModel)) (v : Value) :
  NoDup (JSMap.keys old) ->
  JSMap.get Value_eq_dec (mergeBack old cur) v =
  match JSMap.get Value_eq_dec old v with
  | Some m => Some m
  | None => JSMap.get Value_eq_dec cur v
  end.
Proof.
  unfold mergeBack. revert cur. induction old as [|[k m] old IH]; intros cur Hnd.
  - reflexivity.
  - cbn [fold_left fst snd JSMap.get]. cbn [JSMap.keys map fst] in Hnd.
    apply NoDup_cons_iff in Hnd. destruct Hnd as [Hk Hnd].
    rewrite (IH _ Hnd). destruct (Value_eq_dec k v) as [->|Hne].
    + rewrite (JSMap_get_absent Value_eq_dec old v Hk). apply JSMap_get_set.
    + now rewrite (JSMap_get_set_other Value_eq_dec cur k v m Hne).
Qed.

Lemma mergeBack_NoDup (old cur : list (Value * option ArgModel)) :
  NoDup (JSMap.keys cur) -> NoDup (JSMap.keys (mergeBack old cur)).
Proof.
  unfold mergeBack. revert cur. induction old as [|[k m] old IH]; intros cur H.
  - exact H.
  - cbn [fold_left]. apply IH. now apply JSMap_NoDup_set.
Qed.

(** X7: when the callback of [_withEmptyOptimizedFunctionList] returns, every
    registration that was pending before the call is pending after it with the
    model it had, the registrations the callback made are kept for the values
    that had none, and the registration map still has each value once. *)
Theorem registrations_survive_the_callback (entry : AdditionalFunctionEntry)
    (func : FunctionValue -> option ArgModel -> M unit) (s s' : State) :
  NoDup (JSMap.keys (optimizedFunctions s)) ->
  Functions._withEmptyOptimizedFunctionList entry func s = (Returned tt, s') ->
  let s2 := snd (func (value entry) (argModel entry) (beforeCallback entry s)) in
  (forall v, JSMap.get Value_eq_dec (optimizedFunctions s') v =
             match JSMap.get Value_eq_dec (optimizedFunctions s) v with
             | Some m => Some m
             | None => JSMap.get Value_eq_dec (optimizedFunctions s2) v
             end)
  /\ (NoDup (JSMap.keys (optimizedFunctions s2)) ->
      NoDup (JSMap.keys (optimizedFunctions s'))).
Proof.
  intros Hnd. rewrite withEmptyOptimizedFunctionList_run.
  destruct (func (value entry) (argModel entry) (beforeCallback entry s))
    as [[[]|e|] s2]; try discriminate.
  intros [= <-]. cbn [snd]. unfold afterCallback.
  split.
  - intros v. now apply mergeBack_get.
  - apply mergeBack_NoDup.
Qed.

(** ** The shape of a synthesized call *)

Lemma argumentsLoop_shape (f : FunctionValue) (am : option ArgModel)
    (params : list BabelNodeLVal) (acc out : list AbstractArgument) (s s' : State) :
  argumentsLoop f am params acc s = (Returned out, s') ->
  s' = s
  /\ exists new, out = acc ++ new
     /\ map (fun a => Identifier (argName a)) new = params
     /\ Forall (fun a => argLocation a = expressionLocation f) new
     /\ forall am' acc', exists new',
          argumentsLoop f am' params acc' s = (Returned (acc' ++ new'), s)
          /\ map argName new' = map argName new.
Proof.
  revert acc out. induction params as [|p params IH]; intros acc out.
  - cbn [Functions.argumentsLoop]. unfold ret. intros [= <- <-]. split; [reflexivity|].
    exists []. rewrite app_nil_r. repeat split; auto.
    intros am' acc'. exists []. now rewrite app_nil_r.
  - destruct p as [paramName| | | | |]; cbn [Functions.argumentsLoop];
      try (unfold bind, throw; rewrite handleError_run; discriminate).
    cbv zeta. intros Hrun. destruct (IH _ _ Hrun) as (-> & new & -> & Hn & Hl & Hm).
    split; [reflexivity|]. eexists (_ :: new). rewrite <- app_assoc. split; [reflexivity|].
    split; [cbn; now rewrite Hn|]. split; [constructor; auto|].
    intros am' acc'. destruct (Hm am' (acc' ++ [Functions.createAbstractArgument paramName
         (expressionLocation f)
         (match createForArgument rt am' paramName with
          | Some sh => getAbstractType rt sh | None => TypeValue end)
         (createForArgument rt am' paramName)])) as (new' & E & Hnames).
    eexists (_ :: new'). rewrite <- app_assoc in E. split; [exact E|].
    cbn. now rewrite Hnames.
Qed.

(** X8: a call that [_callOfFunction] returns is to the function it was asked
    for, has one abstract argument per formal parameter, in order and under
    the parameter's name, when the function has parameters to model and none
    otherwise, gives [this] and every argument the location of the function,
    and leaves the state alone; the argument model decides the types and
    shapes only, so that the call is synthesized under every other model too,
    with the same argument names. *)
Theorem callOfFunction_has_one_argument_per_parameter (f : FunctionValue)
    (am : option ArgModel) (s s' : State) (c : Call) :
  _callOfFunction f am s = (Returned c, s') ->
  s' = s
  /\ callee c = f
  /\ thisArg c = Functions.createAbstractArgument "this" (expressionLocation f)
                   TypeObjectValue None
  /\ map (fun a => Identifier (argName a)) (args c)
     = match Functions.hasParametersToModel f with Some params => params | None => [] end
  /\ Forall (fun a => argLocation a = expressionLocation f) (args c)
  /\ forall am', exists c',
       _callOfFunction f am' s = (Returned c', s)
       /\ callee c' = f /\ map argName (args c') = map argName (args c).
Proof.
  unfold Functions._callOfFunction, bind, invariant.
  destruct (hasCall f); [|discriminate]. unfold ret at 1.
  destruct (Functions.hasParametersToModel f) as [params|].
  - destruct (argumentsLoop f am params [] s) as [[out|e|] t] eqn:E; try discriminate.
    unfold ret. intros [= <- <-].
    destruct (argumentsLoop_shape _ _ _ _ _ _ _ E) as (-> & new & -> & Hn & Hl & Hm).
    cbn [callee thisArg args app]. repeat split; auto.
    intros am'. destruct (Hm am' []) as (new' & E' & Hnames).
    eexists. rewrite E'. cbn [app]. split; [reflexivity|]. now split.
  - unfold ret. intros [= <- <-]. cbn [callee thisArg args]. repeat split; auto.
    intros am'. eexists. split; [reflexivity|]. now split.
Qed.

(** ** Registered values that stand for no function *)

(** X9: the generation of the candidate list stops on a violated invariant at
    the first registered value that stands for no function, after the reports
    of PP1008 for the invalid functions before it and without one for the
    value itself; a value stands for a function when it is that function or
    an abstract value of which the function is the only element that is
    neither empty nor undefined. *)
Theorem generate_stops_at_value_that_is_no_function (s : State)
    (pre rest : list (Value * option ArgModel)) (v : Value) (m : option ArgModel) :
  optimizedFunctions s = pre ++ (v, m) :: rest ->
  (forall vm, In vm pre -> registeredFunction (fst vm) <> None) ->
  (forall e, In e (entriesOf pre) ->
             isValid rt (appliedEffects s) (value e) = false ->
             errorHandler rt (Functions.PP1008 (value e)) = Recover) ->
  (forall f, v <> Concrete (ObjectV (FunctionObject f))) ->
  (forall id elements f,
     v = AbstractValue id (Some elements) ->
     filter (fun element => negb (Functions.isEmptyOrUndefined element)) elements
     <> [ObjectV (FunctionObject f)]) ->
  _generateOptimizedFunctionsFromRealm s =
  (Threw InvariantViolation, addTrace (invalidReports rt (appliedEffects s) pre) s).
Proof.
  intros Hreg Hfun Hrec Hconc Habs.
  unfold Functions._generateOptimizedFunctionsFromRealm, bind, gets.
  rewrite Hreg, (generateLoop_prefix pre _ [] s Hfun Hrec).
  rewrite generateLoop_cons.
  assert (Hnone : registeredFunction v = None).
  { destruct v as [c|id [elements|]]; cbn.
    - destruct c; try reflexivity.
      match goal with o : ObjectValue |- _ => destruct o end; try reflexivity.
      exfalso. eapply Hconc. reflexivity.
    - specialize (Habs id elements).
      destruct (filter _ elements) as [|c [|c' l]];
        [reflexivity| |destruct c as [| |k|[addr|f]]; reflexivity].
      destruct c as [| |k|[addr|f]]; try reflexivity.
      exfalso. eapply Habs; reflexivity.
    - reflexivity. }
  now rewrite Hnone.
Qed.

(** X10: on an abstract value whose values domain has no element set
    [_unwrapAbstract] fails the invariant of [getElements].  On one that has
    an element set it returns, the state untouched: the one element that is
    neither empty nor undefined when there is exactly one such element, and
    else the value it was given; unwrapping what it returned gives the same
    again. *)
Theorem unwrapAbstract_picks_the_only_candidate (id : nat)
    (values : option (list ConcreteValue)) (s : State) :
  match values with
  | None => Functions._unwrapAbstract id values s = (Threw InvariantViolation, s)
  | Some elements =>
      let candidates :=
        filter (fun element => negb (Functions.isEmptyOrUndefined element)) elements in
      exists v',
        Functions._unwrapAbstract id values s = (Returned v', s)
        /\ Functions.unwrapIfAbstract v' s = (Returned v', s)
        /\ (List.length candidates <> 1 -> v' = AbstractValue id values)
        /\ (List.length candidates = 1 ->
            exists c,
              v' = Concrete c
              /\ In c elements
              /\ Functions.isEmptyOrUndefined c = false
              /\ forall c', In c' elements ->
                            Functions.isEmptyOrUndefined c' = false -> c' = c)
  end.
Proof.
  destruct values as [elements|]; [|reflexivity]. cbv zeta.
  unfold Functions._unwrapAbstract, Functions.getElements. rewrite bind_ret. cbv beta.
  destruct (filter _ elements) as [|c [|c' l]] eqn:E.
  - exists (AbstractValue id (Some elements)). split; [reflexivity|]. split.
    + cbn [Functions.unwrapIfAbstract]. unfold Functions._unwrapAbstract,
        Functions.getElements. rewrite bind_ret. cbv beta. now rewrite E.
    + split; [reflexivity|discriminate].
  - exists (Concrete c). split; [reflexivity|]. split; [reflexivity|].
    split; [intros H; now destruct H|]. intros _. exists c.
    assert (Hc : In c (filter (fun element =>
                                 negb (Functions.isEmptyOrUndefined element))
                          elements)) by (rewrite E; now left).
    apply filter_In in Hc. destruct Hc as [Hin Hne].
    apply negb_true_iff in Hne. repeat split; auto.
    intros c0 Hin0 Hne0.
    assert (Hc0 : In c0 (filter (fun element =>
                                   negb (Functions.isEmptyOrUndefined element))
                           elements))
      by (apply filter_In; split; [auto|now rewrite Hne0]).
    rewrite E in Hc0. destruct Hc0 as [<-|[]]. reflexivity.
  - exists (AbstractValue id (Some elements)). split; [reflexivity|]. split.
    + cbn [Functions.unwrapIfAbstract]. unfold Functions._unwrapAbstract,
        Functions.getElements. rewrite bind_ret. cbv beta. now rewrite E.
    + split; [reflexivity|discriminate].
Qed.

(** ** What the verification leaves as it found it *)

Section VerificationFrame.
Context {B : Type} (proj : State -> B).
Hypothesis proj_pair :
  forall n e1 f1 f2, stepwise (keeps proj) (checkPair n e1 f1 f2).
Hypothesis proj_trace : forall evs s, proj (addTrace evs s) = proj s.
Hypothesis proj_conflicts : forall c s, proj (set_conflicts c s) = proj s.

Lemma checkFunction_keeps (test : EvaluationResult -> bool) (f1 : FunctionValue) :
  stepwise (keeps proj) (checkFunction test f1).
Proof.
  intros s. rewrite checkFunction_run.
  destruct (JSMap.get _ _ f1) as [r|]; [|reflexivity]. cbv zeta.
  destruct (test (result (effects r))); [apply proj_trace|].
  apply (stepwise_forEach (keeps proj) (keeps_refl proj) (keeps_trans proj)).
  intros f2 _. apply proj_pair.
Qed.

Lemma verifyIndependence_keeps (test : EvaluationResult -> bool) :
  stepwise (keeps proj) (verifyIndependence test).
Proof.
  unfold Functions.verifyIndependence.
  apply stepwise_bind; [apply keeps_trans| |intros _].
  - intros s. rewrite independenceLoop_run.
    pose proof (stepwise_forEach (keeps proj) (keeps_refl proj) (keeps_trans proj)
                  (additionalFunctions s) (checkFunction test)
                  (fun f1 _ => checkFunction_keeps test f1) (set_conflicts [] s)) as H.
    unfold keeps in *. now rewrite H.
  - intros s. rewrite reportConflicts_run.
    destruct (conflicts s); [reflexivity|apply proj_trace].
Qed.
End VerificationFrame.

Lemma reportFn_keeps_hooks (n : string) (e1 : Effects) (f2 : FunctionValue) :
  stepwise (keeps hooks) (reportFn n e1 f2).
Proof.
  intros s. rewrite reportFn_run.
  destruct (synthesizedCall rt f2 None); [reflexivity|].
  destruct (hasCall f2); reflexivity.
Qed.

Lemma checkPair_keeps_hooks (n : string) (e1 : Effects) (f1 f2 : FunctionValue) :
  stepwise (keeps hooks) (checkPair n e1 f1 f2).
Proof.
  intros s. rewrite checkPair_run.
  destruct (FunctionValue_eq_dec f1 f2); [reflexivity|].
  destruct (JSMap.get _ _ f2) as [r2|]; [|reflexivity].
  destruct (parentAdditionalFunction r2) as [p|]; [|apply reportFn_keeps_hooks].
  destruct (JSMap.get _ _ p) as [rp|]; [|reflexivity].
  rewrite withEffectsApplied_run. cbn [snd].
  exact (reportFn_keeps_hooks n e1 f2 (set_appliedEffects (effects rp :: appliedEffects s) s)).
Qed.

(** X11: however the verification ends, by returning, by a fatal error or by
    a violated invariant, the table of write effects, the names of the
    functions and the candidate set are the ones it started from, and the two
    interception hooks of the realm are the ones that were installed before:
    no replay leaves its closures behind. *)
Theorem verification_leaves_tables_and_hooks (test : EvaluationResult -> bool)
    (s : State) :
  let s' := snd (verifyIndependence test s) in
  writeEffects s' = writeEffects s
  /\ functionExpressions s' = functionExpressions s
  /\ additionalFunctions s' = additionalFunctions s
  /\ reportPropertyAccess s' = reportPropertyAccess s
  /\ reportObjectGetOwnProperties s' = reportObjectGetOwnProperties s.
Proof.
  pose proof (verifyIndependence_keeps tables checkPair_keeps_tables
                (fun _ _ => eq_refl) (fun _ _ => eq_refl) test s) as HT.
  pose proof (verifyIndependence_keeps hooks checkPair_keeps_hooks
                (fun _ _ => eq_refl) (fun _ _ => eq_refl) test s) as HH.
  unfold keeps, tables, hooks in HT, HH. cbv zeta.
  injection HT as -> -> ->. injection HH as -> ->. repeat split.
Qed.

(** ** The name under which a function is reported *)

(** X12: the name that the diagnostics of the verification give a function is
    never empty: it is the expression recorded for the function when there is
    one that is not empty, else the intrinsic name when there is one that is
    not empty, else the text (unknown function). *)
Theorem nameOfFunction_is_never_empty (fe : list (FunctionValue * string))
    (fun1 : FunctionValue) :
  Functions.nameOfFunction fe fun1 <> ""%string
  /\ (forall n, JSMap.get FunctionValue_eq_dec fe fun1 = Some n -> n <> ""%string ->
                Functions.nameOfFunction fe fun1 = n)
  /\ ((JSMap.get FunctionValue_eq_dec fe fun1 = None
       \/ JSMap.get FunctionValue_eq_dec fe fun1 = Some ""%string) ->
      (forall n, intrinsicName fun1 = Some n -> n <> ""%string ->
                 Functions.nameOfFunction fe fun1 = n)
      /\ ((intrinsicName fun1 = None \/ intrinsicName fun1 = Some ""%string) ->
          Functions.nameOfFunction fe fun1 = "(unknown function)"%string)).
Proof.
  unfold Functions.nameOfFunction.
  assert (Hor : forall a b, b <> ""%string -> Functions.orElse a b <> ""%string).
  { intros [x|] b Hb; cbn; [|exact Hb].
    destruct (String.eqb_spec x ""); [exact Hb|assumption]. }
  assert (Hsome : forall n b, n <> ""%string -> Functions.orElse (Some n) b = n).
  { intros n b Hn. cbn. now destruct (String.eqb_spec n ""). }
  split; [|split].
  - apply Hor, Hor. discriminate.
  - intros n -> Hn. now apply Hsome.
  - intros Hfe.
    assert (E : forall b, Functions.orElse (JSMap.get FunctionValue_eq_dec fe fun1) b = b)
      by (intros b; destruct Hfe as [-> | ->]; reflexivity).
    rewrite E. split.
    + intros n -> Hn. now apply Hsome.
    + intros [-> | ->]; reflexivity.
Qed.

End Properties.

(** * Properties of the serialization of React elements *)

Section ReactElements.
Import ResidualReactElementSerializer.

Variable BailOutReason : ObjectValue -> option string.
Variable generate : nat -> string.

Local Abbreviation _serializeReactElementToCreateElement :=
  (ResidualReactElementSerializer._serializeReactElementToCreateElement BailOutReason).
Local Abbreviation _addBailOutMessageToBabelNode :=
  (ResidualReactElementSerializer._addBailOutMessageToBabelNode BailOutReason).

(** A property attribute that has no key. *)
Local Abbreviation keyless :=
  (fun a : ReactElementAttribute => type a = PROPERTY /\ key a = None).

Local Abbreviation settledAttribute :=
  (fun a : ReactElementAttribute => negb (pendingAttribute a)).

Local Abbreviation normalChild :=
  (fun child : ReactElementChild =>
     match child_type child with
     | NORMAL => true
     | PENDING_CHILD => false
     end).

Lemma operands_ready (l : list (option BabelNode)) :
  match operands l with
  | Returned es => l = map Some es
  | Threw e => e = TypeError /\ In None l
  | OutOfFuel => False
  end.
Proof.
  induction l as [|[x|] l IH]; cbn [operands operand andThen].
  - reflexivity.
  - destruct (operands l) as [es|e|]; cbn [andThen].
    + now rewrite IH.
    + split; [apply IH|right; apply IH].
    + exact IH.
  - split; [reflexivity|now left].
Qed.

Lemma attributesLoop_ready (l : list ReactElementAttribute) :
  forall acc,
    forallb attributeReady l = true ->
    exists astAttributes,
      attributesLoop l acc = Returned (acc ++ astAttributes)
      /\ List.length astAttributes = List.length (filter settledAttribute l).
Proof.
  induction l as [|a l IH]; intros acc H.
  - exists []. now rewrite app_nil_r.
  - cbn [forallb] in H. apply andb_true_iff in H. destruct H as [Ha Hl].
    cbn [attributesLoop filter]. unfold pendingAttribute at 1.
    unfold attributeReady in Ha.
    destruct (type a) eqn:Et; cbn [negb].
    + destruct (key a), (expr a) as [e|]; try discriminate Ha;
        cbn [t_spreadProperty operand andThen];
        destruct (IH (acc ++ [spreadProperty e]) Hl) as (l' & -> & Hlen);
        eexists (_ :: l'); rewrite <- app_assoc; (split; [reflexivity|]);
        cbn; now rewrite Hlen.
    + destruct (key a) as [k|]; [|discriminate Ha].
      destruct (expr a) as [e|]; [|discriminate Ha].
      cbn [t_objectProperty operand andThen].
      destruct (IH (acc ++ [objectProperty
                              (if includes k "-" then stringLiteral k else identifier k)
                              e]) Hl) as (l' & -> & Hlen).
      eexists (_ :: l'). rewrite <- app_assoc. split; [reflexivity|].
      cbn. now rewrite Hlen.
    + destruct (IH acc Hl) as (l' & -> & Hlen). now exists l'.
Qed.

Lemma attributesLoop_unready (l : list ReactElementAttribute) :
  forall acc,
    forallb attributeReady l = false ->
    exists e,
      attributesLoop l acc = Threw e
      /\ (e = InvariantViolation -> Exists keyless l).
Proof.
  induction l as [|a l IH]; intros acc H; [discriminate H|].
  cbn [forallb] in H. cbn [attributesLoop].
  destruct (attributeReady a) eqn:Ea.
  - cbn [andb] in H. unfold attributeReady in Ea.
    destruct (type a) eqn:Et.
    + destruct (key a), (expr a) as [e|]; try discriminate Ea;
        cbn [t_spreadProperty operand andThen];
        destruct (IH (acc ++ [spreadProperty e]) H) as (err & -> & Hk);
        exists err; (split; [reflexivity|]); intros He; right; auto.
    + destruct (key a) as [k|]; [|discriminate Ea].
      destruct (expr a) as [e|]; [|discriminate Ea].
      cbn [t_objectProperty operand andThen].
      destruct (IH (acc ++ [objectProperty
                              (if includes k "-" then stringLiteral k else identifier k)
                              e]) H) as (err & -> & Hk).
      exists err. split; [reflexivity|]. intros He. right. auto.
    + destruct (IH acc H) as (err & -> & Hk).
      exists err. split; [reflexivity|]. intros He. right. auto.
  - unfold attributeReady in Ea.
    destruct (type a) eqn:Et.
    + destruct (key a), (expr a) as [e|]; try discriminate Ea;
        cbn [t_spreadProperty operand andThen];
        exists TypeError; (split; [reflexivity|discriminate]).
    + destruct (key a) as [k|] eqn:Ek.
      * destruct (expr a) as [e|]; [discriminate Ea|].
        cbn [t_objectProperty operand andThen].
        exists TypeError. split; [reflexivity|discriminate].
      * exists InvariantViolation. split; [reflexivity|]. intros _. left. now split.
    + discriminate Ea.
Qed.

Lemma childrenLoop_slots (l : list ReactElementChild) :
  forall acc, childrenLoop l acc = acc ++ map child_expr (filter normalChild l).
Proof.
  induction l as [|c l IH]; intros acc; cbn [childrenLoop filter map].
  - now rewrite app_nil_r.
  - destruct (child_type c); rewrite IH; [|reflexivity].
    cbn [map]. now rewrite <- app_assoc.
Qed.

Lemma slots_ready (l : list ReactElementChild) :
  forallb childReady l = true ->
  map child_expr (filter normalChild l) = map Some (serializedChildren l).
Proof.
  unfold serializedChildren.
  induction l as [|c l IH]; intros H; [reflexivity|].
  cbn [forallb] in H. apply andb_true_iff in H. destruct H as [Hc Hl].
  cbn [filter flat_map]. unfold childReady in Hc.
  destruct (child_type c); [|now apply IH].
  destruct (child_expr c) as [e|] eqn:Ee; [|discriminate Hc].
  cbn [map app]. now rewrite Ee, IH.
Qed.

Lemma slots_unready (l : list ReactElementChild) :
  forallb childReady l = false -> In None (map child_expr (filter normalChild l)).
Proof.
  induction l as [|c l IH]; intros H; [discriminate H|].
  cbn [forallb] in H. cbn [filter]. unfold childReady in H.
  destruct (child_type c) eqn:Et.
  - destruct (child_expr c) as [e|] eqn:Ee; cbn [map].
    + right. now apply IH.
    + rewrite Ee. now left.
  - now apply IH.
Qed.

Lemma operands_app_ready (es : list BabelNode) (l : list (option BabelNode)) :
  operands (map Some es ++ l) = andThen (operands l) (fun r => Returned (es ++ r)).
Proof.
  induction es as [|e es IH]; cbn [map app operands operand andThen].
  - now destruct (operands l).
  - rewrite IH. now destruct (operands l).
Qed.

(** The run of the serialization of an element whose type is [ty], by what
    the loop over the attributes gave. *)
Lemma createElement_run (val : ObjectValue) (reactElement : ReactElement)
    (createElementIdentifier : BabelNode) :
  _serializeReactElementToCreateElement val reactElement createElementIdentifier =
  andThen
    (match attributes reactElement with
     | [] => Returned []
     | _ :: _ =>
         andThen (attributesLoop (attributes reactElement) []) (fun astAttributes =>
         Returned [Some (objectExpression astAttributes)])
     end)
    (fun props =>
       andThen
         (operands
            (element_type reactElement
             :: (props
                 ++ match attributes reactElement, children reactElement with
                    | [], _ :: _ => [Some nullLiteral]
                    | _, _ => []
                    end)
             ++ map child_expr (filter normalChild (children reactElement))))
         (fun es =>
            Returned (_addBailOutMessageToBabelNode val
                        (callExpression createElementIdentifier es)))).
Proof.
  unfold ResidualReactElementSerializer._serializeReactElementToCreateElement,
    t_callExpression.
  destruct (attributes reactElement) as [|a l] eqn:Ea; cbn [List.length Nat.eqb negb].
  - cbn [andThen app]. destruct (children reactElement) as [|c cs] eqn:Ec.
    + cbn [List.length Nat.eqb negb filter map app].
      now destruct (operands _).
    + cbn [List.length Nat.eqb negb]. rewrite childrenLoop_slots.
      cbn [app]. now destruct (operands _).
  - destruct (attributesLoop (a :: l) []) as [ast|e|]; cbn [andThen];
      try reflexivity.
    destruct (children reactElement) as [|c cs] eqn:Ec.
    + cbn [List.length Nat.eqb negb filter map app].
      rewrite ?app_nil_r. now destruct (operands _).
    + cbn [List.length Nat.eqb negb]. rewrite childrenLoop_slots.
      cbn [app]. rewrite ?app_nil_r. now destruct (operands _).
Qed.

(** X13: [_serializeReactElementToCreateElement] returns exactly for the
    elements of which the type has been serialized, every attribute that is
    not pending has its expression, every property attribute has its key and
    every serialized child has its expression; on the others an invariant or
    a builder of babel-types throws, the invariant only where some property
    attribute has no key.  What it returns is a call of the identifier it was
    given, with the bail-out comment when the value has a reason, whose first
    argument is the type and whose last arguments are the expressions of the
    serialized children, in order; between them stands nothing when the
    element has neither attributes nor children, the null literal when it has
    children and no attributes, and else one object expression with a member
    per attribute that is not pending: the children never come before the
    third argument. *)
Theorem createElement_arguments (val : ObjectValue) (reactElement : ReactElement)
    (createElementIdentifier : BabelNode) :
  (serializable reactElement = false ->
   exists e,
     _serializeReactElementToCreateElement val reactElement createElementIdentifier
     = Threw e
     /\ (e = InvariantViolation \/ e = TypeError)
     /\ (e = InvariantViolation -> Exists keyless (attributes reactElement)))
  /\
  (serializable reactElement = true ->
   exists ty props,
     element_type reactElement = Some ty
     /\ _serializeReactElementToCreateElement val reactElement createElementIdentifier
        = Returned
            (_addBailOutMessageToBabelNode val
               (callExpression createElementIdentifier
                  (ty :: props ++ serializedChildren (children reactElement))))
     /\ match attributes reactElement, children reactElement with
        | [], [] => props = []
        | [], _ :: _ => props = [nullLiteral]
        | _ :: _, _ =>
            exists astAttributes,
              props = [objectExpression astAttributes]
              /\ List.length astAttributes
                 = List.length (filter settledAttribute (attributes reactElement))
        end).
Proof.
  rewrite createElement_run. unfold serializable. split.
  - intros Hno.
    destruct (forallb attributeReady (attributes reactElement)) eqn:Hat.
    + assert (Hbad : In None
                       (element_type reactElement
                        :: map child_expr
                             (filter normalChild (children reactElement)))).
      { destruct (element_type reactElement) as [ty|]; [|now left].
        right. now apply slots_unready. }
      assert (Hthrow : forall props,
                 exists e,
                   andThen
                     (operands
                        (element_type reactElement
                         :: map Some props
                            ++ map child_expr
                                 (filter normalChild (children reactElement))))
                     (fun es =>
                        Returned (_addBailOutMessageToBabelNode val
                                    (callExpression createElementIdentifier es)))
                   = Threw e /\ e = TypeError).
      { intros props.
        pose proof (operands_ready
                      (element_type reactElement
                       :: map Some props
                          ++ map child_expr
                               (filter normalChild (children reactElement)))) as Hop.
        destruct (operands _) as [es|e|]; cbn [andThen].
        - exfalso. destruct Hbad as [Hty|Hch].
          + rewrite Hty in Hop. destruct es; discriminate Hop.
          + assert (Hin : In None
                            (element_type reactElement
                             :: map Some props
                                ++ map child_expr
                                     (filter normalChild (children reactElement))))
              by (right; apply in_or_app; now right).
            rewrite Hop in Hin. apply in_map_iff in Hin.
            destruct Hin as (x & Hx & _). discriminate Hx.
        - exists e. split; [reflexivity|apply Hop].
        - destruct Hop. }
      destruct (attributes reactElement) as [|a l] eqn:Ea; cbn [andThen].
      * destruct (children reactElement) as [|c cs] eqn:Ec.
        -- destruct (Hthrow []) as (e & He & ->). cbn [map app] in He.
           exists TypeError. rewrite <- Ec in *. cbn [app]. rewrite He.
           repeat split; [now right|discriminate].
        -- destruct (Hthrow [nullLiteral]) as (e & He & ->). cbn [map app] in He.
           exists TypeError. rewrite <- Ec in *. cbn [app]. rewrite He.
           repeat split; [now right|discriminate].
      * destruct (attributesLoop_ready (a :: l) [] Hat) as (ast & -> & _).
        cbn [andThen app]. rewrite ?app_nil_r.
        destruct (Hthrow [objectExpression ast]) as (e & He & ->). cbn [map app] in He.
        exists TypeError. rewrite He. repeat split; [now right|discriminate].
    + destruct (attributes reactElement) as [|a l] eqn:Ea; [discriminate Hat|].
      destruct (attributesLoop_unready (a :: l) [] Hat) as (e & He & Hk).
      rewrite He. cbn [andThen]. exists e. split; [reflexivity|]. split; [|exact Hk].
      clear - He. revert He. generalize (@nil BabelNode). generalize (a :: l).
      induction l0 as [|x l0 IH]; intros acc; cbn [attributesLoop]; [discriminate|].
      destruct (type x).
      -- unfold t_spreadProperty. destruct (expr x); cbn [operand andThen];
           [apply IH|intros [= <-]; now right].
      -- destruct (key x); [|intros [= <-]; now left].
         unfold t_objectProperty. destruct (expr x); cbn [operand andThen];
           [apply IH|intros [= <-]; now right].
      -- apply IH.
  - intros Hyes. destruct (element_type reactElement) as [ty|]; [|discriminate Hyes].
    apply andb_true_iff in Hyes. destruct Hyes as [Hat Hch].
    rewrite (slots_ready _ Hch).
    destruct (attributes reactElement) as [|a l] eqn:Ea; cbn [andThen].
    + destruct (children reactElement) as [|c cs] eqn:Ec.
      * exists ty, []. split; [reflexivity|]. split; [|reflexivity].
        rewrite <- Ec. cbn [app operands operand andThen].
        rewrite <- (app_nil_r (map Some _)), operands_app_ready.
        cbn [operands andThen]. now rewrite app_nil_r.
      * exists ty, [nullLiteral]. split; [reflexivity|]. split; [|reflexivity].
        rewrite <- Ec. cbn [app operands operand andThen].
        rewrite <- (app_nil_r (map Some _)), operands_app_ready.
        cbn [operands andThen]. now rewrite app_nil_r.
    + destruct (attributesLoop_ready (a :: l) [] Hat) as (ast & -> & Hlen).
      cbn [andThen app]. exists ty, [objectExpression ast].
      split; [reflexivity|]. split; [|now exists ast].
      rewrite ?app_nil_r. cbn [app operands operand andThen].
      rewrite <- (app_nil_r (map Some _)), operands_app_ready.
      cbn [operands andThen]. now rewrite app_nil_r.
Qed.

Lemma attributesLoop_settled (l : list ReactElementAttribute) :
  forall acc, attributesLoop (filter settledAttribute l) acc = attributesLoop l acc.
Proof.
  induction l as [|a l IH]; intros acc; [reflexivity|].
  cbn [filter]. unfold pendingAttribute at 1.
  destruct (type a) eqn:Et; cbn [negb attributesLoop]; rewrite ?Et.
  - destruct (t_spreadProperty (expr a)); cbn [andThen]; [apply IH|reflexivity..].
  - destruct (key a); [|reflexivity].
    destruct (t_objectProperty _ (expr a)); cbn [andThen]; [apply IH|reflexivity..].
  - apply IH.
Qed.

Lemma childrenLoop_settled (l : list ReactElementChild) :
  forall acc, childrenLoop (filter normalChild l) acc = childrenLoop l acc.
Proof.
  induction l as [|c l IH]; intros acc; [reflexivity|].
  cbn [filter]. destruct (child_type c) eqn:Et; cbn [childrenLoop]; rewrite ?Et;
    apply IH.
Qed.

Lemma length_zero_iff_filter {A} (p : A -> bool) (l : list A) :
  (l <> [] -> existsb p l = true) ->
  Nat.eqb (List.length (filter p l)) 0 = Nat.eqb (List.length l) 0.
Proof.
  destruct l as [|x l]; [reflexivity|]. intros H.
  specialize (H ltac:(discriminate)).
  destruct (filter p (x :: l)) as [|y l'] eqn:E; [|reflexivity].
  exfalso. apply existsb_exists in H. destruct H as (z & Hin & Hz).
  assert (Hf : In z (filter p (x :: l))) by (apply filter_In; now split).
  rewrite E in Hf. destruct Hf.
Qed.

(** X14: the attributes and the children that are still pending leave no
    mark in the call: an element and the element without them serialize to
    the same node, as long as the attributes, when there are some, are not
    all pending, and likewise the children. *)
Theorem pending_entries_leave_no_mark (val : ObjectValue) (reactElement : ReactElement)
    (createElementIdentifier : BabelNode) :
  (attributes reactElement <> [] ->
   existsb (fun a => negb (pendingAttribute a)) (attributes reactElement) = true) ->
  (children reactElement <> [] ->
   existsb (fun child => match child_type child with
                         | NORMAL => true
                         | PENDING_CHILD => false
                         end) (children reactElement) = true) ->
  _serializeReactElementToCreateElement val (settled reactElement) createElementIdentifier
  = _serializeReactElementToCreateElement val reactElement createElementIdentifier.
Proof.
  intros Ha Hc.
  unfold ResidualReactElementSerializer._serializeReactElementToCreateElement, settled.
  cbn [attributes children element_type].
  rewrite (length_zero_iff_filter _ _ Ha), (length_zero_iff_filter _ _ Hc).
  now rewrite attributesLoop_settled, childrenLoop_settled.
Qed.

Lemma emitAll_pending (calls : list HoistCall) :
  forall (l : LazilyHoistedNodes) (out : list BabelNode) (n : nat),
    emitAll generate calls
      {| _lazilyHoistedNodes := Some l; emitted := out; generatedFunctionNames := n |}
    = (Returned tt,
       {| _lazilyHoistedNodes :=
            Some {| id := id l;
                    createElementIdentifier := createElementIdentifier l;
                    nodes := nodes l
                             ++ map (fun c => {| node_id := call_id c;
                                                 astNode := call_node c |}) calls |};
          emitted := out; generatedFunctionNames := n |}).
Proof.
  induction calls as [|c calls IH]; intros [i p ns] out n.
  - cbn. now rewrite app_nil_r.
  - cbn [emitAll]. unfold _emitHoistedReactElement, set_lazilyHoistedNodes. cbn.
    rewrite IH. cbn. now rewrite <- app_assoc.
Qed.

(** X15: from a serializer with no hoisted node pending, any number of calls
    of [_emitHoistedReactElement], at least one, all return, generate one
    function name and emit one statement, the guarded call of the factory
    function for the first element, with the original identifier of the first
    call.  [serializeLazyHoistedNodes] then gives the declaration of that
    function, whose parameter is the hoisted identifier of the first call and
    whose body assigns every hoisted element in order, followed by one empty
    declaration per element, in order; it leaves nothing pending, so that a
    second call of it gives no entry. *)
Theorem hoisted_batch_has_one_factory (c : HoistCall) (rest : list HoistCall)
    (s : Serializer) :
  _lazilyHoistedNodes s = None ->
  let funcId := identifier (generate (generatedFunctionNames s)) in
  let r := emitAll generate (c :: rest) s in
  let done := set_lazilyHoistedNodes None (snd r) in
  fst r = Returned tt
  /\ emitted (snd r) = emitted s ++ [factoryCall funcId c]
  /\ generatedFunctionNames (snd r) = S (generatedFunctionNames s)
  /\ serializeLazyHoistedNodes (snd r)
     = (factoryDeclaration funcId (call_hoisted c) (c :: rest)
        :: map (fun c' => variableDeclaration "var" [variableDeclarator (call_id c') None])
             (c :: rest),
        done)
  /\ serializeLazyHoistedNodes done = ([], done).
Proof.
  destruct s as [l out n]. cbn [_lazilyHoistedNodes generatedFunctionNames emitted].
  intros ->.
  assert (Hr : emitAll generate (c :: rest)
                 {| _lazilyHoistedNodes := None; emitted := out;
                    generatedFunctionNames := n |}
               = (Returned tt,
                  {| _lazilyHoistedNodes :=
                       Some {| id := identifier (generate n);
                               createElementIdentifier := call_hoisted c;
                               nodes := map (fun c' => {| node_id := call_id c';
                                                          astNode := call_node c' |})
                                            (c :: rest) |};
                     emitted := out ++ [factoryCall (identifier (generate n)) c];
                     generatedFunctionNames := S n |})).
  { cbn [emitAll]. unfold _emitHoistedReactElement, set_lazilyHoistedNodes. cbn.
    now rewrite emitAll_pending. }
  cbv zeta. rewrite Hr. cbn [fst snd emitted generatedFunctionNames].
  repeat split.
  unfold serializeLazyHoistedNodes, factoryDeclaration, set_lazilyHoistedNodes.
  cbn [_lazilyHoistedNodes id createElementIdentifier nodes emitted
       generatedFunctionNames app].
  now rewrite !map_map.
Qed.

End ReactElements.


(** * The properties on the scenarios *)

(** With [f] and the invalid [g] registered: a handler that recovers gets
    the list without [g] and one report; a handler that fails stops the
    generation at [g]. *)
Lemma generate_excludes_invalid_witness :
  Functions._generateOptimizedFunctionsFromRealm Scenario.recovering
    (Scenario.registered [Scenario.f; Scenario.g])
  = (Returned [{| value := Scenario.f; argModel := None |}],
     addTrace [EvHandleError (Functions.PP1008 Scenario.g)]
       (Scenario.registered [Scenario.f; Scenario.g]))
  /\
  Functions._generateOptimizedFunctionsFromRealm Scenario.failing
    (Scenario.registered [Scenario.f; Scenario.g])
  = (Threw (FatalError None),
     addTrace [EvHandleError (Functions.PP1008 Scenario.g)]
       (Scenario.registered [Scenario.f; Scenario.g])).
Proof.
  split.
  - apply (proj1 (generate_excludes_invalid Scenario.recovering
             (Scenario.registered [Scenario.f; Scenario.g])
             [(Scenario.asValue Scenario.f, None); (Scenario.asValue Scenario.g, None)]
             [] eq_refl
             ltac:(intros vm [<-|[<-|[]]]; discriminate)
             ltac:(reflexivity))
           eq_refl).
  - apply (proj2 (generate_excludes_invalid Scenario.failing
             (Scenario.registered [Scenario.f; Scenario.g])
             [(Scenario.asValue Scenario.f, None)]
             [(Scenario.asValue Scenario.g, None)] eq_refl
             ltac:(intros vm [<-|[]]; discriminate)
             ltac:(intros e [<-|[]]; discriminate))
           (Scenario.asValue Scenario.g) None Scenario.g [] eq_refl eq_refl eq_refl eq_refl).
Defined.

(** [function ({a}) {}] is rejected before any evaluation; the function with
    a rest parameter and the length 0 gets its call without arguments. *)
Lemma non_identifier_parameter_is_fatal_witness :
  Functions.captureWriteEffects Scenario.plain 0 Scenario.destructuring None
    Scenario.emptyState
  = (Threw (FatalError (Some Functions.nonIdentifierMessage)),
     addTrace [EvHandleError (Functions.PP1005 Scenario.destructuring)]
       (set_additionalFunctionStack [Scenario.destructuring] Scenario.emptyState))
  /\ Functions._callOfFunction Scenario.plain Scenario.restOnly None Scenario.emptyState
     = (Returned {| callee := Scenario.restOnly;
                    thisArg := Functions.createAbstractArgument "this" (Some 4)
                                 TypeObjectValue None;
                    args := [] |},
        Scenario.emptyState).
Proof.
  split.
  - exact (proj2 (proj1 (non_identifier_parameter_is_fatal Scenario.plain 0
                           Scenario.destructuring None Scenario.emptyState eq_refl)
                    1%Z [ObjectPattern] eq_refl ltac:(lia) eq_refl eq_refl)).
  - apply (proj2 (non_identifier_parameter_is_fatal Scenario.plain 0
                    Scenario.restOnly None Scenario.emptyState eq_refl)).
    right; left. exists 0%Z. split; [reflexivity|lia].
Defined.

(** C7, as stated, fails on a function with a rest parameter whose [length]
    is 0: the parameters are not looked at, the call is synthesized without
    arguments and the interpreter evaluates it; PP1005 is not reported. *)
Lemma rest_parameter_is_not_rejected :
  FormalParameters Scenario.restOnly = Some [RestElement]
  /\ isIdentifier RestElement = false
  /\ (let r := Functions.captureWriteEffects Scenario.plain 0 Scenario.restOnly None
                 Scenario.emptyState in
      fst r = Returned {| parentAdditionalFunction := None;
                          effects := Scenario.noEffects |}
      /\ trace (snd r)
         = [EvEvaluate true
              {| callee := Scenario.restOnly;
                 thisArg := Functions.createAbstractArgument "this" (Some 4)
                              TypeObjectValue None;
                 args := [] |}
              []]).
Proof. repeat split. Qed.

(** C6, as stated, fails when the callback throws: with [g] pending and the
    capture of [function ({a}) {}] throwing its fatal error, the caller is left
    with an empty registration list, [g] is not merged back. *)
Lemma registrations_not_restored_on_error :
  let s := Scenario.registered [Scenario.g] in
  let r := Functions._withEmptyOptimizedFunctionList
             {| value := Scenario.destructuring; argModel := None |}
             (Functions.recordWriteEffectsForOptimizedFunctionAndNestedFunctions
                Scenario.plain 3 0) s in
  optimizedFunctions s = [(Scenario.asValue Scenario.g, None)]
  /\ fst r = Threw (FatalError (Some Functions.nonIdentifierMessage))
  /\ optimizedFunctions (snd r) = [].
Proof. repeat split. Qed.

(** ** Capture *)

(** [G] has its record already; it is evaluated again before PP1009 is
    reported, and the handler not recovering, the capture throws. *)
Lemma double_optimization_reported_after_capture_witness :
  let s := set_writeEffects
             [(Nested.G, {| parentAdditionalFunction := None;
                            effects := Scenario.noEffects |})]
             Scenario.emptyState in
  Functions.captureWriteEffects Nested.interpreter 0 Nested.G None s
  = (Threw (FatalError None),
     addTrace [EvEvaluate true (Nested.callOf Nested.G) [];
               EvHandleError (Functions.PP1009 Nested.G)]
       (pushed Nested.G s)).
Proof.
  intros s.
  apply (proj1 (proj2 (double_optimization_reported_after_capture Nested.interpreter 0
           Nested.G None s
           (addTrace [EvEvaluate true (Nested.callOf Nested.G) []] (pushed Nested.G s))
           (Nested.callOf Nested.G) Scenario.noEffects
           eq_refl eq_refl eq_refl))).
Defined.

(** C4, as stated, fails: [G] is registered at the top level and again by [F].
    Its second capture evaluates it (the fourth event) before PP1009 is
    reported (the fifth). *)
Lemma second_capture_precedes_double_optimization_report :
  let r := Functions.checkThatFunctionsAreIndependent Nested.interpreter 5 0
             (Nested.named (Scenario.registered [Nested.F; Nested.G])) in
  fst r = Threw (FatalError None)
  /\ trace (snd r)
     = [EvEvaluate true (Nested.callOf Nested.F) [];
        EvEvaluate true (Nested.callOf Nested.G) [Nested.effectsOfF];
        EvEvaluate true (Nested.callOf Nested.H) [Nested.effectsOfF];
        EvEvaluate true (Nested.callOf Nested.G) [];
        EvHandleError (Functions.PP1009 Nested.G)].
Proof. vm_compute. split; reflexivity. Qed.

(** [H], created by [F], is captured while the record of [F] is in the table:
    its parent is [F]. *)
Lemma parent_is_first_creator_witness :
  let s := set_appliedEffects [Nested.effectsOfF]
             (set_writeEffects
                [(Nested.F, {| parentAdditionalFunction := None;
                               effects := Nested.effectsOfF |})]
                Scenario.emptyState) in
  let record := {| parentAdditionalFunction := Some Nested.F;
                   effects := Scenario.noEffects |} in
  JSMap.get FunctionValue_eq_dec
    (writeEffects (snd (Functions.captureWriteEffects Nested.interpreter 0 Nested.H None s)))
    Nested.H = Some record
  /\ parentAdditionalFunction record = Functions.findDeclaring (writeEffects s) Nested.H.
Proof.
  intros s record.
  pose proof (parent_is_first_creator Nested.interpreter 0 Nested.H None s
                (snd (Functions.captureWriteEffects Nested.interpreter 0 Nested.H None s))
                record eq_refl) as (H1 & H2 & _).
  split; [exact H1|exact H2].
Defined.

(** C8, as stated, fails: [G] is revealed by the commit of [F] (it is captured
    under the effects of [F]), and [F] did not create it; its record names no
    parent. *)
Lemma function_revealed_by_commit_has_no_parent :
  let r := Functions.captureAll Nested.interpreter 5 0
             (Nested.named (Scenario.registered [Nested.F])) in
  fst r = Returned tt
  /\ captures (trace (snd r))
     = [(Nested.F, []); (Nested.G, [Nested.effectsOfF]); (Nested.H, [Nested.effectsOfF])]
  /\ option_map parentAdditionalFunction
       (JSMap.get FunctionValue_eq_dec (writeEffects (snd r)) Nested.G) = Some None.
Proof. vm_compute. repeat split. Qed.

(** ** Verification *)

(** C1: the result of [A1] is a definite abrupt completion, for which the test
    that section 9 of the specification takes to be meant holds; the test of
    line 324, in which [!] is applied to the result before [instanceof], holds
    for no result.  PP1002 is not reported: the six replays take place and the
    verification ends by reporting a conflict. *)
Lemma abrupt_result_does_not_stop_verification :
  let r := Functions.checkThatFunctionsAreIndependent Writers.interpreter 5 0
             (Writers.named (Scenario.registered [Writers.A1; Writers.A2; Writers.B])) in
  option_map (fun record => result (effects record))
    (JSMap.get FunctionValue_eq_dec (writeEffects (snd r)) Writers.A1)
  = Some (AbruptCompletion (Some 11))
  /\ definiteAbrupt (AbruptCompletion (Some 11)) = true
  /\ (forall result, Functions.mayTerminateAbruptly result = false)
  /\ replayed (trace (snd r))
     = [Writers.A2; Writers.B; Writers.A1; Writers.B; Writers.A1; Writers.A2]
  /\ reports (trace (snd r)) = [Functions.PP1003 "A1" 40]
  /\ fst r = Threw (FatalError None).
Proof.
  repeat split; try (vm_compute; reflexivity).
  intros result. now destruct result.
Qed.

(** [H] names [F] as its parent: it is replayed under the effects of [F], and
    its read of [obj.y], which [F] writes, enters the map. *)
Lemma replay_baseline_follows_parent_witness :
  let s := Nested.captured [Nested.F] in
  let r := Functions.checkPair Nested.interpreter "F" Nested.effectsOfF
             Nested.F Nested.H s in
  trace (snd r)
  = trace s ++ [EvEvaluate false (Nested.callOf Nested.H) [Nested.effectsOfF]]
  /\ JSMap.get Nat.eq_dec (conflicts (snd r)) 30 = Some (Functions.PP1003 "F" 30).
Proof.
  intros s r.
  pose proof (replay_baseline_follows_parent Nested.interpreter "F" Nested.effectsOfF
                Nested.F Nested.H s
                {| parentAdditionalFunction := Some Nested.F;
                   effects := Scenario.noEffects |}
                (Nested.callOf Nested.H)
                ltac:(discriminate) ltac:(vm_compute; reflexivity)
                ltac:(intros p [= <-]; vm_compute; discriminate)
                ltac:(vm_compute; reflexivity))
    as (_ & _ & _ & H4 & _ & H6).
  split; [exact H4|].
  exact (H6 [] [] Nested.objY 30 ltac:(vm_compute; reflexivity)
            (Forall_nil _) ltac:(left; reflexivity) eq_refl).
Defined.

(** C2, as stated, fails: [H] is nested in [F] and replayed under the effects
    of [F]; its read of [obj.y], which [F] wrote before registering it, is
    reported as a conflict with [F]. *)
Lemma parent_write_is_reported_against_nested_function :
  let r := Functions.checkThatFunctionsAreIndependent Nested.interpreter 5 0
             (Nested.named (Scenario.registered [Nested.F])) in
  option_map parentAdditionalFunction
    (JSMap.get FunctionValue_eq_dec (writeEffects (snd r)) Nested.H)
  = Some (Some Nested.F)
  /\ modifiedProperties Nested.effectsOfF = [Nested.objY]
  /\ steps (evaluate Nested.interpreter (Nested.callOf Nested.H) [Nested.effectsOfF])
     = [PropertyAccess Nested.objY (Some 30)]
  /\ fst r = Threw (FatalError None)
  /\ reports (trace (snd r)) = [Functions.PP1003 "F" 30].
Proof. vm_compute. repeat split. Qed.

(** [A1] is the first of the loop: the two reads of [obj.x] by [B] at location
    40 leave the one diagnostic that names [A1]. *)
Lemma one_diagnostic_per_location_witness :
  let s := Writers.captured [Writers.A1; Writers.A2; Writers.B] in
  JSMap.get Nat.eq_dec
    (conflicts (snd (Functions.independenceLoop Writers.interpreter
                       Functions.mayTerminateAbruptly s))) 40
  = Some (Functions.PP1003 "A1" 40).
Proof.
  intros s.
  exact (proj2 (proj2 (one_diagnostic_per_location Writers.interpreter
                         Functions.mayTerminateAbruptly s))
           [] Writers.A1 [Writers.A2; Writers.B] Writers.B
           {| parentAdditionalFunction := None; effects := Writers.throwing |}
           (Writers.callOf Writers.B) Writers.objX 40
           [] [PropertyAccess Writers.objX (Some 40)] (set_conflicts [] s)
           ltac:(vm_compute; reflexivity)
           ltac:(vm_compute; right; right; left; reflexivity)
           ltac:(discriminate)
           eq_refl
           ltac:(vm_compute; reflexivity)
           ltac:(left; reflexivity)
           eq_refl
           ltac:(vm_compute; reflexivity)
           ltac:(vm_compute; reflexivity)
           (Forall_nil _)
           ltac:(vm_compute; reflexivity)).
Defined.

(** C3, as stated, fails with two writers: [A2] writes [obj.x] and [B] reads
    it at location 40, but the one diagnostic there names [A1], which wrote
    [obj.x] too and comes first; none names [A2]. *)
Lemma second_writer_is_not_named :
  let r := Functions.checkThatFunctionsAreIndependent Writers.interpreter 5 0
             (Writers.named (Scenario.registered [Writers.A1; Writers.A2; Writers.B])) in
  option_map (fun record => modifiedProperties (effects record))
    (JSMap.get FunctionValue_eq_dec (writeEffects (snd r)) Writers.A2)
  = Some [Writers.objX]
  /\ steps (evaluate Writers.interpreter (Writers.callOf Writers.B) [])
     = [PropertyAccess Writers.objX (Some 40); PropertyAccess Writers.objX (Some 40)]
  /\ conflicts (snd r) = [(40, Functions.PP1003 "A1" 40)]
  /\ ~ In (Functions.PP1003 "A2" 40) (reports (trace (snd r))).
Proof.
  vm_compute. repeat split. intros [H|[]]. discriminate H.
Qed.


(** C10, as stated, fails: [W] writes [obj.x], and the replay of [U] against
    the write set of [W] enumerates the own properties of [obj] while the realm
    has no current location.  The invariant of line 384 fails, and the error
    is not one that [ignoreErrorsIn] ignores: it is thrown to the caller of
    [reportWriteConflicts], the two hooks having been put back, and it ends the
    whole check. *)
Lemma replay_invariant_reaches_the_caller :
  let s := Unlocated.captured [Unlocated.W; Unlocated.U] in
  let r := Functions.reportWriteConflicts Unlocated.interpreter "W" [Unlocated.objX]
             (Unlocated.callOf Unlocated.U) s in
  steps (evaluate Unlocated.interpreter (Unlocated.callOf Unlocated.U) (appliedEffects s))
  = [GetOwnProperties (OrdinaryObject 10) None]
  /\ fst r = Threw InvariantViolation
  /\ reportPropertyAccess (snd r) = reportPropertyAccess s
  /\ reportObjectGetOwnProperties (snd r) = reportObjectGetOwnProperties s
  /\ fst (Functions.checkThatFunctionsAreIndependent Unlocated.interpreter 5 0
            (Scenario.registered [Unlocated.W; Unlocated.U]))
     = Threw InvariantViolation.
Proof. vm_compute. repeat split. Qed.

(** ** Further properties on the scenarios *)

(** The capture of [F], which registers [G] and [H]: the three functions have
    their records, [H] under its parent [F]. *)
Lemma capture_establishes_table_witness :
  wellFormedTable Nested.interpreter (writeEffects (Nested.captured [Nested.F]))
  /\ covered (Nested.captured [Nested.F])
  /\ NoDup (additionalFunctions (Nested.captured [Nested.F]))
  /\ additionalFunctionStack (Nested.captured [Nested.F]) = [].
Proof.
  apply (capture_establishes_table Nested.interpreter 5 0
           (Nested.named (Scenario.registered [Nested.F]))).
  - intros ? ? [].
  - vm_compute. reflexivity.
Defined.

(** The whole check of [W] and [U]: the replay of [U], which enumerates an
    object while the realm has no current location, ends by the error of the
    invariant of line 384, and that error is the one of the check. *)
Lemma verification_after_capture_stops_on_replay_errors_and_conflicts_only_witness :
  let s := Scenario.registered [Unlocated.W; Unlocated.U] in
  let s1 := Unlocated.captured [Unlocated.W; Unlocated.U] in
  let loop := Functions.independenceLoop Unlocated.interpreter
                Functions.mayTerminateAbruptly s1 in
  (fst loop = Returned tt
   \/ exists f2 c2 e,
        In f2 (additionalFunctions s1)
        /\ synthesizedCall Unlocated.interpreter f2 None = Some c2
        /\ replayOutcome Unlocated.interpreter
             (evaluate Unlocated.interpreter c2
                (replayBaseline (writeEffects s1) (appliedEffects s1) f2))
           = Threw e
        /\ fst loop = Threw e)
  /\ Functions.checkThatFunctionsAreIndependent Unlocated.interpreter 5 0 s
     = (Threw InvariantViolation, snd loop).
Proof.
  intros s s1 loop.
  pose proof (verification_after_capture_stops_on_replay_errors_and_conflicts_only
                Unlocated.interpreter 5 0 s s1
                ltac:(intros ? ? [])
                ltac:(vm_compute; reflexivity)) as [H1 H2].
  split; [exact H1|].
  rewrite H2. vm_compute. reflexivity.
Defined.

(** [W] writes [obj.x] and [N] reads and enumerates another object: the
    verification of the two records no conflict. *)
Lemma replays_that_hit_nothing_raise_no_conflict_witness :
  let s := Enumerating.captured [Enumerating.W; Enumerating.N] in
  conflicts (snd (Functions.independenceLoop Enumerating.interpreter
                    Functions.mayTerminateAbruptly s)) = []
  /\ Functions.verifyIndependence Enumerating.interpreter Functions.mayTerminateAbruptly s
     = Functions.independenceLoop Enumerating.interpreter Functions.mayTerminateAbruptly s.
Proof.
  intros s.
  apply (replays_that_hit_nothing_raise_no_conflict Enumerating.interpreter
           Functions.mayTerminateAbruptly s).
  intros f1 f2 r1 c2 Hf1 Hf2 Hne Hget Hc.
  vm_compute in Hf1, Hf2.
  destruct Hf1 as [<-|[<-|[]]]; destruct Hf2 as [<-|[<-|[]]];
    try (now destruct Hne);
    vm_compute in Hget; injection Hget as <-;
    vm_compute in Hc; injection Hc as <-;
    vm_compute; reflexivity.
Defined.

(** [E] enumerates the own properties of the object of which [W] has written
    a property: the location of the enumeration gets its entry. *)
Lemma enumeration_of_written_object_is_recorded_witness :
  let s := Enumerating.captured [Enumerating.W; Enumerating.E] in
  let s' := snd (Functions.checkPair Enumerating.interpreter "W" Enumerating.writing
                   Enumerating.W Enumerating.E s) in
  JSMap.get Nat.eq_dec (conflicts s') 50 = Some (Functions.PP1003 "W" 50).
Proof.
  intros s s'.
  refine (enumeration_of_written_object_is_recorded Enumerating.interpreter
            "W" Enumerating.writing Enumerating.W Enumerating.E s s'
            (Nested.callOf Enumerating.E) [] [] (OrdinaryObject 10) 50 Enumerating.objX
            _ _ _ _ _ _ _).
  - discriminate.
  - vm_compute. reflexivity.
  - reflexivity.
  - reflexivity.
  - constructor.
  - now left.
  - reflexivity.
Defined.

(** The verification of [W], [E] and [N] makes six replays. *)
Lemma verification_replays_every_ordered_pair_once_witness :
  let s := Enumerating.captured [Enumerating.W; Enumerating.E; Enumerating.N] in
  let s' := snd (Functions.independenceLoop Enumerating.interpreter
                   Functions.mayTerminateAbruptly s) in
  exists evs,
    trace s' = trace s ++ evs
    /\ List.length (replayed evs) = List.length evs
    /\ List.length evs = 6.
Proof.
  intros s s'.
  refine (verification_replays_every_ordered_pair_once Enumerating.interpreter
            Functions.mayTerminateAbruptly s s' _ _).
  - vm_compute.
    repeat (apply NoDup_cons; [simpl; intuition discriminate|]). apply NoDup_nil.
  - vm_compute. reflexivity.
Defined.

(** [G] is pending when [F] is processed; the evaluation of [F] registers [G]
    and [H]: afterwards [G] is pending with the model it had, and [H] is
    pending as the callback left it. *)
Lemma registrations_survive_the_callback_witness :
  let entry := {| value := Nested.F; argModel := None |} in
  let func := Functions.recordWriteEffectsForOptimizedFunctionAndNestedFunctions
                Nested.interpreter 5 0 in
  let s := Nested.named (Scenario.registered [Nested.G]) in
  let s' := snd (Functions._withEmptyOptimizedFunctionList entry func s) in
  let s2 := snd (func (value entry) (argModel entry) (beforeCallback entry s)) in
  (forall v, JSMap.get Value_eq_dec (optimizedFunctions s') v =
             match JSMap.get Value_eq_dec (optimizedFunctions s) v with
             | Some m => Some m
             | None => JSMap.get Value_eq_dec (optimizedFunctions s2) v
             end)
  /\ (NoDup (JSMap.keys (optimizedFunctions s2)) ->
      NoDup (JSMap.keys (optimizedFunctions s'))).
Proof.
  intros entry func s s'.
  apply (registrations_survive_the_callback entry func s s').
  - cbn. apply NoDup_cons; [intros []|apply NoDup_nil].
  - vm_compute. reflexivity.
Defined.

(** The call synthesized for [function (a, b) {}]. *)
Lemma callOfFunction_has_one_argument_per_parameter_witness :
  let f := Enumerating.twoParameters in
  let s := Scenario.emptyState in
  let c := {| callee := f;
              thisArg := Functions.createAbstractArgument "this" (Some 6)
                           TypeObjectValue None;
              args := [Functions.createAbstractArgument "a" (Some 6) TypeValue None;
                       Functions.createAbstractArgument "b" (Some 6) TypeValue None] |} in
  s = s
  /\ callee c = f
  /\ thisArg c = Functions.createAbstractArgument "this" (expressionLocation f)
                   TypeObjectValue None
  /\ map (fun a => Identifier (argName a)) (args c) = [Identifier "a"; Identifier "b"]
  /\ Forall (fun a => argLocation a = expressionLocation f) (args c)
  /\ forall am', exists c',
       Functions._callOfFunction Scenario.plain f am' s = (Returned c', s)
       /\ callee c' = f /\ map argName (args c') = map argName (args c).
Proof.
  intros f s c.
  exact (callOfFunction_has_one_argument_per_parameter Scenario.plain f None s s c
           eq_refl).
Defined.

(** With [W], the value of [cond ? W : E] and [N] registered: the generation
    stops at the second, which stands for no function. *)
Lemma generate_stops_at_value_that_is_no_function_witness :
  let s := set_optimizedFunctions
             [(Scenario.asValue Enumerating.W, None); (Enumerating.either, None);
              (Scenario.asValue Enumerating.N, None)]
             Scenario.emptyState in
  Functions._generateOptimizedFunctionsFromRealm Enumerating.interpreter s
  = (Threw InvariantViolation, s).
Proof.
  intros s.
  refine (generate_stops_at_value_that_is_no_function Enumerating.interpreter s
            [(Scenario.asValue Enumerating.W, None)]
            [(Scenario.asValue Enumerating.N, None)] Enumerating.either None
            eq_refl _ _ _ _).
  - intros vm [<-|[]]. discriminate.
  - intros e [<-|[]] H. discriminate H.
  - intros f. discriminate.
  - intros id elements f Hv. injection Hv as _ <-. vm_compute. discriminate.
Defined.

(** ** React elements *)

Section ReactElementScenarios.
Import ResidualReactElementSerializer.

(** The element without a key makes the serialization fail; the [div] is
    serialized to a call with the type, one object of three members and the
    one child that has its expression, under the bail-out comment. *)
Lemma createElement_arguments_witness :
  (exists e,
     _serializeReactElementToCreateElement Elements.reasons (OrdinaryObject 21)
       Elements.keyless Elements.createElement
     = Threw e
     /\ (e = InvariantViolation \/ e = TypeError))
  /\
  exists props,
    _serializeReactElementToCreateElement Elements.reasons (OrdinaryObject 20)
      Elements.div Elements.createElement
    = Returned
        (commented ["Bail-out: refs are not supported"]
           (callExpression Elements.createElement
              (stringLiteral "div" :: props ++ [stringLiteral "hello"])))
    /\ exists astAttributes,
         props = [objectExpression astAttributes] /\ List.length astAttributes = 3.
Proof.
  split.
  - destruct (proj1 (createElement_arguments Elements.reasons (OrdinaryObject 21)
                       Elements.keyless Elements.createElement) eq_refl)
      as (e & He & Hkind & _).
    now exists e.
  - destruct (proj2 (createElement_arguments Elements.reasons (OrdinaryObject 20)
                       Elements.div Elements.createElement) eq_refl)
      as (ty & props & Hty & Hrun & Hprops).
    injection Hty as <-. exists props. split; [exact Hrun|exact Hprops].
Defined.

(** The element without a key fails the invariant; the element of which the
    type has not been serialized makes the builder of the call throw. *)
Lemma element_without_type_is_not_serialized :
  _serializeReactElementToCreateElement Elements.reasons (OrdinaryObject 21)
    Elements.keyless Elements.createElement
  = Threw InvariantViolation
  /\ _serializeReactElementToCreateElement Elements.reasons (OrdinaryObject 22)
       Elements.untyped Elements.createElement
     = Threw TypeError.
Proof. split; reflexivity. Qed.

(** The pending attribute and the pending child of the [div] can be left out. *)
Lemma pending_entries_leave_no_mark_witness :
  _serializeReactElementToCreateElement Elements.reasons (OrdinaryObject 20)
    (settled Elements.div) Elements.createElement
  = _serializeReactElementToCreateElement Elements.reasons (OrdinaryObject 20)
      Elements.div Elements.createElement.
Proof.
  apply (pending_entries_leave_no_mark Elements.reasons (OrdinaryObject 20)
           Elements.div Elements.createElement); intros _; reflexivity.
Defined.

(** Two elements hoisted in a row share one factory function. *)
Lemma hoisted_batch_has_one_factory_witness :
  let funcId := identifier "_$0" in
  let r := emitAll Elements.names [Elements.first; Elements.second] Elements.fresh in
  let done := set_lazilyHoistedNodes None (snd r) in
  fst r = Returned tt
  /\ emitted (snd r) = [factoryCall funcId Elements.first]
  /\ generatedFunctionNames (snd r) = 1
  /\ serializeLazyHoistedNodes (snd r)
     = ([factoryDeclaration funcId (Some (identifier "_$A"))
           [Elements.first; Elements.second];
         variableDeclaration "var" [variableDeclarator (identifier "_1") None];
         variableDeclaration "var" [variableDeclarator (identifier "_2") None]],
        done)
  /\ serializeLazyHoistedNodes done = ([], done).
Proof.
  exact (hoisted_batch_has_one_factory Elements.names Elements.first [Elements.second]
           Elements.fresh eq_refl).
Defined.

End ReactElementScenarios.
